(** * Maze game, lesson 06: cubicmap mesh generation and collision resolution

    A shallow embedding of [06_maze_game_camera.c]: the circle/rectangle
    test [CheckCollisionCircleRec], the collision resolution of the main
    loop, the camera controller [UpdateCamera], the pixel extraction
    [GetImageData], the mesh generator [GenMeshCubicmap], the image loader
    [LoadImage], the registers of the keyboard and mouse state with their
    callbacks, and the frame timing of [SyncFrame].

    Numbers.  C [int] and [unsigned int] values are integers of [Z];
    unsigned arithmetic is reduced modulo 2^32 by [u32] where the source
    computes on [unsigned int], and [s32] converts such a value to [int].
    A product of [int] values that sizes an allocation is computed by
    [int_mul], which stops outside the range of [int], where C defines no
    result; the theorems on the generator assume sizes in that range
    ([well_sized]).  The loop counters and the swing counter of the camera
    are not bounded.  The state of a key or of a mouse button is a [char]:
    [char_of_int] is the conversion of the [int] that is stored in it.

    Floats.  The circle/rectangle test, the rectangle that the main loop
    builds for a cell and the cell that it prints for the player are
    computed in the binary32 format with rounding to nearest, every
    operation rounded ([float], [float_round]); their arguments are the
    values of floats, as rationals.  The conversion of a float to [int]
    discards the fractional part; where C defines no result (infinities,
    not-a-number) [int_of_float] gives 0.  The camera controller, the
    coordinates of the mesh and the frame timing are computed on exact
    rationals of [Q], without rounding: what is proved of them holds of
    the program where its float operations are exact.  The functions of
    <math.h> and the constant DEG2RAD of raymath.h are not part of the
    repository; the camera controller takes them as parameters.

    Memory.  A heap block obtained from [malloc] is a list of cells, each
    cell either written ([Some v]) or not yet written ([None]).  Reading or
    writing outside the block, or reading a cell that was never written,
    has no defined result in C: the model stops with [None].

    Libraries.  What the program takes from the window and input library
    (the events it reports, the readings of its clock) and from the image
    decoder (the content of a file) enters as a parameter of the function
    that calls it.  The functions that only drive the graphics library
    (window and context creation, textures, shaders, upload and drawing of
    the mesh) are left out. *)

From Stdlib Require Import ZArith QArith Qabs Qround Qpower Lqa Lia Bool List.
From stdpp Require Import base option list strings.
Import ListNotations.

Local Open Scope Z_scope.

(** ** Machine integers *)

(** The value of an [unsigned int] expression. *)
Definition u32 (n : Z) : Z := n mod 2 ^ 32.

Definition INT_MAX : Z := 2 ^ 31 - 1.

(** Conversion of an [unsigned int] to [int], as in
    [int mapWidth = cubicmap.width]: values above INT_MAX wrap to negative
    numbers. *)
Definition s32 (n : Z) : Z := (n + 2 ^ 31) mod 2 ^ 32 - 2 ^ 31.

(** Product of two [int] values.  A product outside the range of [int] has
    no defined result in C: the model stops. *)
Definition int_mul (a b : Z) : option Z :=
  if (- 2 ^ 31 <=? a * b) && (a * b <=? INT_MAX) then Some (a * b) else None.

(** [(unsigned char)] of a value. *)
Definition u8 (n : Z) : Z := n mod 256.

(** ** Comparisons and conversions of rationals *)

(** [a > b] and [a < b]. *)
Definition Qgtb (a b : Q) : bool := negb (Qle_bool a b).

Definition Qltb (a b : Q) : bool := negb (Qle_bool b a).

(** The integer part: the fractional part is discarded. *)
Definition Qtrunc (q : Q) : Z := Z.quot (Qnum q) (Zpos (Qden q)).

(** A [bool] as a factor of a float product: 0 or 1. *)
Definition b2q (b : bool) : Q := if b then 1%Q else 0%Q.

(** ** Floating-point arithmetic *)

(** The type [float] is taken to be the binary32 format of IEEE 754: 24
    binary digits, the last one at an exponent from -149 to 104.  Every
    operation rounds its exact result to the nearest float, to the one with
    an even last digit when two are equally near, and every expression of
    type [float] is evaluated in this format, a product and a sum never
    being fused.  A finite float is given by its value, a rational; the
    sign of a zero is not kept: no operation of the program observes it
    (its only division is by the constant 2.0f). *)
Definition FLT_MANT_DIG : Z := 24.
Definition FLT_MIN_EXP : Z := - 125.
Definition FLT_MAX_EXP : Z := 128.

(** The integer part of the binary logarithm of a positive rational. *)
Definition Qlog2 (q : Q) : Z :=
  let k := Z.log2 (Qnum q) - Z.log2 (Zpos (Qden q)) in
  if Qle_bool (2 ^ k) q then k else k - 1.

(** The nearest integer; of two equally near ones, the even one. *)
Definition Qround_even (q : Q) : Z :=
  let t := Qfloor (q + (1 # 2)) in
  if Qeq_bool (inject_Z t) (q + (1 # 2)) && Z.odd t then t - 1 else t.

(** The nearest multiple of [2 ^ e]. *)
Definition Qround_at (e : Z) (q : Q) : Q :=
  (inject_Z (Qround_even (q / 2 ^ e)) * 2 ^ e)%Q.

(** The exponent of the last binary digit that a float of magnitude [q]
    keeps: 24 digits, and no digit below [2 ^ -149]. *)
Definition float_exponent (q : Q) : Z :=
  Z.max (Qlog2 q - (FLT_MANT_DIG - 1)) (FLT_MIN_EXP - FLT_MANT_DIG).

(** Rounding of a magnitude, in lowest terms. *)
Definition Qround_magnitude (q : Q) : Q :=
  Qred (Qround_at (float_exponent q) q).

(** Rounding to 24 binary digits, before the test for overflow. *)
Definition Qround_float (q : Q) : Q :=
  if Qltb q 0 then (- Qround_magnitude (- q))%Q else Qround_magnitude q.

Inductive float : Type :=
  | Ffinite (q : Q)
  | Finfinity (negative : bool)
  | Fnan.

(** The float that an exact result becomes: a magnitude that rounds to
    [2 ^ 128] or more overflows to an infinity. *)
Definition float_round (q : Q) : float :=
  let r := Qround_float q in
  if Qle_bool (2 ^ FLT_MAX_EXP) (Qabs r) then Finfinity (Qltb r 0) else Ffinite r.

Definition float_opp (a : float) : float :=
  match a with
  | Ffinite x => Ffinite (- x)
  | Finfinity s => Finfinity (negb s)
  | Fnan => Fnan
  end.

(** [fabsf] *)
Definition float_abs (a : float) : float :=
  match a with
  | Ffinite x => Ffinite (Qabs x)
  | Finfinity _ => Finfinity false
  | Fnan => Fnan
  end.

Definition float_add (a b : float) : float :=
  match a, b with
  | Ffinite x, Ffinite y => float_round (x + y)
  | Finfinity s, Finfinity t => if eqb s t then Finfinity s else Fnan
  | Finfinity s, Ffinite _ | Ffinite _, Finfinity s => Finfinity s
  | Fnan, _ | _, Fnan => Fnan
  end.

Definition float_sub (a b : float) : float := float_add a (float_opp b).

Definition float_mul (a b : float) : float :=
  match a, b with
  | Ffinite x, Ffinite y => float_round (x * y)
  | Finfinity s, Finfinity t => Finfinity (xorb s t)
  | Finfinity s, Ffinite y | Ffinite y, Finfinity s =>
      if Qeq_bool y 0 then Fnan else Finfinity (xorb s (Qltb y 0))
  | Fnan, _ | _, Fnan => Fnan
  end.

(** [a/2.0f] *)
Definition float_halve (a : float) : float :=
  match a with
  | Ffinite x => float_round (x / 2)
  | Finfinity s => Finfinity s
  | Fnan => Fnan
  end.

(** [a <= b], [a < b] and [a > b]: false as soon as one side is a NaN. *)
Definition float_le (a b : float) : bool :=
  match a, b with
  | Fnan, _ | _, Fnan => false
  | Ffinite x, Ffinite y => Qle_bool x y
  | Finfinity true, _ | _, Finfinity false => true
  | Finfinity false, _ | _, Finfinity true => false
  end.

Definition float_lt (a b : float) : bool :=
  match a, b with
  | Fnan, _ | _, Fnan => false
  | Ffinite x, Ffinite y => Qltb x y
  | Finfinity s, Finfinity t => s && negb t
  | Finfinity s, Ffinite _ => s
  | Ffinite _, Finfinity t => negb t
  end.

Definition float_gt (a b : float) : bool := float_lt b a.

(** Conversion of an [int] to float. *)
Definition float_of_int (n : Z) : float := float_round (inject_Z n).

(** Conversion of a float to [int]: the fractional part is discarded.  C
    defines the conversion when the result is in the range of [int]; the
    model gives the integer part of every finite float, and 0 for the
    others. *)
Definition int_of_float (a : float) : Z :=
  match a with
  | Ffinite x => Qtrunc x
  | Finfinity _ | Fnan => 0
  end.

(** Two floats are the same value. *)
Definition float_eq (a b : float) : Prop :=
  match a, b with
  | Ffinite x, Ffinite y => (x == y)%Q
  | Finfinity s, Finfinity t => s = t
  | Fnan, Fnan => True
  | _, _ => False
  end.

(** A float that is not a NaN. *)
Definition float_number (a : float) : Prop := a <> Fnan.

(** The largest float. *)
Definition FLT_MAX : Q := 2 ^ 128 - 2 ^ 104.

(** The value [q] is a float. *)
Definition is_float (q : Q) : bool :=
  Qeq_bool (Qround_float q) q && Qle_bool (Qabs q) FLT_MAX.

(** ** Types of the program *)

Record Vector2 : Type := mkVector2 { Vector2_x : Q; Vector2_y : Q }.

Record Vector3 : Type :=
  mkVector3 { Vector3_x : Q; Vector3_y : Q; Vector3_z : Q }.

Definition Vector3Zero : Vector3 := mkVector3 0 0 0.

Definition Vector3One : Vector3 := mkVector3 1 1 1.

Record Color : Type :=
  mkColor { Color_r : Z; Color_g : Z; Color_b : Z; Color_a : Z }.

(** The fields of [Rectangle] are of type [int]. *)
Record Rectangle : Type :=
  mkRectangle { Rectangle_x : Z; Rectangle_y : Z;
                Rectangle_width : Z; Rectangle_height : Z }.

Record Image : Type :=
  mkImage { Image_width : Z; Image_height : Z; Image_format : Z;
            Image_data : list Z }.

Definition UNCOMPRESSED_GRAYSCALE : Z := 1.
Definition UNCOMPRESSED_GRAY_ALPHA : Z := 2.
Definition UNCOMPRESSED_R5G6B5 : Z := 3.
Definition UNCOMPRESSED_R8G8B8 : Z := 4.
Definition UNCOMPRESSED_R5G5B5A1 : Z := 5.
Definition UNCOMPRESSED_R4G4B4A4 : Z := 6.
Definition UNCOMPRESSED_R8G8B8A8 : Z := 7.

Record Camera : Type :=
  mkCamera { Camera_position : Vector3; Camera_target : Vector3;
             Camera_up : Vector3; Camera_fovy : Q }.

Inductive CameraMove : Type :=
  | MOVE_FRONT | MOVE_BACK | MOVE_RIGHT | MOVE_LEFT | MOVE_UP | MOVE_DOWN.

(** ** Heap blocks and loops *)

(** A heap block of cells of type [A]. *)
Abbreviation array A := (list (option A)) (only parsing).

(** [malloc n]: a block of [n] cells, none of them written.  A request that
    cannot be served (a negative count read as a huge size) yields the
    block without cells, on which every access stops. *)
Definition malloc {A : Type} (n : Z) : array A := replicate (Z.to_nat n) None.

Definition load {A : Type} (m : array A) (i : Z) : option A :=
  if 0 <=? i then mjoin (m !! Z.to_nat i) else None.

Definition store {A : Type} (m : array A) (i : Z) (v : A) : option (array A) :=
  if (0 <=? i) && (i <? Z.of_nat (length m))
  then Some (<[Z.to_nat i := Some v]> m)
  else None.

(** [m[i] = v0; m[i + 1] = v1; ...] *)
Fixpoint store_from {A : Type} (m : array A) (i : Z) (vs : list A)
  : option (array A) :=
  match vs with
  | [] => Some m
  | v :: vs' => m' ← store m i v; store_from m' (i + 1) vs'
  end.

(** [for (int i = lo; i < hi; i++) body], the body being able to stop. *)
Fixpoint for_loop {S : Type} (body : S -> Z -> option S) (s : S) (range : list Z)
  : option S :=
  match range with
  | [] => Some s
  | i :: range' => s' ← body s i; for_loop body s' range'
  end.

Definition for_range {S : Type} (lo hi : Z) (body : S -> Z -> option S) (s : S)
  : option S :=
  for_loop body s (seqZ lo (hi - lo)).

Record Mesh : Type :=
  mkMesh { Mesh_vertexCount : Z;
           Mesh_vertices : array Q;
           Mesh_texcoords : array Q;
           Mesh_normals : array Q }.

(** ** Pixel extraction *)

(** [((unsigned char * )image.data)[k]] *)
Definition data_byte (image : Image) (k : Z) : option Z :=
  if 0 <=? k then Image_data image !! Z.to_nat k else None.

(** [((unsigned short * )image.data)[k]], least significant byte first. *)
Definition data_short (image : Image) (k : Z) : option Z :=
  lo ← data_byte image (2 * k);
  hi ← data_byte image (2 * k + 1);
  Some (lo + 256 * hi).

(** One turn of the loop of [GetImageData]: pixel [i] is filled from the
    data at [k]; a format outside the list leaves the pixel unwritten. *)
Definition GetImageData_pixel (image : Image) (st : array Color * Z) (i : Z)
  : option (array Color * Z) :=
  let '(pixels, k) := st in
  let fmt := Image_format image in
  if fmt =? UNCOMPRESSED_GRAYSCALE then
    v ← data_byte image k;
    pixels' ← store pixels i (mkColor v v v 255);
    Some (pixels', k + 1)
  else if fmt =? UNCOMPRESSED_GRAY_ALPHA then
    v ← data_byte image k;
    al ← data_byte image (k + 1);
    pixels' ← store pixels i (mkColor v v v al);
    Some (pixels', k + 2)
  else if fmt =? UNCOMPRESSED_R5G5B5A1 then
    pixel ← data_short image k;
    pixels' ← store pixels i
      (mkColor (u8 (Z.shiftr (Z.land pixel 63488) 11 * (255 ÷ 31)))
               (u8 (Z.shiftr (Z.land pixel 1984) 6 * (255 ÷ 31)))
               (u8 (Z.shiftr (Z.land pixel 62) 1 * (255 ÷ 31)))
               (u8 (Z.land pixel 1 * 255)));
    Some (pixels', k + 1)
  else if fmt =? UNCOMPRESSED_R5G6B5 then
    pixel ← data_short image k;
    pixels' ← store pixels i
      (mkColor (u8 (Z.shiftr (Z.land pixel 63488) 11 * (255 ÷ 31)))
               (u8 (Z.shiftr (Z.land pixel 2016) 5 * (255 ÷ 63)))
               (u8 (Z.land pixel 31 * (255 ÷ 31)))
               255);
    Some (pixels', k + 1)
  else if fmt =? UNCOMPRESSED_R4G4B4A4 then
    pixel ← data_short image k;
    pixels' ← store pixels i
      (mkColor (u8 (Z.shiftr (Z.land pixel 61440) 12 * (255 ÷ 15)))
               (u8 (Z.shiftr (Z.land pixel 3840) 8 * (255 ÷ 15)))
               (u8 (Z.shiftr (Z.land pixel 240) 4 * (255 ÷ 15)))
               (u8 (Z.land pixel 15 * (255 ÷ 15))));
    Some (pixels', k + 1)
  else if fmt =? UNCOMPRESSED_R8G8B8A8 then
    cr ← data_byte image k;
    cg ← data_byte image (k + 1);
    cb ← data_byte image (k + 2);
    ca ← data_byte image (k + 3);
    pixels' ← store pixels i (mkColor cr cg cb ca);
    Some (pixels', k + 4)
  else if fmt =? UNCOMPRESSED_R8G8B8 then
    cr ← data_byte image k;
    cg ← data_byte image (k + 1);
    cb ← data_byte image (k + 2);
    pixels' ← store pixels i (mkColor cr cg cb 255);
    Some (pixels', k + 3)
  else Some (pixels, k).

Definition GetImageData (image : Image) : option (array Color) :=
  let count := u32 (Image_width image * Image_height image) in
  fst <$> for_range 0 count (GetImageData_pixel image) (malloc count, 0).

(** ** Cubicmap mesh generation *)

(** The faces a cell can contribute.  A white cell is a full cube: [Top],
    [Bottom] and the four sides.  A black cell contributes the two faces
    seen from inside the corridor: [Ceiling] (at cube height, facing down)
    and [Floor] (at height 0, facing up). *)
Inductive Face : Type :=
  | Top | Bottom | Front | Back | Right | Left | Ceiling | Floor.

Record RectangleF : Type :=
  mkRectangleF { RectangleF_x : Q; RectangleF_y : Q;
                 RectangleF_width : Q; RectangleF_height : Q }.

Definition rightTexUV : RectangleF := mkRectangleF 0 0 (1 # 2) (1 # 2).
Definition leftTexUV : RectangleF := mkRectangleF (1 # 2) 0 (1 # 2) (1 # 2).
Definition frontTexUV : RectangleF := mkRectangleF 0 0 (1 # 2) (1 # 2).
Definition backTexUV : RectangleF := mkRectangleF (1 # 2) 0 (1 # 2) (1 # 2).
Definition topTexUV : RectangleF := mkRectangleF 0 (1 # 2) (1 # 2) (1 # 2).
Definition bottomTexUV : RectangleF := mkRectangleF (1 # 2) (1 # 2) (1 # 2) (1 # 2).

Definition n1 : Vector3 := mkVector3 1 0 0.
Definition n2 : Vector3 := mkVector3 (-1) 0 0.
Definition n3 : Vector3 := mkVector3 0 1 0.
Definition n4 : Vector3 := mkVector3 0 (-1) 0.
Definition n5 : Vector3 := mkVector3 0 0 1.
Definition n6 : Vector3 := mkVector3 0 0 (-1).

(** The 8 corners of the cube of cell [(x, z)]. *)
Record Corners : Type :=
  mkCorners { v1 : Vector3; v2 : Vector3; v3 : Vector3; v4 : Vector3;
              v5 : Vector3; v6 : Vector3; v7 : Vector3; v8 : Vector3 }.

Definition corners (cubeSize : Q) (x z : Z) : Corners :=
  let w := cubeSize in
  let h := cubeSize in
  let h2 := cubeSize in
  let fx := inject_Z x in
  let fz := inject_Z z in
  (mkCorners
     (mkVector3 (w * (fx - (1 # 2))) h2 (h * (fz - (1 # 2))))
     (mkVector3 (w * (fx - (1 # 2))) h2 (h * (fz + (1 # 2))))
     (mkVector3 (w * (fx + (1 # 2))) h2 (h * (fz + (1 # 2))))
     (mkVector3 (w * (fx + (1 # 2))) h2 (h * (fz - (1 # 2))))
     (mkVector3 (w * (fx + (1 # 2))) 0 (h * (fz - (1 # 2))))
     (mkVector3 (w * (fx - (1 # 2))) 0 (h * (fz - (1 # 2))))
     (mkVector3 (w * (fx - (1 # 2))) 0 (h * (fz + (1 # 2))))
     (mkVector3 (w * (fx + (1 # 2))) 0 (h * (fz + (1 # 2)))))%Q.

(** The 6 vertices written for a face, in the order of the source. *)
Definition face_vertices (c : Corners) (f : Face) : list Vector3 :=
  match f with
  | Top => [v1 c; v2 c; v3 c; v1 c; v3 c; v4 c]
  | Bottom => [v6 c; v8 c; v7 c; v6 c; v5 c; v8 c]
  | Front => [v2 c; v7 c; v3 c; v3 c; v7 c; v8 c]
  | Back => [v1 c; v5 c; v6 c; v1 c; v4 c; v5 c]
  | Right => [v3 c; v8 c; v4 c; v4 c; v8 c; v5 c]
  | Left => [v1 c; v7 c; v2 c; v1 c; v6 c; v7 c]
  | Ceiling => [v1 c; v3 c; v2 c; v1 c; v4 c; v3 c]
  | Floor => [v6 c; v7 c; v8 c; v6 c; v8 c; v5 c]
  end.

Definition face_normal (f : Face) : Vector3 :=
  match f with
  | Top => n3 | Bottom => n4 | Front => n6 | Back => n5
  | Right => n1 | Left => n2 | Ceiling => n4 | Floor => n3
  end.

Definition face_normals (f : Face) : list Vector3 :=
  [face_normal f; face_normal f; face_normal f;
   face_normal f; face_normal f; face_normal f].

(** Corners of a texture rectangle: [uv00] is [(x, y)], [uv10] is
    [(x + width, y)], [uv01] is [(x, y + height)], [uv11] the opposite
    corner. *)
Definition uv00 (t : RectangleF) : Vector2 :=
  mkVector2 (RectangleF_x t) (RectangleF_y t).
Definition uv10 (t : RectangleF) : Vector2 :=
  mkVector2 (RectangleF_x t + RectangleF_width t) (RectangleF_y t).
Definition uv01 (t : RectangleF) : Vector2 :=
  mkVector2 (RectangleF_x t) (RectangleF_y t + RectangleF_height t).
Definition uv11 (t : RectangleF) : Vector2 :=
  mkVector2 (RectangleF_x t + RectangleF_width t)
            (RectangleF_y t + RectangleF_height t).

Definition face_texcoords (f : Face) : list Vector2 :=
  match f with
  | Top =>
      [uv00 topTexUV; uv01 topTexUV; uv11 topTexUV;
       uv00 topTexUV; uv11 topTexUV; uv10 topTexUV]
  | Bottom =>
      [uv10 bottomTexUV; uv01 bottomTexUV; uv11 bottomTexUV;
       uv10 bottomTexUV; uv00 bottomTexUV; uv01 bottomTexUV]
  | Front =>
      [uv00 frontTexUV; uv01 frontTexUV; uv10 frontTexUV;
       uv10 frontTexUV; uv01 frontTexUV; uv11 frontTexUV]
  | Back =>
      [uv10 backTexUV; uv01 backTexUV; uv11 backTexUV;
       uv10 backTexUV; uv00 backTexUV; uv01 backTexUV]
  | Right =>
      [uv00 rightTexUV; uv01 rightTexUV; uv10 rightTexUV;
       uv10 rightTexUV; uv01 rightTexUV; uv11 rightTexUV]
  | Left =>
      [uv00 leftTexUV; uv11 leftTexUV; uv10 leftTexUV;
       uv00 leftTexUV; uv01 leftTexUV; uv11 leftTexUV]
  | Ceiling =>
      [uv00 topTexUV; uv11 topTexUV; uv01 topTexUV;
       uv00 topTexUV; uv10 topTexUV; uv11 topTexUV]
  | Floor =>
      [uv10 bottomTexUV; uv11 bottomTexUV; uv01 bottomTexUV;
       uv10 bottomTexUV; uv01 bottomTexUV; uv00 bottomTexUV]
  end.

(** The scratch arrays of the generator with their three counters.
    [emitted] is not a variable of the source: it records, in order, which
    face of which cell each group of 6 vertices belongs to. *)
Record Scratch : Type :=
  mkScratch { mapVertices : array Vector3;
              mapNormals : array Vector3;
              mapTexcoords : array Vector2;
              vCounter : Z;
              nCounter : Z;
              tcCounter : Z;
              emitted : list (Z * Z * Face) }.

(** One block "define ... triangles (2 tris, 6 vertex)" of the source. *)
Definition emit_face (cubeSize : Q) (x z : Z) (f : Face) (s : Scratch)
  : option Scratch :=
  vs ← store_from (mapVertices s) (vCounter s) (face_vertices (corners cubeSize x z) f);
  ns ← store_from (mapNormals s) (nCounter s) (face_normals f);
  ts ← store_from (mapTexcoords s) (tcCounter s) (face_texcoords f);
  Some (mkScratch vs ns ts (vCounter s + 6) (nCounter s + 6) (tcCounter s + 6)
                  (emitted s ++ [(x, z, f)])).

Definition emit_face_if (cond : bool) (cubeSize : Q) (x z : Z) (f : Face)
    (s : Scratch) : option Scratch :=
  if cond then emit_face cubeSize x z f s else Some s.

Definition is_white (c : Color) : bool :=
  (Color_r c =? 255) && (Color_g c =? 255) && (Color_b c =? 255).

Definition is_black (c : Color) : bool :=
  (Color_r c =? 0) && (Color_g c =? 0) && (Color_b c =? 0).

(** A side condition of the source,
    [((inside) && pixel at index is black) || (edge)]:
    the neighbour pixel is read only when [inside] holds. *)
Definition side_open (cubicmapPixels : array Color)
    (inside : bool) (index : Z) (edge : bool) : option bool :=
  if inside then
    c ← load cubicmapPixels index;
    Some (is_black c || edge)
  else Some edge.

(** Body of the two nested loops, for the cell in column [x], row [z]. *)
Definition GenMeshCubicmap_cell (cubicmap : Image) (cubicmapPixels : array Color)
    (cubeSize : Q) (z : Z) (s : Scratch) (x : Z) : option Scratch :=
  let width := Image_width cubicmap in
  let height := Image_height cubicmap in
  c ← load cubicmapPixels (u32 (z * width + x));
  if is_white c then
    s ← emit_face cubeSize x z Top s;
    s ← emit_face cubeSize x z Bottom s;
    front ← side_open cubicmapPixels (z <? u32 (height - 1))
              (u32 ((z + 1) * width + x)) (z =? u32 (height - 1));
    s ← emit_face_if front cubeSize x z Front s;
    back ← side_open cubicmapPixels (0 <? z)
              (u32 ((z - 1) * width + x)) (z =? 0);
    s ← emit_face_if back cubeSize x z Back s;
    right ← side_open cubicmapPixels (x <? u32 (width - 1))
              (u32 (z * width + (x + 1))) (x =? u32 (width - 1));
    s ← emit_face_if right cubeSize x z Right s;
    left ← side_open cubicmapPixels (0 <? x)
              (u32 (z * width + (x - 1))) (x =? 0);
    emit_face_if left cubeSize x z Left s
  else if is_black c then
    s ← emit_face cubeSize x z Ceiling s;
    emit_face cubeSize x z Floor s
  else Some s.

(** The three loops that move the scratch arrays into the float arrays of
    the mesh. *)
Definition copy_vector3 (src : array Vector3)
    (st : array Q * Z) (i : Z) : option (array Q * Z) :=
  let '(dst, fCounter) := st in
  v ← load src i;
  dst ← store dst fCounter (Vector3_x v);
  dst ← store dst (fCounter + 1) (Vector3_y v);
  dst ← store dst (fCounter + 2) (Vector3_z v);
  Some (dst, fCounter + 3).

Definition copy_vector2 (src : array Vector2)
    (st : array Q * Z) (i : Z) : option (array Q * Z) :=
  let '(dst, fCounter) := st in
  v ← load src i;
  dst ← store dst fCounter (Vector2_x v);
  dst ← store dst (fCounter + 1) (Vector2_y v);
  Some (dst, fCounter + 2).

(** The generator together with the record of emitted faces. *)
Definition GenMeshCubicmap_faces (cubicmap : Image) (cubeSize : Q)
  : option (Mesh * list (Z * Z * Face)) :=
  cubicmapPixels ← GetImageData cubicmap;
  let mapWidth := s32 (Image_width cubicmap) in
  let mapHeight := s32 (Image_height cubicmap) in
  let maxTriangles :=
    s32 (u32 (u32 (Image_width cubicmap * Image_height cubicmap) * 12)) in
  count ← int_mul maxTriangles 3;
  let s0 := mkScratch (malloc count) (malloc count) (malloc count) 0 0 0 [] in
  s ← for_range 0 mapHeight
        (fun s z =>
           for_range 0 mapWidth
             (GenMeshCubicmap_cell cubicmap cubicmapPixels cubeSize z) s)
        s0;
  let vertexCount := vCounter s in
  count3 ← int_mul vertexCount 3;
  count2 ← int_mul vertexCount 2;
  '(vertices, _) ← for_range 0 (vCounter s) (copy_vector3 (mapVertices s))
                     (malloc count3, 0);
  '(normals, _) ← for_range 0 (nCounter s) (copy_vector3 (mapNormals s))
                    (malloc count3, 0);
  '(texcoords, _) ← for_range 0 (tcCounter s) (copy_vector2 (mapTexcoords s))
                      (malloc count2, 0);
  Some (mkMesh vertexCount vertices texcoords normals, emitted s).

Definition GenMeshCubicmap (cubicmap : Image) (cubeSize : Q) : option Mesh :=
  fst <$> GenMeshCubicmap_faces cubicmap cubeSize.

(** ** Collision between circle and rectangle *)

(** The centre of the rectangle as the test computes it, with the division
    of [int] values. *)
Definition recCenterX (rec : Rectangle) : Z :=
  Rectangle_x rec + Rectangle_width rec ÷ 2.

Definition recCenterY (rec : Rectangle) : Z :=
  Rectangle_y rec + Rectangle_height rec ÷ 2.

(** A rectangle whose centre and sides are converted to [float] without
    rounding: integers up to [2 ^ 24]. *)
Definition exact_rectangle (rec : Rectangle) : Prop :=
  Z.abs (recCenterX rec) <= 2 ^ 24 /\ Z.abs (recCenterY rec) <= 2 ^ 24
  /\ Z.abs (Rectangle_width rec) <= 2 ^ 24
  /\ Z.abs (Rectangle_height rec) <= 2 ^ 24.

(** The test.  [halfWidth] and [halfHeight] name the expressions
    [(float)rec.width/2.0f] and [(float)rec.height/2.0f], which the source
    writes out at each use; [center] and [radius] are the values of the
    floats that are passed. *)
Definition CheckCollisionCircleRec
    (center : Vector2) (radius : Q) (rec : Rectangle) : bool :=
  let dx := float_abs (float_sub (Ffinite (Vector2_x center))
                                 (float_of_int (recCenterX rec))) in
  let dy := float_abs (float_sub (Ffinite (Vector2_y center))
                                 (float_of_int (recCenterY rec))) in
  let halfWidth := float_halve (float_of_int (Rectangle_width rec)) in
  let halfHeight := float_halve (float_of_int (Rectangle_height rec)) in
  if float_gt dx (float_add halfWidth (Ffinite radius)) then false
  else if float_gt dy (float_add halfHeight (Ffinite radius)) then false
  else if float_le dx halfWidth then true
  else if float_le dy halfHeight then true
  else
    let cornerDistanceSq :=
      float_add (float_mul (float_sub dx halfWidth) (float_sub dx halfWidth))
                (float_mul (float_sub dy halfHeight) (float_sub dy halfHeight)) in
    float_le cornerDistanceSq (float_mul (Ffinite radius) (Ffinite radius)).

(** ** Camera controller *)

Definition all_moves : list CameraMove :=
  [MOVE_FRONT; MOVE_BACK; MOVE_RIGHT; MOVE_LEFT; MOVE_UP; MOVE_DOWN].

(** What the controller reads from the input library in one call: the
    mouse position and, for each movement key, whether it is held. *)
Record Input : Type :=
  mkInput { mousePosition : Vector2; direction : CameraMove -> bool }.

(** The variables that survive between two calls: the global [cameraAngle]
    and the function's statics. *)
Record CameraStatics : Type :=
  mkCameraStatics { cameraAngle : Vector2;
                    swingCounter : Z;
                    previousMousePosition : Vector2 }.

Definition PLAYER_MOVEMENT_SENSITIVITY : Q := 20.
Definition CAMERA_MOUSE_MOVE_SENSITIVITY : Q := 3 # 1000.
Definition CAMERA_FIRST_PERSON_FOCUS_DISTANCE : Q := 25.
Definition CAMERA_FIRST_PERSON_MIN_CLAMP : Q := 85.
Definition CAMERA_FIRST_PERSON_MAX_CLAMP : Q := - (85).
Definition CAMERA_FIRST_PERSON_STEP_TRIGONOMETRIC_DIVIDER : Q := 5.
Definition CAMERA_FIRST_PERSON_STEP_DIVIDER : Q := 30.
Definition CAMERA_FIRST_PERSON_WAVING_DIVIDER : Q := 200.
Definition playerEyesPosition : Q := 6 # 10.

Section Controller.

(** <math.h> and raymath.h are outside the repository. *)
Variables sinf cosf : Q -> Q.
Variable DEG2RAD : Q.

Definition UpdateCamera (input : Input) (st : CameraStatics) (camera : Camera)
  : Camera * CameraStatics :=
  let dir := fun m => b2q (direction input m) in
  let mousePositionDelta :=
    mkVector2
      (Vector2_x (mousePosition input) - Vector2_x (previousMousePosition st))
      (Vector2_y (mousePosition input) - Vector2_y (previousMousePosition st)) in
  let angle := cameraAngle st in
  let pos := Camera_position camera in
  let px :=
    (Vector3_x pos
     + (sinf (Vector2_x angle) * dir MOVE_BACK
        - sinf (Vector2_x angle) * dir MOVE_FRONT
        - cosf (Vector2_x angle) * dir MOVE_LEFT
        + cosf (Vector2_x angle) * dir MOVE_RIGHT) / PLAYER_MOVEMENT_SENSITIVITY)%Q in
  let py :=
    (Vector3_y pos
     + (sinf (Vector2_y angle) * dir MOVE_FRONT
        - sinf (Vector2_y angle) * dir MOVE_BACK
        + 1 * dir MOVE_UP - 1 * dir MOVE_DOWN) / PLAYER_MOVEMENT_SENSITIVITY)%Q in
  let pz :=
    (Vector3_z pos
     + (cosf (Vector2_x angle) * dir MOVE_BACK
        - cosf (Vector2_x angle) * dir MOVE_FRONT
        + sinf (Vector2_x angle) * dir MOVE_LEFT
        - sinf (Vector2_x angle) * dir MOVE_RIGHT) / PLAYER_MOVEMENT_SENSITIVITY)%Q in
  let isMoving :=
    existsb (direction input) all_moves in
  let ax :=
    (Vector2_x angle
     + Vector2_x mousePositionDelta * - CAMERA_MOUSE_MOVE_SENSITIVITY)%Q in
  let ay0 :=
    (Vector2_y angle
     + Vector2_y mousePositionDelta * - CAMERA_MOUSE_MOVE_SENSITIVITY)%Q in
  let ay :=
    if Qgtb ay0 (CAMERA_FIRST_PERSON_MIN_CLAMP * DEG2RAD)
    then (CAMERA_FIRST_PERSON_MIN_CLAMP * DEG2RAD)%Q
    else if Qltb ay0 (CAMERA_FIRST_PERSON_MAX_CLAMP * DEG2RAD)
         then (CAMERA_FIRST_PERSON_MAX_CLAMP * DEG2RAD)%Q
         else ay0 in
  let tgt :=
    mkVector3 (px - sinf ax * CAMERA_FIRST_PERSON_FOCUS_DISTANCE)
              (py + sinf ay * CAMERA_FIRST_PERSON_FOCUS_DISTANCE)
              (pz - cosf ax * CAMERA_FIRST_PERSON_FOCUS_DISTANCE) in
  let swing := if isMoving then swingCounter st + 1 else swingCounter st in
  let py' :=
    (playerEyesPosition
     - sinf (inject_Z swing / CAMERA_FIRST_PERSON_STEP_TRIGONOMETRIC_DIVIDER)
       / CAMERA_FIRST_PERSON_STEP_DIVIDER)%Q in
  let upx :=
    (sinf (inject_Z swing / (CAMERA_FIRST_PERSON_STEP_TRIGONOMETRIC_DIVIDER * 2))
     / CAMERA_FIRST_PERSON_WAVING_DIVIDER)%Q in
  let upz :=
    (- sinf (inject_Z swing / (CAMERA_FIRST_PERSON_STEP_TRIGONOMETRIC_DIVIDER * 2))
     / CAMERA_FIRST_PERSON_WAVING_DIVIDER)%Q in
  (mkCamera (mkVector3 px py' pz) tgt
            (mkVector3 upx (Vector3_y (Camera_up camera)) upz)
            (Camera_fovy camera),
   mkCameraStatics (mkVector2 ax ay) swing (mousePosition input)).

End Controller.

(** ** Collision resolution in the main loop *)

(** [float playerRadius = 0.1f]: the float nearest to 1/10. *)
Definition playerRadius : Q := Qround_float (1 # 10).

(** The rectangle that the scan builds for the cell in column [x], row [y]:
    [(Rectangle){ mapPosition.x + 0.5f + x*1.0f, mapPosition.y + 0.5f + y*1.0f,
    1.0f, 1.0f }], the four floats being converted to the [int] fields. *)
Definition cellRectangle (mapPosition : Vector3) (x y : Z) : Rectangle :=
  {| Rectangle_x :=
       int_of_float
         (float_add (float_add (Ffinite (Vector3_x mapPosition)) (Ffinite (1 # 2)))
                    (float_mul (float_of_int x) (Ffinite 1)));
     Rectangle_y :=
       int_of_float
         (float_add (float_add (Ffinite (Vector3_y mapPosition)) (Ffinite (1 # 2)))
                    (float_mul (float_of_int y) (Ffinite 1)));
     Rectangle_width := int_of_float (Ffinite 1);
     Rectangle_height := int_of_float (Ffinite 1) |}.

(** The test on one cell of the scan: [mapPixels[y*width + x].r == 255]
    and, only then, the circle/rectangle test. *)
Definition is_collider (c : Color) : bool := Color_r c =? 255.

(** [{ p.x, p.z }]: the player on the plane of the map. *)
Definition horizontal (p : Vector3) : Vector2 :=
  mkVector2 (Vector3_x p) (Vector3_z p).

(** [camera.position = p] *)
Definition set_position (camera : Camera) (p : Vector3) : Camera :=
  mkCamera p (Camera_target camera) (Camera_up camera) (Camera_fovy camera).

(** One turn of the inner loop of the scan.  The state is the camera and
    (not a variable of the source) the list of the cells whose pixel was
    read so far. *)
Definition collision_cell (imMap : Image) (mapPixels : array Color)
    (mapPosition : Vector3) (playerPos : Vector2) (oldCamPos : Vector3) (y : Z)
    (st : Camera * list (Z * Z)) (x : Z) : option (Camera * list (Z * Z)) :=
  let '(camera, visited) := st in
  c ← load mapPixels (u32 (y * Image_width imMap + x));
  if is_collider c
     && CheckCollisionCircleRec playerPos playerRadius (cellRectangle mapPosition x y)
  then Some (set_position camera oldCamPos, visited ++ [(x, y)])
  else Some (camera, visited ++ [(x, y)]).

(** The update part of one turn of the main loop after [UpdateCamera]
    returned: [oldCamPos] is the position saved before the call, [camera]
    the camera it left.  The cell of the player ([playerCellX],
    [playerCellY]), computed and clamped before the scan, is only printed:
    the scan does not use it. *)
Definition resolve_collisions (imMap : Image) (mapPixels : array Color)
    (mapPosition : Vector3) (oldCamPos : Vector3) (camera : Camera)
  : option (Camera * list (Z * Z)) :=
  let playerPos := horizontal (Camera_position camera) in
  for_range 0 (Image_width imMap)
    (fun st y =>
       for_range 0 (Image_width imMap)
         (collision_cell imMap mapPixels mapPosition playerPos oldCamPos y) st)
    (camera, []).

Section Frame.

Variables sinf cosf : Q -> Q.
Variable DEG2RAD : Q.

(** One turn of the main loop, up to the drawing. *)
Definition frame (imMap : Image) (mapPixels : array Color)
    (mapPosition : Vector3) (input : Input)
    (st : Camera * CameraStatics) : option (Camera * CameraStatics) :=
  let oldCamPos := Camera_position (fst st) in
  let '(camera, statics) := UpdateCamera sinf cosf DEG2RAD input (snd st) (fst st) in
  '(camera, _) ← resolve_collisions imMap mapPixels mapPosition oldCamPos camera;
  Some (camera, statics).

End Frame.

(** ** Functional description of the generator *)

(** A block whose first cells hold [vs] and whose [n] last cells were never
    written. *)
Definition filled {A : Type} (vs : list A) (n : nat) : array A :=
  (Some <$> vs) ++ replicate n None.

(** The pixel of column [x], row [z] in a row-major array. *)
Definition pixel_at (pixels : list Color) (width x z : Z) : option Color :=
  if (0 <=? x) && (x <? width) && (0 <=? z)
  then pixels !! Z.to_nat (z * width + x)
  else None.

Definition black_at (pixels : list Color) (width x z : Z) : bool :=
  match pixel_at pixels width x z with
  | Some c => is_black c
  | None => false
  end.

Definition white_at (pixels : list Color) (width x z : Z) : bool :=
  match pixel_at pixels width x z with
  | Some c => is_white c
  | None => false
  end.

(** Whether [(x, z)] is a cell of the map. *)
Definition inside (width height : Z) (cell : Z * Z) : bool :=
  (0 <=? fst cell) && (fst cell <? width)
  && (0 <=? snd cell) && (snd cell <? height).

Definition is_side (f : Face) : bool :=
  match f with
  | Front | Back | Right | Left => true
  | Top | Bottom | Ceiling | Floor => false
  end.

(** The cell on the other side of a side face. *)
Definition neighbour (x z : Z) (f : Face) : Z * Z :=
  match f with
  | Front => (x, z + 1)
  | Back => (x, z - 1)
  | Right => (x + 1, z)
  | Left => (x - 1, z)
  | Top | Bottom | Ceiling | Floor => (x, z)
  end.

(** The faces of one cell, read off the branches of the loop body. *)
Definition cell_faces (pixels : list Color) (width height x z : Z) : list Face :=
  match pixel_at pixels width x z with
  | Some c =>
      if is_white c then
        [Top; Bottom]
        ++ (if (z <? height - 1) && black_at pixels width x (z + 1)
               || (z =? height - 1) then [Front] else [])
        ++ (if (0 <? z) && black_at pixels width x (z - 1)
               || (z =? 0) then [Back] else [])
        ++ (if (x <? width - 1) && black_at pixels width (x + 1) z
               || (x =? width - 1) then [Right] else [])
        ++ (if (0 <? x) && black_at pixels width (x - 1) z
               || (x =? 0) then [Left] else [])
      else if is_black c then [Ceiling; Floor]
      else []
  | None => []
  end.

Definition row_faces (pixels : list Color) (width height z : Z)
  : list (Z * Z * Face) :=
  x ← seqZ 0 width; (fun f => (x, z, f)) <$> cell_faces pixels width height x z.

Definition all_faces (pixels : list Color) (width height : Z)
  : list (Z * Z * Face) :=
  z ← seqZ 0 height; row_faces pixels width height z.

Definition face_entry_vertices (cubeSize : Q) (e : Z * Z * Face) : list Vector3 :=
  let '(x, z, f) := e in face_vertices (corners cubeSize x z) f.

Definition face_entry_normals (e : Z * Z * Face) : list Vector3 :=
  face_normals (snd e).

Definition face_entry_texcoords (e : Z * Z * Face) : list Vector2 :=
  face_texcoords (snd e).

Definition xyz (v : Vector3) : list Q := [Vector3_x v; Vector3_y v; Vector3_z v].

Definition xy (v : Vector2) : list Q := [Vector2_x v; Vector2_y v].

(** The mesh that corresponds to a list of faces. *)
Definition mesh_of_faces (cubeSize : Q) (fs : list (Z * Z * Face)) : Mesh :=
  mkMesh (6 * Z.of_nat (length fs))
         (Some <$> (fs ≫= face_entry_vertices cubeSize) ≫= xyz)
         (Some <$> (fs ≫= face_entry_texcoords) ≫= xy)
         (Some <$> (fs ≫= face_entry_normals) ≫= xyz).

(** [count] cells of a block, from the cell number [first] on. *)
Definition slice {A : Type} (first count : nat) (m : list A) : list A :=
  take count (drop first m).

(** The cells of a block of floats are written and hold the values [vs],
    in order. *)
Definition holds (cells : array Q) (vs : list Q) : Prop :=
  Forall2 (fun cell v => exists q : Q, cell = Some q /\ (q == v)%Q) cells vs.

(** The coordinates of points of the box of the cell [(x, z)], the cube
    over its footprint from the ground up to the cube size: each point is
    given by its offsets [(i, j, k)] from the centre of the footprint, in
    units of the cube size, and contributes its three coordinates. *)
Definition box_points (cubeSize : Q) (x z : Z) (offsets : list (Q * Q * Q))
  : list Q :=
  '(i, j, k) ← offsets;
  [cubeSize * (inject_Z x + i); cubeSize * j; cubeSize * (inject_Z z + k)]%Q.

(** The scratch arrays after the faces [fs] were written into arrays of
    [cap] cells. *)
Definition scratch_of (cubeSize : Q) (cap : nat) (fs : list (Z * Z * Face))
  : Scratch :=
  mkScratch
    (filled (fs ≫= face_entry_vertices cubeSize) (cap - 6 * length fs))
    (filled (fs ≫= face_entry_normals) (cap - 6 * length fs))
    (filled (fs ≫= face_entry_texcoords) (cap - 6 * length fs))
    (6 * Z.of_nat (length fs)) (6 * Z.of_nat (length fs))
    (6 * Z.of_nat (length fs)) fs.

(** The counter of vertices is 6 times the number of recorded faces and
    does not pass the end of the scratch array. *)
Definition counts_faces (cap : nat) (s : Scratch) : Prop :=
  vCounter s = 6 * Z.of_nat (length (emitted s))
  /\ length (mapVertices s) = cap
  /\ vCounter s <= Z.of_nat cap.

(** An image whose dimensions keep every size computation of the generator
    inside the range of [int]: the largest one is [vertexCount*3], at most
    [width*height*36*3]. *)
Definition well_sized (image : Image) : Prop :=
  0 <= Image_width image <= INT_MAX /\
  0 <= Image_height image <= INT_MAX /\
  Image_width image * Image_height image * 108 <= INT_MAX.

(** [pixels] is the grid that [GetImageData] extracts from [image]. *)
Definition grid_of (image : Image) (pixels : list Color) : Prop :=
  well_sized image /\ GetImageData image = Some (Some <$> pixels).

(** The data of the RGBA image of a grid of colours. *)
Definition rgba_bytes (cs : list Color) : list Z :=
  c ← cs; [Color_r c; Color_g c; Color_b c; Color_a c].

(** A side face whose other side is a cell of the map. *)
Definition inward (width height : Z) (e : Z * Z * Face) : bool :=
  is_side (snd e)
  && inside width height (neighbour (fst (fst e)) (snd (fst e)) (snd e)).

(** A side face on the border of the map. *)
Definition outward (width height : Z) (e : Z * Z * Face) : bool :=
  is_side (snd e)
  && negb (inside width height (neighbour (fst (fst e)) (snd (fst e)) (snd e))).

(** The faces of the 3 x 3 map whose cells are walls except the centre,
    in the order of emission. *)
Definition ring_faces : list (Z * Z * Face) :=
  [(0, 0, Top); (0, 0, Bottom); (0, 0, Back); (0, 0, Left);
   (1, 0, Top); (1, 0, Bottom); (1, 0, Front); (1, 0, Back);
   (2, 0, Top); (2, 0, Bottom); (2, 0, Back); (2, 0, Right);
   (0, 1, Top); (0, 1, Bottom); (0, 1, Right); (0, 1, Left);
   (1, 1, Ceiling); (1, 1, Floor);
   (2, 1, Top); (2, 1, Bottom); (2, 1, Right); (2, 1, Left);
   (0, 2, Top); (0, 2, Bottom); (0, 2, Front); (0, 2, Left);
   (1, 2, Top); (1, 2, Bottom); (1, 2, Front); (1, 2, Back);
   (2, 2, Top); (2, 2, Bottom); (2, 2, Front); (2, 2, Right)].

(** ** Functional description of the collision scan *)

(** The cells the two loops of the scan go through, in order: both loops
    are bounded by the width of the map. *)
Definition scanned_cells (width : Z) : list (Z * Z) :=
  y ← seqZ 0 width; x ← seqZ 0 width; [(x, y)].

(** The cell [(x, y)] stops the player standing at [playerPos]. *)
Definition blocks (pixels : list Color) (width : Z) (mapPosition : Vector3)
    (playerPos : Vector2) (cell : Z * Z) : bool :=
  match pixel_at pixels width (fst cell) (snd cell) with
  | Some c =>
      is_collider c
      && CheckCollisionCircleRec playerPos playerRadius
           (cellRectangle mapPosition (fst cell) (snd cell))
  | None => false
  end.

(** The state of the scan after the cells [cells] were tested: the position
    is the saved one as soon as one of them stopped the player. *)
Definition scan_state (pixels : list Color) (width : Z)
    (mapPosition oldCamPos : Vector3) (camera : Camera)
    (cells : list (Z * Z)) : Camera * list (Z * Z) :=
  (if existsb (blocks pixels width mapPosition
                 (horizontal (Camera_position camera))) cells
   then set_position camera oldCamPos else camera,
   cells).

(** ** Functional description of the camera movement *)



(** ** Geometry of the circle/rectangle test *)

(** The rectangle itself: from its corner [(x, y)] to [(x + width, y + height)]. *)
Definition in_rectangle (rec : Rectangle) (q : Vector2) : Prop :=
  (inject_Z (Rectangle_x rec) <= Vector2_x q
   <= inject_Z (Rectangle_x rec) + inject_Z (Rectangle_width rec))%Q
  /\ (inject_Z (Rectangle_y rec) <= Vector2_y q
      <= inject_Z (Rectangle_y rec) + inject_Z (Rectangle_height rec))%Q.

(** ** The cell of the player and the footprint of a cell *)

(** The square that the cube of the cell in column [x], row [y] covers on
    the plane of the map for a cube size of 1: between the corners [v1] and
    [v3] of the generator. *)
Definition in_footprint (x y : Z) (q : Vector2) : Prop :=
  (Vector3_x (v1 (corners 1 x y)) <= Vector2_x q <= Vector3_x (v3 (corners 1 x y)))%Q
  /\ (Vector3_z (v1 (corners 1 x y)) <= Vector2_y q <= Vector3_z (v3 (corners 1 x y)))%Q.

(** [(int)(playerPos.x - mapPosition.x + 0.5f)] and
    [(int)(playerPos.y - mapPosition.z + 0.5f)]: the cell that the main loop
    prints for the player. *)
Definition playerCell (playerPos : Vector2) (mapPosition : Vector3) : Z * Z :=
  (int_of_float
     (float_add (float_sub (Ffinite (Vector2_x playerPos))
                           (Ffinite (Vector3_x mapPosition)))
                (Ffinite (1 # 2))),
   int_of_float
     (float_add (float_sub (Ffinite (Vector2_y playerPos))
                           (Ffinite (Vector3_z mapPosition)))
                (Ffinite (1 # 2)))).

(** The "security check" of the main loop on one coordinate of the cell:
    [if (cell < 0) cell = 0; else if (cell >= size) cell = size - 1;] where
    [cell] is an [int] and [size] an [unsigned int]: the comparison and the
    subtraction are unsigned, the assignment converts back to [int]. *)
Definition security_check (cell size : Z) : Z :=
  if cell <? 0 then 0
  else if size <=? u32 cell then s32 (u32 (size - 1))
  else cell.

(** ** Sizes of the pixel formats *)

(** The formats that [GetImageData] converts. *)
Definition supported_format (fmt : Z) : bool :=
  (UNCOMPRESSED_GRAYSCALE <=? fmt) && (fmt <=? UNCOMPRESSED_R8G8B8A8).

(** What one pixel adds to the index [k] of [GetImageData]. *)
Definition index_step (fmt : Z) : Z :=
  if fmt =? UNCOMPRESSED_GRAY_ALPHA then 2
  else if fmt =? UNCOMPRESSED_R8G8B8 then 3
  else if fmt =? UNCOMPRESSED_R8G8B8A8 then 4
  else if (fmt =? UNCOMPRESSED_GRAYSCALE) || (fmt =? UNCOMPRESSED_R5G6B5)
          || (fmt =? UNCOMPRESSED_R5G5B5A1) || (fmt =? UNCOMPRESSED_R4G4B4A4)
  then 1
  else 0.

(** The size in bytes of the elements that [k] indexes: the data is read
    as [unsigned short] for the three formats of 16 bits per pixel, as
    [unsigned char] for the others. *)
Definition element_size (fmt : Z) : Z :=
  if (fmt =? UNCOMPRESSED_R5G6B5) || (fmt =? UNCOMPRESSED_R5G5B5A1)
     || (fmt =? UNCOMPRESSED_R4G4B4A4)
  then 2 else 1.

(** Bytes of data per pixel: 1, 2, 2, 3, 2, 2, 4 for the formats 1 to 7. *)
Definition bytes_per_pixel (fmt : Z) : Z := element_size fmt * index_step fmt.

(** The bytes that hold a colour in one of the four formats of 8 bits per
    channel.  The formats without colour channels hold the red channel,
    those without alpha drop it. *)
Definition color_bytes (fmt : Z) (c : Color) : list Z :=
  if fmt =? UNCOMPRESSED_GRAYSCALE then [Color_r c]
  else if fmt =? UNCOMPRESSED_GRAY_ALPHA then [Color_r c; Color_a c]
  else if fmt =? UNCOMPRESSED_R8G8B8 then [Color_r c; Color_g c; Color_b c]
  else [Color_r c; Color_g c; Color_b c; Color_a c].

(** A colour that the format can hold. *)
Definition representable (fmt : Z) (c : Color) : Prop :=
  (fmt = UNCOMPRESSED_GRAYSCALE \/ fmt = UNCOMPRESSED_GRAY_ALPHA ->
   Color_g c = Color_r c /\ Color_b c = Color_r c)
  /\ (fmt = UNCOMPRESSED_GRAYSCALE \/ fmt = UNCOMPRESSED_R8G8B8 ->
      Color_a c = 255).

(** Every pixel of the array that is written satisfies [P]. *)
Definition written_pixels (P : Color -> Prop) (pixels : array Color) : Prop :=
  forall (i : nat) (c : Color), pixels !! i = Some (Some c) -> P c.

(** The red channel of a colour decoded from 5 bits. *)
Definition five_bit_red (c : Color) : Prop :=
  0 <= Color_r c <= 248 /\ Color_r c mod 8 = 0.

(** ** Vectors of the mesh *)

(** Equality of vectors, component by component. *)
Definition Vector3_eq (a b : Vector3) : Prop :=
  (Vector3_x a == Vector3_x b)%Q /\ (Vector3_y a == Vector3_y b)%Q
  /\ (Vector3_z a == Vector3_z b)%Q.

Definition Vector3_sub (a b : Vector3) : Vector3 :=
  mkVector3 (Vector3_x a - Vector3_x b) (Vector3_y a - Vector3_y b)
            (Vector3_z a - Vector3_z b).

Definition Vector3_scale (k : Q) (a : Vector3) : Vector3 :=
  mkVector3 (k * Vector3_x a) (k * Vector3_y a) (k * Vector3_z a).

Definition Vector3_dot (a b : Vector3) : Q :=
  (Vector3_x a * Vector3_x b + Vector3_y a * Vector3_y b
   + Vector3_z a * Vector3_z b)%Q.

Definition Vector3_cross (a b : Vector3) : Vector3 :=
  mkVector3 (Vector3_y a * Vector3_z b - Vector3_z a * Vector3_y b)
            (Vector3_z a * Vector3_x b - Vector3_x a * Vector3_z b)
            (Vector3_x a * Vector3_y b - Vector3_y a * Vector3_x b).

(** The normal of the triangle [a], [b], [c] towards the side from which
    its vertices are seen counter-clockwise, its length being twice the
    area. *)
Definition winding (a b c : Vector3) : Vector3 :=
  Vector3_cross (Vector3_sub b a) (Vector3_sub c a).

(** The two triangles of the 6 vertices of a face. *)
Definition triangles (vs : list Vector3) : list (Vector3 * Vector3 * Vector3) :=
  match vs with
  | [a; b; c; d; e; f] => [(a, b, c); (d, e, f)]
  | _ => []
  end.

(** The sign of the stored normal of a face with respect to the winding of
    its triangles. *)
Definition normal_sign (f : Face) : Q :=
  match f with
  | Front | Back => - (1)
  | Top | Bottom | Right | Left | Ceiling | Floor => 1
  end.

(** ** Keyboard and mouse state *)

(** The four static arrays of [char] that register the state of the keys
    and of the mouse buttons, and the close flag of the window, which the
    key callback sets through [glfwSetWindowShouldClose]. *)
Record InputState : Type :=
  mkInputState { previousKeyState : list Z;
                 currentKeyState : list Z;
                 previousMouseState : list Z;
                 currentMouseState : list Z;
                 windowShouldClose : bool }.

(** The arrays as declared: 512 keys, 3 buttons, all 0. *)
Definition initial_input : InputState :=
  mkInputState (replicate 512 0) (replicate 512 0)
               (replicate 3 0) (replicate 3 0) false.

(** The arrays have their declared sizes. *)
Definition input_arrays (s : InputState) : Prop :=
  length (previousKeyState s) = 512%nat /\ length (currentKeyState s) = 512%nat
  /\ length (previousMouseState s) = 3%nat /\ length (currentMouseState s) = 3%nat.

(** [a[i]] and [a[i] = v] on an array of [char]: outside the array there is
    no defined result. *)
Definition char_get (a : list Z) (i : Z) : option Z :=
  if 0 <=? i then a !! Z.to_nat i else None.

Definition char_set (a : list Z) (i v : Z) : option (list Z) :=
  if (0 <=? i) && (i <? Z.of_nat (length a))
  then Some (<[Z.to_nat i := v]> a)
  else None.

(** [(char)v]: what the assignment of the [int] [v] to a [char] stores.
    A value from 0 to 127 is stored as it is.  For the other values C
    leaves the result to the implementation (whether [char] is signed, and
    what a value outside its range converts to); the model takes the
    [char] of the desktop compilers: signed, of 8 bits, the conversion
    keeping the low 8 bits.  With an unsigned [char] the stored values
    differ by 256 where they are negative here; the comparisons of
    [IsKeyPressed] and [IsMouseButtonPressed], with 1 and between two
    stored values, give the same answers. *)
Definition char_of_int (v : Z) : Z := (v + 128) mod 256 - 128.

(** What the window library reports to the three callbacks. *)
Inductive InputEvent : Type :=
  | KeyEvent (key action : Z)
  | MouseButtonEvent (button action : Z)
  | CursorPosEvent (x y : Q).

(** [previous[i] = current[i]] *)
Definition copy_char (current previous : list Z) (i : Z) : option (list Z) :=
  v ← char_get current i; char_set previous i v.

(** [for (int i = 0; i < n; i++) previous[i] = current[i];] *)
Definition copy_chars (n : Z) (current previous : list Z) : option (list Z) :=
  for_range 0 n (copy_char current) previous.

Section InputCallbacks.

(** GLFW_KEY_ESCAPE and GLFW_PRESS are constants of glfw3.h, which is
    outside the repository. *)
Variables GLFW_KEY_ESCAPE GLFW_PRESS : Z.

Definition KeyCallback (key action : Z) (s : InputState) : option InputState :=
  if (key =? GLFW_KEY_ESCAPE) && (action =? GLFW_PRESS)
  then Some (mkInputState (previousKeyState s) (currentKeyState s)
               (previousMouseState s) (currentMouseState s) true)
  else
    keys ← char_set (currentKeyState s) key (char_of_int action);
    Some (mkInputState (previousKeyState s) keys
            (previousMouseState s) (currentMouseState s) (windowShouldClose s)).

Definition MouseButtonCallback (button action : Z) (s : InputState)
  : option InputState :=
  buttons ← char_set (currentMouseState s) button (char_of_int action);
  Some (mkInputState (previousKeyState s) (currentKeyState s)
          (previousMouseState s) buttons (windowShouldClose s)).

(** The body of [MouseCursorPosCallback] is commented out. *)
Definition MouseCursorPosCallback (x y : Q) (s : InputState) : option InputState :=
  Some s.

(** [glfwPollEvents]: the library calls the callbacks for the events that
    arrived, in order. *)
Fixpoint glfwPollEvents (events : list InputEvent) (s : InputState)
  : option InputState :=
  match events with
  | [] => Some s
  | KeyEvent key action :: events' =>
      s' ← KeyCallback key action s; glfwPollEvents events' s'
  | MouseButtonEvent button action :: events' =>
      s' ← MouseButtonCallback button action s; glfwPollEvents events' s'
  | CursorPosEvent x y :: events' =>
      s' ← MouseCursorPosCallback x y s; glfwPollEvents events' s'
  end.

(** [events] are the events that arrive during the call. *)
Definition PollInputEvents (events : list InputEvent) (s : InputState)
  : option InputState :=
  keys ← copy_chars 512 (currentKeyState s) (previousKeyState s);
  buttons ← copy_chars 3 (currentMouseState s) (previousMouseState s);
  glfwPollEvents events
    (mkInputState keys (currentKeyState s) buttons (currentMouseState s)
       (windowShouldClose s)).

(** The turns of the main loop, as far as the input state goes: each ends
    with a call of [PollInputEvents]. *)
Fixpoint poll_frames (frames : list (list InputEvent)) (s : InputState)
  : option InputState :=
  match frames with
  | [] => Some s
  | events :: frames' => s' ← PollInputEvents events s; poll_frames frames' s'
  end.

End InputCallbacks.

Definition IsKeyPressed (key : Z) (s : InputState) : option bool :=
  c ← char_get (currentKeyState s) key;
  p ← char_get (previousKeyState s) key;
  Some (negb (c =? p) && (c =? 1)).

Definition IsMouseButtonPressed (button : Z) (s : InputState) : option bool :=
  c ← char_get (currentMouseState s) button;
  p ← char_get (previousMouseState s) button;
  Some (negb (c =? p) && (c =? 1)).

(** The escape key is not registered as pressed. *)
Definition escape_up (GLFW_KEY_ESCAPE : Z) (s : InputState) : Prop :=
  input_arrays s /\ char_get (currentKeyState s) GLFW_KEY_ESCAPE <> Some 1.

(** The action of the event fits a [char] as it is; the window library
    reports the actions 0, 1 and 2 (release, press, repeat). *)
Definition small_action (e : InputEvent) : Prop :=
  match e with
  | KeyEvent _ action | MouseButtonEvent _ action => 0 <= action <= 127
  | CursorPosEvent _ _ => True
  end.

(** The event is a press of the escape key. *)
Definition is_escape_press (GLFW_KEY_ESCAPE GLFW_PRESS : Z) (e : InputEvent)
  : bool :=
  match e with
  | KeyEvent key action => (key =? GLFW_KEY_ESCAPE) && (action =? GLFW_PRESS)
  | MouseButtonEvent _ _ | CursorPosEvent _ _ => false
  end.

(** ** Frame timing *)

(** The four static variables of the timing; [double] values are exact
    rationals. *)
Record Timing : Type :=
  mkTiming { currentTime : Q; previousTime : Q; frameTime : Q; targetTime : Q }.

Definition SetTargetFPS (fps : Z) (t : Timing) : Timing :=
  mkTiming (currentTime t) (previousTime t) (frameTime t)
           (if fps <? 1 then 0 else 1 / inject_Z fps)%Q.

(** [glfwGetTime] is outside the repository: [clock i] is the value that
    its call number [i] returns, and the functions that read the clock
    take and return the number of calls made so far. *)

(** The busy wait loop
    [while ((nextTime - prevTime) < (targetTime - frameTime)) nextTime = glfwGetTime();]
    run for at most [fuel] turns; [wait] is [targetTime - frameTime]. *)
Fixpoint busy_wait (clock : nat -> Q) (fuel : nat) (prevTime wait nextTime : Q)
    (calls : nat) : option (Q * nat) :=
  if Qltb (nextTime - prevTime) wait then
    match fuel with
    | O => None
    | S fuel' => busy_wait clock fuel' prevTime wait (clock calls) (S calls)
    end
  else Some (nextTime, calls).

Definition SyncFrame (clock : nat -> Q) (fuel : nat) (calls : nat) (t : Timing)
  : option (Timing * nat) :=
  let currentTime := clock calls in
  let frameTime := (currentTime - previousTime t)%Q in
  let previousTime := currentTime in
  if Qltb frameTime (targetTime t) then
    let prevTime := clock (S calls) in
    '(nextTime, calls') ← busy_wait clock fuel prevTime (targetTime t - frameTime)
                            0 (S (S calls));
    let currentTime := clock calls' in
    let extraTime := (currentTime - previousTime)%Q in
    let previousTime := currentTime in
    Some (mkTiming currentTime previousTime (frameTime + extraTime) (targetTime t),
          S calls')
  else Some (mkTiming currentTime previousTime frameTime (targetTime t), S calls).

(** ** Loading an image *)

(** The character ['.'] (code 46). *)
Definition dot : Ascii.ascii :=
  Ascii.Ascii false true true true false true false false.

(** [strrchr(s, c)] for a character [c] other than the terminator: the
    part of [s] from the last [c] on. *)
Fixpoint strrchr (s : string) (c : Ascii.ascii) : option string :=
  match s with
  | EmptyString => None
  | String a s' =>
      match strrchr s' c with
      | Some t => Some t
      | None => if Ascii.eqb a c then Some s else None
      end
  end.

(** The extensions that [LoadImage] compares with. *)
Definition supported_extensions : list string :=
  [".bmp"; ".png"; ".tga"; ".jpg"; ".gif"; ".psd"]%string.

Definition is_supported_extension (fileExt : string) : bool :=
  existsb (String.eqb fileExt) supported_extensions.

(** [Image image = { 0 }] *)
Definition no_image : Image := mkImage 0 0 0 [].

Section Files.

(** [fopen] and [stbi_load_from_file] are outside the repository.
    [read_file name] is [None] when the file cannot be opened; otherwise
    it is the data that the decoder returns (none for its null pointer)
    with the values that it leaves in [imgWidth] and [imgHeight]. *)
Variable read_file : string -> option (list Z * Z * Z).

Definition LoadImage (fileName : string) : Image :=
  match strrchr fileName dot with
  | Some fileExt =>
      if is_supported_extension fileExt then
        match read_file fileName with
        | Some (data, imgWidth, imgHeight) =>
            mkImage (u32 imgWidth) (u32 imgHeight) UNCOMPRESSED_R8G8B8A8 data
        | None => no_image
        end
      else no_image
  | None => no_image
  end.

End Files.

(** ** Example inputs *)

Definition white_px : list Z := [255; 255; 255; 255].

Definition black_px : list Z := [0; 0; 0; 255].

Definition red_px : list Z := [255; 0; 0; 255].

Definition white : Color := mkColor 255 255 255 255.

Definition black : Color := mkColor 0 0 0 255.

Definition red : Color := mkColor 255 0 0 255.

(** Two columns, three rows; the last row is a wall. *)
Definition map_tall : Image :=
  mkImage 2 3 UNCOMPRESSED_R8G8B8A8
    (black_px ++ black_px ++ black_px ++ black_px ++ white_px ++ white_px).

Definition pixels_tall : list Color := [black; black; black; black; white; white].

(** Two columns, one row. *)
Definition map_wide : Image :=
  mkImage 2 1 UNCOMPRESSED_R8G8B8A8 (black_px ++ black_px).

Definition pixels_wide : list Color := [black; black].

(** A single red cell. *)
Definition map_red : Image := mkImage 1 1 UNCOMPRESSED_R8G8B8A8 red_px.

Definition pixels_red : list Color := [red].

(** Walls around an open centre. *)
Definition map_ring : Image :=
  mkImage 3 3 UNCOMPRESSED_R8G8B8A8
    (white_px ++ white_px ++ white_px
     ++ white_px ++ black_px ++ white_px
     ++ white_px ++ white_px ++ white_px).

Definition pixels_ring : list Color :=
  [white; white; white; white; black; white; white; white; white].

(** Inputs used as examples: only the key of [MOVE_UP] is held. *)
Definition only_up : Input :=
  mkInput (mkVector2 0 0)
          (fun m => match m with MOVE_UP => true | _ => false end).

Definition statics0 : CameraStatics :=
  mkCameraStatics (mkVector2 0 0) 0 (mkVector2 0 0).

Definition camera_at (p : Vector3) : Camera :=
  mkCamera p Vector3Zero (mkVector3 0 1 0) 60.

(** * Properties *)

(** ** Machine integers *)

Lemma int_mul_small (a b : Z) :
  0 <= a * b <= INT_MAX -> int_mul a b = Some (a * b).
Proof.
  intros Hab. unfold int_mul.
  replace ((- 2 ^ 31 <=? a * b) && (a * b <=? INT_MAX)) with true; [reflexivity |].
  symmetry. rewrite andb_true_iff, !Z.leb_le. lia.
Qed.

Lemma u32_small (n : Z) : 0 <= n < 2 ^ 32 -> u32 n = n.
Proof. intros Hn. unfold u32. apply Z.mod_small, Hn. Qed.

Lemma s32_small (n : Z) : - 2 ^ 31 <= n < 2 ^ 31 -> s32 n = n.
Proof. intros Hn. unfold s32. rewrite Z.mod_small; lia. Qed.

(** ** Float comparisons and conversions *)

Lemma Qgtb_true (a b : Q) : Qgtb a b = true <-> (b < a)%Q.
Proof.
  unfold Qgtb. rewrite negb_true_iff, <- not_true_iff_false, Qle_bool_iff.
  split; [apply Qnot_le_lt | apply Qlt_not_le].
Qed.

Lemma Qgtb_false (a b : Q) : Qgtb a b = false <-> (a <= b)%Q.
Proof.
  unfold Qgtb. rewrite negb_false_iff. apply Qle_bool_iff.
Qed.

Lemma Qle_bool_false (a b : Q) : Qle_bool a b = false <-> (b < a)%Q.
Proof.
  rewrite <- not_true_iff_false, Qle_bool_iff.
  split; [apply Qnot_le_lt | apply Qlt_not_le].
Qed.

Lemma Qabs_sub_same (a b : Q) : (a == b)%Q -> (Qabs (a - b) == 0)%Q.
Proof.
  intros Hab. rewrite Hab. unfold Qminus. rewrite Qplus_opp_r. reflexivity.
Qed.

(** ** Floating-point arithmetic: rounding *)

Lemma Qltb_true (a b : Q) : Qltb a b = true <-> (a < b)%Q.
Proof.
  unfold Qltb. rewrite negb_true_iff, <- not_true_iff_false, Qle_bool_iff.
  split; [apply Qnot_le_lt | apply Qlt_not_le].
Qed.

Lemma Qltb_false (a b : Q) : Qltb a b = false <-> (b <= a)%Q.
Proof. unfold Qltb. rewrite negb_false_iff. apply Qle_bool_iff. Qed.

Section FloatRounding.

Local Open Scope Q_scope.

(** *** Powers of 2 and the binary logarithm *)

Lemma pow2_pos (e : Z) : 0 < 2 ^ e.
Proof. apply Qpower_0_lt. reflexivity. Qed.

Lemma pow2_plus (a b : Z) : 2 ^ (a + b) == 2 ^ a * 2 ^ b.
Proof. apply Qpower_plus. discriminate. Qed.

Lemma pow2_le (a b : Z) : (a <= b)%Z -> 2 ^ a <= 2 ^ b.
Proof. intros H. apply Qpower_le_compat_l; [exact H | discriminate]. Qed.

Lemma pow2_lt (a b : Z) : (a < b)%Z -> 2 ^ a < 2 ^ b.
Proof. intros H. apply Qpower_lt_compat_l; [exact H | reflexivity]. Qed.

Lemma pow2_lt_inv (a b : Z) : 2 ^ a < 2 ^ b -> (a < b)%Z.
Proof.
  intros H. destruct (Z_lt_le_dec a b) as [Hlt | Hge]; [exact Hlt |].
  apply pow2_le in Hge. lra.
Qed.

Lemma pow2_inject (k : Z) : (0 <= k)%Z -> 2 ^ k == inject_Z (2 ^ k).
Proof. intros H. symmetry. apply (Zpower_Qpower 2 k H). Qed.

Lemma pow2_succ (a : Z) : 2 ^ (a + 1) == 2 * 2 ^ a.
Proof. rewrite pow2_plus. change (2 ^ 1) with 2. ring. Qed.

Lemma Qlog2_spec (q : Q) : 0 < q -> 2 ^ Qlog2 q <= q /\ q < 2 ^ (Qlog2 q + 1).
Proof.
  intros Hq. unfold Qlog2. destruct q as [n d]. cbn [Qnum Qden].
  assert (Hn : (0 < n)%Z) by (unfold Qlt in Hq; cbn in Hq; lia).
  set (a := Z.log2 n). set (b := Z.log2 (Z.pos d)).
  pose proof (Z.log2_spec n Hn) as [Ha1 Ha2].
  pose proof (Z.log2_spec (Z.pos d) ltac:(lia)) as [Hb1 Hb2].
  fold a in Ha1, Ha2. fold b in Hb1, Hb2.
  pose proof (Z.log2_nonneg n) as Ha0. pose proof (Z.log2_nonneg (Z.pos d)) as Hb0.
  fold a in Ha0. fold b in Hb0.
  assert (HA1 : 2 ^ a <= inject_Z n)
    by (rewrite pow2_inject by lia; rewrite <- Zle_Qle; exact Ha1).
  assert (HA2 : inject_Z n < 2 ^ (a + 1))
    by (rewrite pow2_inject by lia; rewrite <- Zlt_Qlt; exact Ha2).
  assert (HB1 : 2 ^ b <= inject_Z (Z.pos d))
    by (rewrite pow2_inject by lia; rewrite <- Zle_Qle; exact Hb1).
  assert (HB2 : inject_Z (Z.pos d) < 2 ^ (b + 1))
    by (rewrite pow2_inject by lia; rewrite <- Zlt_Qlt; exact Hb2).
  assert (Hd : 0 < inject_Z (Z.pos d)) by reflexivity.
  assert (Hq' : n # d == inject_Z n / inject_Z (Z.pos d)) by apply Qmake_Qdiv.
  assert (Hup : n # d < 2 ^ (a - b + 1)).
  { rewrite Hq'. apply Qlt_shift_div_r; [exact Hd |].
    pose proof (pow2_pos (a - b + 1)) as Hp.
    assert (E : 2 ^ (a + 1) == 2 ^ (a - b + 1) * 2 ^ b)
      by (rewrite <- pow2_plus; replace (a - b + 1 + b)%Z with (a + 1)%Z by lia;
          reflexivity).
    nra. }
  assert (Hlo : 2 ^ (a - b - 1) <= n # d).
  { rewrite Hq'. apply Qle_shift_div_l; [exact Hd |].
    pose proof (pow2_pos (a - b - 1)) as Hp.
    assert (E : 2 ^ a == 2 ^ (a - b - 1) * 2 ^ (b + 1))
      by (rewrite <- pow2_plus; replace (a - b - 1 + (b + 1))%Z with a by lia;
          reflexivity).
    nra. }
  destruct (Qle_bool (2 ^ (a - b)) (n # d)) eqn:Hk.
  - apply Qle_bool_iff in Hk. split; assumption.
  - split; [exact Hlo |].
    replace (a - b - 1 + 1)%Z with (a - b)%Z by lia.
    apply Qnot_le_lt. intros Hle. apply Qle_bool_iff in Hle. congruence.
Qed.

Lemma Qlog2_unique (q : Q) (k : Z) :
  2 ^ k <= q -> q < 2 ^ (k + 1) -> Qlog2 q = k.
Proof.
  intros Hlo Hhi.
  assert (Hq : 0 < q) by (pose proof (pow2_pos k); lra).
  destruct (Qlog2_spec q Hq) as [Hlo' Hhi'].
  assert (H1 : (k < Qlog2 q + 1)%Z) by (apply pow2_lt_inv; lra).
  assert (H2 : (Qlog2 q < k + 1)%Z) by (apply pow2_lt_inv; lra).
  lia.
Qed.

Lemma Qlog2_le (a b : Q) : 0 < a -> a <= b -> (Qlog2 a <= Qlog2 b)%Z.
Proof.
  intros Ha Hab.
  destruct (Qlog2_spec a Ha) as [Hlo _].
  destruct (Qlog2_spec b ltac:(lra)) as [_ Hhi].
  assert (H : (Qlog2 a < Qlog2 b + 1)%Z) by (apply pow2_lt_inv; lra).
  lia.
Qed.

(** *** The nearest integer *)

Lemma Qfloor_bounds (q : Q) : inject_Z (Qfloor q) <= q /\ q < inject_Z (Qfloor q) + 1.
Proof.
  split; [apply Qfloor_le |].
  pose proof (Qlt_floor q) as H. rewrite inject_Z_plus in H. exact H.
Qed.

Lemma Qfloor_unique (q : Q) (z : Z) :
  inject_Z z <= q -> q < inject_Z z + 1 -> Qfloor q = z.
Proof.
  intros Hlo Hhi. destruct (Qfloor_bounds q) as [Hlo' Hhi'].
  assert (H1 : (z < Qfloor q + 1)%Z)
    by (rewrite Zlt_Qlt, inject_Z_plus; change (inject_Z 1) with 1; lra).
  assert (H2 : (Qfloor q < z + 1)%Z)
    by (rewrite Zlt_Qlt, inject_Z_plus; change (inject_Z 1) with 1; lra).
  lia.
Qed.

(** The two candidates of [Qround_even]. *)
Lemma Qround_even_cases (q : Q) :
  let t := Qfloor (q + (1 # 2)) in
  (Qround_even q = t /\ ~ (inject_Z t == q + (1 # 2) /\ Z.odd t = true))
  \/ (Qround_even q = (t - 1)%Z /\ inject_Z t == q + (1 # 2) /\ Z.odd t = true).
Proof.
  cbv zeta. unfold Qround_even.
  destruct (Qeq_bool _ _) eqn:Heq; cbn [andb].
  - apply Qeq_bool_iff in Heq. destruct (Z.odd _) eqn:Hodd.
    + right. repeat split; assumption.
    + left. split; [reflexivity |]. intros [_ H]. discriminate H.
  - left. split; [reflexivity |]. intros [H _].
    apply Qeq_bool_iff in H. congruence.
Qed.

Lemma Qround_even_error (q : Q) :
  q - (1 # 2) <= inject_Z (Qround_even q) <= q + (1 # 2).
Proof.
  destruct (Qfloor_bounds (q + (1 # 2))) as [Hlo Hhi].
  destruct (Qround_even_cases q) as [[-> _] | (-> & Htie & _)].
  - lra.
  - replace (Qfloor (q + (1 # 2)) - 1)%Z with (Qfloor (q + (1 # 2)) + - 1)%Z by lia.
    rewrite inject_Z_plus. change (inject_Z (- 1)) with (- (1)). lra.
Qed.

Lemma Qround_even_le (a b : Q) : a <= b -> (Qround_even a <= Qround_even b)%Z.
Proof.
  intros Hab.
  pose proof (Qfloor_resp_le (a + (1 # 2)) (b + (1 # 2)) ltac:(lra)) as Hfl.
  destruct (Qfloor_bounds (a + (1 # 2))) as [Hlo Hhi].
  destruct (Qround_even_cases a) as [[-> Ha] | (-> & Ha & Hoa)];
    destruct (Qround_even_cases b) as [[-> Hb] | (-> & Hb & Hob)]; try lia.
  destruct (Z.eq_dec (Qfloor (a + (1 # 2))) (Qfloor (b + (1 # 2)))) as [E | E];
    [| lia].
  exfalso. apply Ha. rewrite E. split; [| exact Hob].
  rewrite E in Hlo. lra.
Qed.

Lemma Qround_even_Z (z : Z) : Qround_even (inject_Z z) = z.
Proof.
  assert (Hfl : Qfloor (inject_Z z + (1 # 2)) = z) by (apply Qfloor_unique; lra).
  destruct (Qround_even_cases (inject_Z z)) as [[-> _] | (_ & Htie & _)].
  - exact Hfl.
  - rewrite Hfl in Htie. lra.
Qed.

Lemma Qround_even_comp (a b : Q) : a == b -> Qround_even a = Qround_even b.
Proof.
  intros Hab. apply Z.le_antisymm; apply Qround_even_le; lra.
Qed.

(** *** Rounding to the multiples of a power of 2 *)

Lemma Qround_at_le (e : Z) (a b : Q) : a <= b -> Qround_at e a <= Qround_at e b.
Proof.
  intros Hab. unfold Qround_at. pose proof (pow2_pos e) as Hp.
  apply Qmult_le_compat_r; [| lra].
  rewrite <- Zle_Qle. apply Qround_even_le.
  apply Qmult_le_compat_r; [exact Hab |].
  apply Qlt_le_weak, Qinv_lt_0_compat, Hp.
Qed.

Lemma Qround_at_comp (e : Z) (a b : Q) : a == b -> Qround_at e a == Qround_at e b.
Proof.
  intros Hab. apply Qle_antisym; apply Qround_at_le; lra.
Qed.

Lemma Qround_at_multiple (e m : Z) :
  Qround_at e (inject_Z m * 2 ^ e) == inject_Z m * 2 ^ e.
Proof.
  unfold Qround_at. pose proof (pow2_pos e) as Hp.
  rewrite (Qround_even_comp _ (inject_Z m)); [rewrite Qround_even_Z; reflexivity |].
  field. lra.
Qed.

Lemma Qround_at_error (e : Z) (q : Q) :
  q - (1 # 2) * 2 ^ e <= Qround_at e q <= q + (1 # 2) * 2 ^ e.
Proof.
  unfold Qround_at. pose proof (pow2_pos e) as Hp.
  pose proof (Qround_even_error (q / 2 ^ e)) as [Hlo Hhi].
  assert (E : q / 2 ^ e * 2 ^ e == q) by (field; lra).
  set (x := q / 2 ^ e) in *. set (p := 2 ^ e) in *.
  set (r := inject_Z (Qround_even x)) in *.
  split; nra.
Qed.

(** *** Rounding of a magnitude *)

Lemma Qround_magnitude_eq (q : Q) :
  Qround_magnitude q == Qround_at (float_exponent q) q.
Proof. apply Qred_correct. Qed.

Lemma Qround_at_0 (e : Z) (q : Q) : q == 0 -> Qround_at e q == 0.
Proof.
  intros Hq. unfold Qround_at.
  rewrite (Qround_even_comp _ (inject_Z 0)); [rewrite Qround_even_Z; ring |].
  rewrite Hq. unfold Qdiv. ring.
Qed.

Lemma Qround_at_nonneg (e : Z) (q : Q) : 0 <= q -> 0 <= Qround_at e q.
Proof.
  intros Hq. rewrite <- (Qround_at_0 e 0) by reflexivity.
  apply Qround_at_le, Hq.
Qed.

Lemma float_exponent_le (a b : Q) :
  0 < a -> a <= b -> (float_exponent a <= float_exponent b)%Z.
Proof.
  intros Ha Hab. unfold float_exponent.
  pose proof (Qlog2_le a b Ha Hab). lia.
Qed.

Lemma Qround_magnitude_le (a b : Q) :
  0 <= a -> a <= b -> Qround_magnitude a <= Qround_magnitude b.
Proof.
  intros Ha Hab. rewrite !Qround_magnitude_eq.
  destruct (Qeq_dec a 0) as [Ha0 | Ha0].
  { rewrite (Qround_at_0 _ a Ha0). apply Qround_at_nonneg. lra. }
  assert (Hapos : 0 < a) by (destruct (Qlt_le_dec 0 a); [assumption | exfalso; apply Ha0; lra]).
  pose proof (float_exponent_le a b Hapos Hab) as He.
  destruct (Z.eq_dec (float_exponent a) (float_exponent b)) as [E | E].
  { rewrite E. apply Qround_at_le, Hab. }
  assert (Hlt : (float_exponent a < float_exponent b)%Z) by lia.
  clear He E.
  set (ea := float_exponent a) in *. set (eb := float_exponent b) in *.
  set (P := 2 ^ (eb + 23)).
  destruct (Qlog2_spec a Hapos) as [_ HaP].
  destruct (Qlog2_spec b ltac:(lra)) as [HbP _].
  assert (HaP' : a <= P).
  { apply Qlt_le_weak. eapply Qlt_le_trans; [exact HaP |].
    apply pow2_le. unfold ea, eb, float_exponent, FLT_MANT_DIG, FLT_MIN_EXP in *. lia. }
  assert (HbP' : P <= b).
  { eapply Qle_trans; [| exact HbP].
    apply pow2_le. unfold ea, eb, float_exponent, FLT_MANT_DIG, FLT_MIN_EXP in *. lia. }
  assert (HPa : P == inject_Z (2 ^ (eb + 23 - ea)) * 2 ^ ea).
  { unfold P. rewrite <- pow2_inject by lia. rewrite <- pow2_plus.
    replace (eb + 23 - ea + ea)%Z with (eb + 23)%Z by lia. reflexivity. }
  assert (HPb : P == inject_Z (2 ^ 23) * 2 ^ eb).
  { unfold P. rewrite <- pow2_inject by lia. rewrite <- pow2_plus.
    replace (23 + eb)%Z with (eb + 23)%Z by lia. reflexivity. }
  apply Qle_trans with P.
  - apply Qle_trans with (Qround_at ea P); [apply Qround_at_le, HaP' |].
    rewrite (Qround_at_comp ea P _ HPa), Qround_at_multiple, <- HPa.
    apply Qle_refl.
  - apply Qle_trans with (Qround_at eb P); [| apply Qround_at_le, HbP'].
    rewrite (Qround_at_comp eb P _ HPb), Qround_at_multiple, <- HPb.
    apply Qle_refl.
Qed.

(** *** Rounding to a float *)

Lemma Qround_magnitude_0 (q : Q) : q == 0 -> Qround_magnitude q == 0.
Proof. intros Hq. rewrite Qround_magnitude_eq. apply Qround_at_0, Hq. Qed.

Lemma Qround_magnitude_nonneg (q : Q) : 0 <= q -> 0 <= Qround_magnitude q.
Proof. intros Hq. rewrite Qround_magnitude_eq. apply Qround_at_nonneg, Hq. Qed.

(** Rounding is monotone. *)
Lemma Qround_float_le (a b : Q) : a <= b -> Qround_float a <= Qround_float b.
Proof.
  intros Hab. unfold Qround_float.
  destruct (Qltb a 0) eqn:Ha, (Qltb b 0) eqn:Hb.
  - apply Qltb_true in Ha, Hb.
    pose proof (Qround_magnitude_le (- b) (- a) ltac:(lra) ltac:(lra)). lra.
  - apply Qltb_true in Ha. apply Qltb_false in Hb.
    pose proof (Qround_magnitude_nonneg (- a) ltac:(lra)).
    pose proof (Qround_magnitude_nonneg b Hb). lra.
  - apply Qltb_false in Ha. apply Qltb_true in Hb. lra.
  - apply Qltb_false in Ha, Hb. apply Qround_magnitude_le; assumption.
Qed.

Lemma Qround_float_comp (a b : Q) : a == b -> Qround_float a == Qround_float b.
Proof. intros Hab. apply Qle_antisym; apply Qround_float_le; lra. Qed.

#[global] Instance Qround_float_proper : Proper (Qeq ==> Qeq) Qround_float.
Proof. intros a b Hab. apply Qround_float_comp, Hab. Qed.

Lemma Qround_float_0 : Qround_float 0 == 0.
Proof. reflexivity. Qed.

Lemma Qround_float_nonneg (q : Q) : 0 <= q -> 0 <= Qround_float q.
Proof. intros Hq. rewrite <- Qround_float_0. apply Qround_float_le, Hq. Qed.

Lemma Qround_float_opp (q : Q) : Qround_float (- q) == - Qround_float q.
Proof.
  destruct (Q_dec q 0) as [[Hneg | Hpos] | Hzero].
  - unfold Qround_float.
    replace (Qltb q 0) with true by (symmetry; apply Qltb_true; exact Hneg).
    replace (Qltb (- q) 0) with false by (symmetry; apply Qltb_false; lra).
    ring.
  - unfold Qround_float.
    replace (Qltb q 0) with false by (symmetry; apply Qltb_false; lra).
    replace (Qltb (- q) 0) with true by (symmetry; apply Qltb_true; lra).
    assert (Hr : Qround_magnitude (- - q) == Qround_magnitude q)
      by (apply Qle_antisym; apply Qround_magnitude_le; lra).
    rewrite Hr. reflexivity.
  - rewrite (Qround_float_comp (- q) 0), (Qround_float_comp q 0), Qround_float_0
      by lra.
    reflexivity.
Qed.

Lemma Qround_float_abs (q : Q) : Qabs (Qround_float q) == Qround_float (Qabs q).
Proof.
  destruct (Qlt_le_dec q 0) as [Hneg | Hpos].
  - rewrite (Qabs_neg q) by lra.
    rewrite Qround_float_opp.
    apply Qabs_neg.
    rewrite <- Qround_float_0. apply Qround_float_le. lra.
  - rewrite (Qabs_pos q) by exact Hpos.
    apply Qabs_pos, Qround_float_nonneg, Hpos.
Qed.

(** A number of 24 binary digits at an exponent that the format has is
    not changed. *)
Lemma Qround_float_exact (m e : Z) :
  (Z.abs m < 2 ^ 24)%Z -> (- 149 <= e)%Z ->
  Qround_float (inject_Z m * 2 ^ e) == inject_Z m * 2 ^ e.
Proof.
  assert (Hpos : forall m, (0 < m < 2 ^ 24)%Z -> (- 149 <= e)%Z ->
                   Qround_magnitude (inject_Z m * 2 ^ e) == inject_Z m * 2 ^ e).
  { clear m. intros m Hm He. rewrite Qround_magnitude_eq.
    pose proof (pow2_pos e) as Hp.
    pose proof (Z.log2_spec m ltac:(lia)) as [Hl1 Hl2].
    pose proof (Z.log2_nonneg m) as Hl0.
    assert (Hl : (Z.log2 m < 24)%Z) by (apply Z.log2_lt_pow2; lia).
    assert (Hlog : Qlog2 (inject_Z m * 2 ^ e) = (Z.log2 m + e)%Z).
    { apply Qlog2_unique.
      - rewrite pow2_plus, (pow2_inject (Z.log2 m)) by lia.
        apply Qmult_le_compat_r; [| lra]. rewrite <- Zle_Qle. exact Hl1.
      - replace (Z.log2 m + e + 1)%Z with (Z.succ (Z.log2 m) + e)%Z by lia.
        rewrite pow2_plus, (pow2_inject (Z.succ (Z.log2 m))) by lia.
        apply Qmult_lt_compat_r; [exact Hp |]. rewrite <- Zlt_Qlt. exact Hl2. }
    set (E := float_exponent (inject_Z m * 2 ^ e)).
    assert (HE : (E <= e)%Z)
      by (unfold E, float_exponent, FLT_MANT_DIG, FLT_MIN_EXP; rewrite Hlog; lia).
    assert (Hq : inject_Z m * 2 ^ e == inject_Z (m * 2 ^ (e - E)) * 2 ^ E).
    { rewrite inject_Z_mult, <- (pow2_inject (e - E)) by lia.
      rewrite <- Qmult_assoc, <- pow2_plus.
      replace (e - E + E)%Z with e by lia. reflexivity. }
    rewrite (Qround_at_comp E _ _ Hq), Qround_at_multiple, <- Hq. reflexivity. }
  intros Hm He.
  destruct (Z.lt_trichotomy m 0) as [Hneg | [-> | Hgt]].
  - assert (Hq : inject_Z m * 2 ^ e == - (inject_Z (- m) * 2 ^ e))
      by (rewrite inject_Z_opp; ring).
    rewrite Hq, Qround_float_opp.
    pose proof (pow2_pos e) as Hp.
    assert (0 < inject_Z (- m)) by (rewrite <- (Zlt_Qlt 0); lia).
    assert (Hr : Qround_float (inject_Z (- m) * 2 ^ e) == inject_Z (- m) * 2 ^ e).
    { unfold Qround_float.
      replace (Qltb _ 0) with false by (symmetry; apply Qltb_false; nra).
      apply Hpos; lia. }
    rewrite Hr. reflexivity.
  - rewrite (Qround_float_comp _ 0) by ring. rewrite Qround_float_0. ring.
  - pose proof (pow2_pos e) as Hp.
    assert (0 < inject_Z m) by (rewrite <- (Zlt_Qlt 0); lia).
    unfold Qround_float.
    replace (Qltb _ 0) with false by (symmetry; apply Qltb_false; nra).
    apply Hpos; lia.
Qed.

(** The integers up to [2 ^ 24], and their halves and quarters. *)
Lemma Qround_float_int (n : Z) :
  (Z.abs n <= 2 ^ 24)%Z -> Qround_float (inject_Z n) == inject_Z n.
Proof.
  intros Hn.
  destruct (Z.eq_dec (Z.abs n) (2 ^ 24)%Z) as [E | E].
  - assert (Hcases : n = (2 ^ 24)%Z \/ n = (- 2 ^ 24)%Z) by lia.
    destruct Hcases as [-> | ->]; reflexivity.
  - assert (Hq : inject_Z n == inject_Z n * 2 ^ 0) by (change (2 ^ 0) with 1; ring).
    rewrite Hq at 1. rewrite Qround_float_exact; [symmetry; exact Hq | lia | lia].
Qed.

Lemma Qround_float_scaled (n k : Z) :
  (Z.abs n < 2 ^ 24)%Z -> (0 <= k <= 149)%Z ->
  Qround_float (inject_Z n / inject_Z (2 ^ k)) == inject_Z n / inject_Z (2 ^ k).
Proof.
  intros Hn Hk.
  assert (Hq : inject_Z n / inject_Z (2 ^ k) == inject_Z n * 2 ^ (- k)).
  { rewrite Qpower_opp, <- (pow2_inject k) by lia. reflexivity. }
  rewrite Hq. apply Qround_float_exact; lia.
Qed.

(** The error of rounding is at most half a unit of the last digit: for a
    magnitude that the format holds with 24 digits, at most [2 ^ -24] of
    the magnitude. *)
Lemma Qround_float_error (q : Q) :
  2 ^ (- 126) <= Qabs q ->
  Qabs (Qround_float q - q) <= Qabs q * 2 ^ (- 24).
Proof.
  assert (Hpos : forall q, 2 ^ (- 126) <= q ->
                   Qabs (Qround_magnitude q - q) <= q * 2 ^ (- 24)).
  { clear q. intros q Hq.
    assert (Hq0 : 0 < q) by (pose proof (pow2_pos (- 126)); lra).
    rewrite Qround_magnitude_eq.
    destruct (Qlog2_spec q Hq0) as [Hlo Hhi].
    assert (Hlog : (- 126 <= Qlog2 q)%Z).
    { assert ((- 126 < Qlog2 q + 1)%Z) by (apply pow2_lt_inv; lra). lia. }
    assert (HE : float_exponent q = (Qlog2 q - 23)%Z)
      by (unfold float_exponent, FLT_MANT_DIG, FLT_MIN_EXP; lia).
    rewrite HE.
    pose proof (Qround_at_error (Qlog2 q - 23) q) as [Hl Hh].
    assert (Hulp : (1 # 2) * 2 ^ (Qlog2 q - 23) == 2 ^ Qlog2 q * 2 ^ (- 24)).
    { replace (Qlog2 q - 23)%Z with (Qlog2 q + - 24 + 1)%Z by lia.
      rewrite pow2_succ, pow2_plus. ring. }
    pose proof (pow2_pos (- 24)) as Hp.
    apply Qabs_Qle_condition. split; nra. }
  intros Hq.
  destruct (Qlt_le_dec q 0) as [Hneg | Hge].
  - rewrite (Qabs_neg q) in * by lra.
    unfold Qround_float.
    replace (Qltb q 0) with true by (symmetry; apply Qltb_true; exact Hneg).
    specialize (Hpos (- q) Hq).
    rewrite <- Qabs_opp.
    assert (E : - (- Qround_magnitude (- q) - q) == Qround_magnitude (- q) - - q) by ring.
    rewrite E. exact Hpos.
  - rewrite (Qabs_pos q) in * by lra.
    unfold Qround_float.
    replace (Qltb q 0) with false by (symmetry; apply Qltb_false; exact Hge).
    apply Hpos, Hq.
Qed.

End FloatRounding.

(** ** Floating-point arithmetic: the operations *)

#[global] Instance Qltb_proper : Proper (Qeq ==> Qeq ==> eq) Qltb.
Proof. intros a a' Ha b b' Hb. unfold Qltb. rewrite Ha, Hb. reflexivity. Qed.

#[global] Instance float_eq_equivalence : Equivalence float_eq.
Proof.
  split.
  - intros [x | s |]; cbn; reflexivity.
  - intros [x | s |] [y | t |]; cbn; try tauto; intros H; symmetry; exact H.
  - intros [x | s |] [y | t |] [z | u |]; cbn; try tauto; intros H1 H2;
      etransitivity; eassumption.
Qed.

#[global] Instance Ffinite_proper : Proper (Qeq ==> float_eq) Ffinite.
Proof. intros a b Hab. exact Hab. Qed.

#[global] Instance float_round_proper : Proper (Qeq ==> float_eq) float_round.
Proof.
  intros a b Hab. unfold float_round. cbv zeta.
  pose proof (Qround_float_comp a b Hab) as Hr.
  rewrite (Qleb_comp _ _ (Qeq_refl _) _ _ (Qabs_wd _ _ Hr)).
  rewrite (Qltb_proper _ _ Hr 0%Q 0%Q (Qeq_refl 0)).
  destruct (Qle_bool _ _); cbn; [reflexivity | exact Hr].
Qed.

#[global] Instance float_opp_proper : Proper (float_eq ==> float_eq) float_opp.
Proof.
  intros [x | s |] [y | t |]; cbn; try tauto; intros H; rewrite H; reflexivity.
Qed.

#[global] Instance float_abs_proper : Proper (float_eq ==> float_eq) float_abs.
Proof.
  intros [x | s |] [y | t |]; cbn; try tauto; intros H; rewrite H; reflexivity.
Qed.

#[global] Instance float_add_proper :
  Proper (float_eq ==> float_eq ==> float_eq) float_add.
Proof.
  intros [x | s |] [x' | s' |] Ha [y | t |] [y' | t' |] Hb; cbn in *; try tauto;
    subst; try reflexivity.
  rewrite Ha, Hb. reflexivity.
Qed.

#[global] Instance float_sub_proper :
  Proper (float_eq ==> float_eq ==> float_eq) float_sub.
Proof. intros a a' Ha b b' Hb. unfold float_sub. rewrite Ha, Hb. reflexivity. Qed.

#[global] Instance float_mul_proper :
  Proper (float_eq ==> float_eq ==> float_eq) float_mul.
Proof.
  intros [x | s |] [x' | s' |] Ha [y | t |] [y' | t' |] Hb; cbn in *; try tauto;
    subst; try reflexivity.
  - rewrite Ha, Hb. reflexivity.
  - assert (E1 : Qeq_bool x 0 = Qeq_bool x' 0) by (rewrite Ha; reflexivity).
    assert (E2 : Qltb x 0 = Qltb x' 0) by (rewrite Ha; reflexivity).
    rewrite E1, E2. destruct (Qeq_bool x' 0); reflexivity.
  - assert (E1 : Qeq_bool y 0 = Qeq_bool y' 0) by (rewrite Hb; reflexivity).
    assert (E2 : Qltb y 0 = Qltb y' 0) by (rewrite Hb; reflexivity).
    rewrite E1, E2. destruct (Qeq_bool y' 0); reflexivity.
Qed.

#[global] Instance float_halve_proper : Proper (float_eq ==> float_eq) float_halve.
Proof.
  intros [x | s |] [y | t |]; cbn; try tauto; intros H; rewrite H; reflexivity.
Qed.

#[global] Instance float_le_proper : Proper (float_eq ==> float_eq ==> eq) float_le.
Proof.
  intros [x | s |] [x' | s' |] Ha [y | t |] [y' | t' |] Hb; cbn in *; try tauto;
    subst; try reflexivity.
  rewrite Ha, Hb. reflexivity.
Qed.

#[global] Instance float_lt_proper : Proper (float_eq ==> float_eq ==> eq) float_lt.
Proof.
  intros [x | s |] [x' | s' |] Ha [y | t |] [y' | t' |] Hb; cbn in *; try tauto;
    subst; try reflexivity.
  rewrite Ha, Hb. reflexivity.
Qed.

#[global] Instance float_gt_proper : Proper (float_eq ==> float_eq ==> eq) float_gt.
Proof. intros a a' Ha b b' Hb. unfold float_gt. rewrite Ha, Hb. reflexivity. Qed.

Section FloatFacts.

Local Open Scope Q_scope.

(** The result of rounding is a number or an infinity. *)
Lemma float_round_number (q : Q) : float_number (float_round q).
Proof. unfold float_round. cbv zeta. destruct (Qle_bool _ _); discriminate. Qed.

(** Without NaN the comparisons are those of an order. *)
Lemma float_lt_le (a b : float) :
  float_number a -> float_number b -> float_lt b a = negb (float_le a b).
Proof.
  unfold float_number. intros Ha Hb.
  destruct a as [x | [] |], b as [y | [] |]; cbn; try reflexivity; congruence.
Qed.

(** Rounding overflows only beyond the largest float: up to a quarter of
    its last digit above it, the result is finite. *)
Lemma float_round_finite (q : Q) :
  Qabs q <= FLT_MAX + 2 ^ 102 -> float_round q = Ffinite (Qround_float q).
Proof.
  intros Hq. unfold float_round. cbv zeta.
  replace (Qle_bool _ _) with false; [reflexivity |].
  symmetry. apply not_true_iff_false. intros Hle. apply Qle_bool_iff in Hle.
  rewrite Qround_float_abs in Hle.
  pose proof (Qround_float_le _ _ Hq) as Hr.
  assert (E : Qround_float (FLT_MAX + 2 ^ 102) == FLT_MAX) by reflexivity.
  assert (FLT_MAX < 2 ^ FLT_MAX_EXP) by reflexivity.
  lra.
Qed.

Lemma float_round_small (q : Q) :
  Qabs q <= 2 ^ 127 -> float_round q = Ffinite (Qround_float q).
Proof.
  intros Hq. apply float_round_finite.
  assert (2 ^ 127 <= FLT_MAX + 2 ^ 102) by (vm_compute; discriminate).
  lra.
Qed.

Lemma float_of_int_exact (n : Z) :
  (Z.abs n <= 2 ^ 24)%Z -> float_eq (float_of_int n) (Ffinite (inject_Z n)).
Proof.
  intros Hn. unfold float_of_int.
  rewrite float_round_small.
  - cbn. apply Qround_float_int, Hn.
  - assert (H : Qabs (inject_Z n) <= inject_Z (2 ^ 24)).
    { apply Qabs_Qle_condition. rewrite <- inject_Z_opp, <- !Zle_Qle. lia. }
    assert (inject_Z (2 ^ 24) <= 2 ^ 127) by (vm_compute; discriminate).
    lra.
Qed.

(** Rounding is monotone, overflow included. *)
Lemma float_le_round (a b : Q) :
  a <= b -> float_le (float_round a) (float_round b) = true.
Proof.
  intros Hab. pose proof (Qround_float_le a b Hab) as Hr.
  unfold float_round. cbv zeta.
  assert (Hmax : 0 < 2 ^ FLT_MAX_EXP) by reflexivity.
  destruct (Qle_bool _ (Qabs (Qround_float a))) eqn:Ha,
           (Qle_bool _ (Qabs (Qround_float b))) eqn:Hb.
  - apply Qle_bool_iff in Ha, Hb.
    destruct (Qltb (Qround_float a) 0) eqn:Hsa; [reflexivity |].
    apply Qltb_false in Hsa. rewrite Qabs_pos in Ha by exact Hsa.
    replace (Qltb (Qround_float b) 0) with false; [reflexivity |].
    symmetry. apply Qltb_false. lra.
  - apply Qle_bool_iff in Ha.
    destruct (Qltb (Qround_float a) 0) eqn:Hsa; [reflexivity |].
    apply Qltb_false in Hsa. rewrite Qabs_pos in Ha by exact Hsa.
    exfalso. apply not_true_iff_false in Hb. apply Hb, Qle_bool_iff.
    rewrite Qabs_pos by lra. lra.
  - apply Qle_bool_iff in Hb.
    destruct (Qltb (Qround_float b) 0) eqn:Hsb; [| reflexivity].
    apply Qltb_true in Hsb. rewrite Qabs_neg in Hb by lra.
    exfalso. apply not_true_iff_false in Ha. apply Ha, Qle_bool_iff.
    rewrite Qabs_neg by lra. lra.
  - cbn. apply Qle_bool_iff, Hr.
Qed.

Lemma float_gt_round (a b : Q) :
  a <= b -> float_gt (float_round a) (float_round b) = false.
Proof.
  intros Hab. unfold float_gt.
  rewrite float_lt_le by apply float_round_number.
  rewrite float_le_round by exact Hab. reflexivity.
Qed.

Lemma float_abs_round (q : Q) :
  float_eq (float_abs (float_round q)) (float_round (Qabs q)).
Proof.
  unfold float_round. cbv zeta.
  pose proof (Qround_float_abs q) as Habs.
  assert (E : Qabs (Qround_float (Qabs q)) == Qabs (Qround_float q)).
  { rewrite <- Habs. apply Qabs_pos, Qabs_nonneg. }
  rewrite E. destruct (Qle_bool _ _); cbn.
  - symmetry. apply Qltb_false. rewrite <- Habs. apply Qabs_nonneg.
  - exact Habs.
Qed.

(** The distance along an axis, as the test computes it. *)
Lemma float_distance (c : Q) (n : Z) :
  (Z.abs n <= 2 ^ 24)%Z ->
  float_eq (float_abs (float_sub (Ffinite c) (float_of_int n)))
           (float_round (Qabs (c - inject_Z n))).
Proof.
  intros Hn. rewrite (float_of_int_exact n Hn). cbn [float_sub float_opp float_add].
  apply float_abs_round.
Qed.

(** Half of a side. *)
Lemma float_half_side (n : Z) :
  (Z.abs n <= 2 ^ 24)%Z ->
  float_eq (float_halve (float_of_int n)) (Ffinite (inject_Z n * (1 # 2))).
Proof.
  intros Hn. rewrite (float_of_int_exact n Hn). cbn [float_halve].
  assert (Hq : inject_Z n / 2 == inject_Z n * (1 # 2)) by (unfold Qdiv; reflexivity).
  rewrite Hq.
  assert (Hsmall : Qabs (inject_Z n * (1 # 2)) <= 2 ^ 127).
  { assert (H : Qabs (inject_Z n) <= inject_Z (2 ^ 24)).
    { apply Qabs_Qle_condition. rewrite <- inject_Z_opp, <- !Zle_Qle. lia. }
    assert (inject_Z (2 ^ 24) <= 2 ^ 127) by (vm_compute; discriminate).
    rewrite Qabs_Qmult. change (Qabs (1 # 2)) with (1 # 2).
    pose proof (Qabs_nonneg (inject_Z n)). lra. }
  rewrite float_round_small by exact Hsmall. cbn.
  destruct (Z.eq_dec (Z.abs n) (2 ^ 24)%Z) as [E | E].
  - assert (Hcases : n = (2 ^ 24)%Z \/ n = (- 2 ^ 24)%Z) by lia.
    destruct Hcases as [-> | ->]; reflexivity.
  - assert (Hs : inject_Z n * (1 # 2) == inject_Z n / inject_Z (2 ^ 1))
      by (unfold Qdiv; reflexivity).
    rewrite Hs. apply Qround_float_scaled; lia.
Qed.

End FloatFacts.

(** ** Loops *)

(** A loop whose body keeps an invariant, when it ends, ends in a state
    that satisfies it. *)
Lemma for_loop_preserves {S : Type} (P : S -> Prop) (body : S -> Z -> option S)
    (l : list Z) (s s' : S) :
  (forall t i t', P t -> body t i = Some t' -> P t') ->
  P s -> for_loop body s l = Some s' -> P s'.
Proof.
  intros Hbody. revert s. induction l as [|i l IH]; intros s Hs Hrun; cbn in Hrun.
  - congruence.
  - destruct (body s i) as [t|] eqn:Hb; cbn in Hrun; [|discriminate].
    eapply IH; [eapply Hbody; eassumption | exact Hrun].
Qed.

Lemma for_loop_acc {S A : Type} (st : list A -> S) (body : S -> Z -> option S)
    (g : Z -> list A) (l : list Z) (acc : list A) :
  (forall i acc', i ∈ l -> body (st acc') i = Some (st (acc' ++ g i))) ->
  for_loop body (st acc) l = Some (st (acc ++ (l ≫= g))).
Proof.
  revert acc. induction l as [|i l IH]; intros acc Hbody.
  - cbn. rewrite app_nil_r. reflexivity.
  - cbn [for_loop]. rewrite Hbody by left. cbn [mbind option_bind].
    rewrite IH by (intros j acc' Hj; apply Hbody; right; exact Hj).
    cbn. rewrite <- app_assoc. reflexivity.
Qed.

(** ** Heap blocks *)

Lemma length_filled {A : Type} (vs : list A) (n : nat) :
  length (filled vs n) = (length vs + n)%nat.
Proof. unfold filled. rewrite length_app, length_fmap, length_replicate. reflexivity. Qed.

Lemma malloc_filled {A : Type} (n : Z) : malloc (A := A) n = filled [] (Z.to_nat n).
Proof. reflexivity. Qed.

Lemma store_length {A : Type} (m m' : array A) (i : Z) (v : A) :
  store m i v = Some m' -> length m' = length m.
Proof.
  unfold store. destruct (_ && _); [|discriminate].
  intros [= <-]. apply length_insert.
Qed.

Lemma store_filled {A : Type} (vs : list A) (n : nat) (v : A) :
  store (filled vs (S n)) (Z.of_nat (length vs)) v = Some (filled (vs ++ [v]) n).
Proof.
  unfold store. rewrite length_filled.
  replace ((0 <=? Z.of_nat (length vs)) && (Z.of_nat (length vs) <? Z.of_nat (length vs + S n)))
    with true by (symmetry; apply andb_true_iff; split; [apply Z.leb_le | apply Z.ltb_lt]; lia).
  f_equal. unfold filled. rewrite Nat2Z.id.
  rewrite fmap_app, <- app_assoc. cbn [replicate].
  rewrite insert_app_r_alt by (rewrite length_fmap; lia).
  rewrite length_fmap, Nat.sub_diag. reflexivity.
Qed.

Lemma store_from_filled {A : Type} (new vs : list A) (n : nat) :
  store_from (filled vs (length new + n)) (Z.of_nat (length vs)) new
  = Some (filled (vs ++ new) n).
Proof.
  revert vs. induction new as [|v new IH]; intros vs; cbn [store_from length].
  - rewrite app_nil_r. reflexivity.
  - cbn [Nat.add]. rewrite store_filled. cbn.
    replace (Z.of_nat (length vs) + 1) with (Z.of_nat (length (vs ++ [v])))
      by (rewrite length_app; cbn; lia).
    rewrite IH, <- app_assoc. reflexivity.
Qed.

Lemma store_from_filled_eq {A : Type} (new vs : list A) (m n : nat) (i : Z) :
  i = Z.of_nat (length vs) -> m = (length new + n)%nat ->
  store_from (filled vs m) i new = Some (filled (vs ++ new) n).
Proof. intros -> ->. apply store_from_filled. Qed.

Lemma load_filled {A : Type} (vs : list A) (n : nat) (i : nat) (v : A) :
  vs !! i = Some v -> load (filled vs n) (Z.of_nat i) = Some v.
Proof.
  intros Hv. unfold load, filled.
  replace (0 <=? Z.of_nat i) with true by (symmetry; apply Z.leb_le; lia).
  rewrite Nat2Z.id, lookup_app_l by (rewrite length_fmap; eapply lookup_lt_Some, Hv).
  rewrite list_lookup_fmap, Hv. reflexivity.
Qed.

Lemma load_fmap_Some {A : Type} (vs : list A) (i : Z) :
  0 <= i -> load (Some <$> vs) i = vs !! Z.to_nat i.
Proof.
  intros Hi. unfold load.
  replace (0 <=? i) with true by (symmetry; apply Z.leb_le; lia).
  rewrite list_lookup_fmap. destruct (vs !! Z.to_nat i); reflexivity.
Qed.

(** ** Pixel extraction *)

Lemma GetImageData_pixel_length (image : Image) (st st' : list (option Color) * Z) (i : Z) :
  GetImageData_pixel image st i = Some st' -> length (fst st') = length (fst st).
Proof.
  destruct st as [p k], st' as [p' k']. unfold GetImageData_pixel.
  intros Hb. cbn [fst].
  repeat match type of Hb with
         | (if ?b then _ else _) = _ => destruct b
         end;
    repeat match type of Hb with
           | (?m ≫= _) = Some _ =>
               let E := fresh "E" in
               destruct m eqn:E; cbn [mbind option_bind] in Hb; [| discriminate]
           end;
    injection Hb as <- <-;
    solve [reflexivity | eapply store_length; eassumption].
Qed.

Lemma GetImageData_length (image : Image) (pixels : list (option Color)) :
  GetImageData image = Some pixels ->
  length pixels = Z.to_nat (u32 (Image_width image * Image_height image)).
Proof.
  unfold GetImageData, for_range. intros Hrun.
  destruct (for_loop _ _ _) as [[p k]|] eqn:Hloop; [| discriminate].
  injection Hrun as <-.
  apply (for_loop_preserves
           (fun st => length (fst st)
                      = Z.to_nat (u32 (Image_width image * Image_height image)))
           _ _ _ _ (fun t i t' Ht Hb =>
                      eq_trans (GetImageData_pixel_length image t t' i Hb) Ht)) in Hloop.
  - exact Hloop.
  - cbn [fst]. unfold malloc. apply length_replicate.
Qed.

Lemma length_bind_const {A B : Type} (g : A -> list B) (k : nat) (l : list A) :
  (forall a, length (g a) = k) -> length (l ≫= g) = (k * length l)%nat.
Proof.
  intros Hg. induction l as [|a l IH]; cbn; [lia|].
  rewrite length_app, Hg, IH. lia.
Qed.

Lemma length_rgba_bytes (cs : list Color) :
  length (rgba_bytes cs) = (4 * length cs)%nat.
Proof. apply length_bind_const. intros c. reflexivity. Qed.

Lemma data_byte_rgba (image : Image) (done rest : list Color) (c : Color) (j : nat) (v : Z) :
  Image_data image = rgba_bytes (done ++ c :: rest) ->
  [Color_r c; Color_g c; Color_b c; Color_a c] !! j = Some v ->
  data_byte image (4 * Z.of_nat (length done) + Z.of_nat j) = Some v.
Proof.
  intros Hdata Hj. unfold data_byte. rewrite Hdata.
  replace (0 <=? 4 * Z.of_nat (length done) + Z.of_nat j) with true
    by (symmetry; apply Z.leb_le; lia).
  replace (Z.to_nat (4 * Z.of_nat (length done) + Z.of_nat j))
    with (length (rgba_bytes done) + j)%nat
    by (rewrite length_rgba_bytes; lia).
  unfold rgba_bytes. rewrite bind_app, lookup_app_r by lia.
  rewrite Nat.add_sub_swap, Nat.sub_diag by lia. cbn [Nat.add mbind list_bind].
  apply lookup_app_l_Some. exact Hj.
Qed.

Lemma GetImageData_pixel_rgba (image : Image) (done rest : list Color)
    (c : Color) (n : nat) :
  Image_format image = UNCOMPRESSED_R8G8B8A8 ->
  Image_data image = rgba_bytes (done ++ c :: rest) ->
  GetImageData_pixel image
    (filled done (S n), 4 * Z.of_nat (length done)) (Z.of_nat (length done))
  = Some (filled (done ++ [c]) n, 4 * Z.of_nat (length (done ++ [c]))).
Proof.
  intros Hfmt Hdata. unfold GetImageData_pixel. rewrite Hfmt.
  cbn [UNCOMPRESSED_R8G8B8A8 UNCOMPRESSED_GRAYSCALE UNCOMPRESSED_GRAY_ALPHA
       UNCOMPRESSED_R5G5B5A1 UNCOMPRESSED_R5G6B5 UNCOMPRESSED_R4G4B4A4 Z.eqb Pos.eqb].
  pose proof (data_byte_rgba image done rest c 0 _ Hdata eq_refl) as H0.
  pose proof (data_byte_rgba image done rest c 1 _ Hdata eq_refl) as H1.
  pose proof (data_byte_rgba image done rest c 2 _ Hdata eq_refl) as H2.
  pose proof (data_byte_rgba image done rest c 3 _ Hdata eq_refl) as H3.
  change (Z.of_nat 0) with 0 in H0. change (Z.of_nat 1) with 1 in H1.
  change (Z.of_nat 2) with 2 in H2. change (Z.of_nat 3) with 3 in H3.
  rewrite Z.add_0_r in H0. rewrite H0, H1, H2, H3.
  cbn [mbind option_bind]. rewrite store_filled. cbn [mbind option_bind].
  destruct c. cbn [Color_r Color_g Color_b Color_a].
  do 2 f_equal. rewrite length_app. cbn [length]. lia.
Qed.

Lemma GetImageData_loop_rgba (image : Image) (rest done : list Color) :
  Image_format image = UNCOMPRESSED_R8G8B8A8 ->
  Image_data image = rgba_bytes (done ++ rest) ->
  for_loop (GetImageData_pixel image)
    (filled done (length rest), 4 * Z.of_nat (length done))
    (seqZ (Z.of_nat (length done)) (Z.of_nat (length rest)))
  = Some (Some <$> (done ++ rest), 4 * Z.of_nat (length (done ++ rest))).
Proof.
  intros Hfmt. revert done. induction rest as [|c rest IH]; intros done Hdata.
  - cbn. unfold filled. cbn. rewrite !app_nil_r. reflexivity.
  - cbn [length]. rewrite Nat2Z.inj_succ, seqZ_cons by lia. cbn [for_loop].
    rewrite (GetImageData_pixel_rgba image done rest c) by assumption.
    cbn [mbind option_bind].
    replace (Z.succ (Z.of_nat (length done))) with (Z.of_nat (length (done ++ [c])))
      by (rewrite length_app; cbn; lia).
    replace (Z.pred (Z.succ (Z.of_nat (length rest)))) with (Z.of_nat (length rest)) by lia.
    rewrite IH by (rewrite <- app_assoc; exact Hdata).
    rewrite <- app_assoc. reflexivity.
Qed.

Lemma area_bound (image : Image) :
  well_sized image ->
  0 <= Image_width image * Image_height image /\
  Image_width image * Image_height image * 108 <= INT_MAX.
Proof. intros (HW & HH & Hs). split; [nia | exact Hs]. Qed.

(** Every grid of colours is the grid of an RGBA image of its size: the
    hypothesis [grid_of] of the theorems below holds of all the images that
    [LoadImage] can return for a map that fits the range of [int]. *)
Lemma grid_of_rgba (width height : Z) (cs : list Color) :
  well_sized (mkImage width height UNCOMPRESSED_R8G8B8A8 (rgba_bytes cs)) ->
  Z.of_nat (length cs) = width * height ->
  grid_of (mkImage width height UNCOMPRESSED_R8G8B8A8 (rgba_bytes cs)) cs.
Proof.
  intros Hsized Hlen. split; [exact Hsized |].
  pose proof (area_bound _ Hsized) as [H0 H36].
  cbn [Image_width Image_height] in H0, H36.
  unfold GetImageData, for_range. cbn [Image_width Image_height].
  rewrite u32_small by (unfold INT_MAX in *; lia).
  rewrite Z.sub_0_r, <- Hlen, malloc_filled, Nat2Z.id.
  rewrite (GetImageData_loop_rgba _ cs []) by reflexivity.
  reflexivity.
Qed.

(** ** Emitting faces *)

Lemma length_face_vertices (c : Corners) (f : Face) : length (face_vertices c f) = 6%nat.
Proof. destruct f; reflexivity. Qed.

Lemma length_face_texcoords (f : Face) : length (face_texcoords f) = 6%nat.
Proof. destruct f; reflexivity. Qed.

Lemma length_entry_vertices (cubeSize : Q) (fs : list (Z * Z * Face)) :
  length (fs ≫= face_entry_vertices cubeSize) = (6 * length fs)%nat.
Proof.
  apply length_bind_const. intros [[x z] f]. apply length_face_vertices.
Qed.

Lemma length_entry_normals (fs : list (Z * Z * Face)) :
  length (fs ≫= face_entry_normals) = (6 * length fs)%nat.
Proof. apply length_bind_const. intros e. reflexivity. Qed.

Lemma length_entry_texcoords (fs : list (Z * Z * Face)) :
  length (fs ≫= face_entry_texcoords) = (6 * length fs)%nat.
Proof. apply length_bind_const. intros e. apply length_face_texcoords. Qed.

Lemma bind_snoc {A B : Type} (g : A -> list B) (l : list A) (a : A) :
  (l ++ [a]) ≫= g = (l ≫= g) ++ g a.
Proof. rewrite bind_app. cbn. rewrite app_nil_r. reflexivity. Qed.

Lemma store_from_scratch {A : Type} (g : Z * Z * Face -> list A)
    (fs : list (Z * Z * Face)) (cap : nat) (e : Z * Z * Face) :
  (forall e', length (g e') = 6%nat) ->
  (6 * (length fs + 1) <= cap)%nat ->
  store_from (filled (fs ≫= g) (cap - 6 * length fs))
             (6 * Z.of_nat (length fs)) (g e)
  = Some (filled ((fs ++ [e]) ≫= g) (cap - 6 * length (fs ++ [e]))).
Proof.
  intros Hg Hcap. rewrite bind_snoc, length_app. cbn [length].
  apply store_from_filled_eq.
  - rewrite (length_bind_const g 6) by exact Hg. lia.
  - rewrite Hg. lia.
Qed.

Lemma emit_face_scratch (cubeSize : Q) (cap : nat) (fs : list (Z * Z * Face))
    (x z : Z) (f : Face) :
  (6 * (length fs + 1) <= cap)%nat ->
  emit_face cubeSize x z f (scratch_of cubeSize cap fs)
  = Some (scratch_of cubeSize cap (fs ++ [(x, z, f)])).
Proof.
  intros Hcap. unfold emit_face, scratch_of.
  cbn [mapVertices mapNormals mapTexcoords vCounter nCounter tcCounter emitted].
  change (face_vertices (corners cubeSize x z) f)
    with (face_entry_vertices cubeSize (x, z, f)).
  change (face_normals f) with (face_entry_normals (x, z, f)).
  change (face_texcoords f) with (face_entry_texcoords (x, z, f)).
  rewrite (store_from_scratch (face_entry_vertices cubeSize) fs cap (x, z, f));
    [| intros [[x' z'] f']; apply length_face_vertices | exact Hcap].
  cbn [mbind option_bind].
  rewrite (store_from_scratch face_entry_normals fs cap (x, z, f));
    [| intros e'; reflexivity | exact Hcap].
  cbn [mbind option_bind].
  rewrite (store_from_scratch face_entry_texcoords fs cap (x, z, f));
    [| intros e'; apply length_face_texcoords | exact Hcap].
  cbn [mbind option_bind].
  rewrite length_app. cbn [length].
  do 2 f_equal; lia.
Qed.

Lemma emit_face_if_scratch (b : bool) (cubeSize : Q) (cap : nat)
    (fs : list (Z * Z * Face)) (x z : Z) (f : Face) :
  (6 * (length fs + 1) <= cap)%nat ->
  emit_face_if b cubeSize x z f (scratch_of cubeSize cap fs)
  = Some (scratch_of cubeSize cap
            (fs ++ ((fun f' => (x, z, f')) <$> (if b then [f] else [])))).
Proof.
  intros Hcap. destruct b; cbn [emit_face_if fmap list_fmap].
  - apply emit_face_scratch, Hcap.
  - rewrite app_nil_r. reflexivity.
Qed.

Lemma scratch_of_nil (cubeSize : Q) (n : Z) :
  mkScratch (malloc n) (malloc n) (malloc n) 0 0 0 []
  = scratch_of cubeSize (Z.to_nat n) [].
Proof.
  unfold scratch_of, filled, malloc. cbn. rewrite Nat.sub_0_r. reflexivity.
Qed.

(** ** The loop body of the generator *)

Lemma cell_index_range (W H x z : Z) :
  0 <= x < W -> 0 <= z < H -> 0 <= z * W + x < W * H.
Proof. intros Hx Hz. nia. Qed.

Lemma length_cell_faces (pixels : list Color) (W H x z : Z) :
  (length (cell_faces pixels W H x z) <= 6)%nat.
Proof.
  unfold cell_faces. destruct (pixel_at pixels W x z) as [c|]; [| cbn; lia].
  destruct (is_white c).
  - repeat match goal with |- context [if ?b then _ else _] => destruct b end;
      cbn; lia.
  - destruct (is_black c); cbn; lia.
Qed.

Section Generator.

Variable cubicmap : Image.
Variable pixels : list Color.
Variable cubeSize : Q.

Local Abbreviation W := (Image_width cubicmap).
Local Abbreviation H := (Image_height cubicmap).

Hypothesis Hsized : well_sized cubicmap.
Hypothesis Hlen : Z.of_nat (length pixels) = W * H.

Lemma u32_cell_index (x z : Z) :
  0 <= x < W -> 0 <= z < H -> u32 (z * W + x) = z * W + x.
Proof.
  intros Hx Hz. apply u32_small.
  pose proof (cell_index_range W H x z Hx Hz).
  pose proof (area_bound cubicmap Hsized).
  unfold INT_MAX in *. lia.
Qed.

Lemma pixel_at_inside (x z : Z) :
  0 <= x < W -> 0 <= z < H ->
  exists c, pixel_at pixels W x z = Some c /\
            load (Some <$> pixels) (u32 (z * W + x)) = Some c.
Proof.
  intros Hx Hz. pose proof (cell_index_range W H x z Hx Hz) as Hi.
  destruct (lookup_lt_is_Some_2 pixels (Z.to_nat (z * W + x))) as [c Hc]; [lia|].
  exists c. rewrite u32_cell_index, load_fmap_Some by lia.
  split; [| exact Hc]. unfold pixel_at.
  replace ((0 <=? x) && (x <? W) && (0 <=? z)) with true; [exact Hc|].
  symmetry. rewrite !andb_true_iff, !Z.leb_le, Z.ltb_lt. lia.
Qed.

Lemma side_open_inside (inside edge : bool) (x z : Z) :
  (inside = true -> 0 <= x < W /\ 0 <= z < H) ->
  side_open (Some <$> pixels) inside (u32 (z * W + x)) edge
  = Some (inside && black_at pixels W x z || edge).
Proof.
  intros Hin. unfold side_open. destruct inside; [| reflexivity].
  destruct Hin as [Hx Hz]; [reflexivity|].
  destruct (pixel_at_inside x z Hx Hz) as (c & Hc & Hload).
  rewrite Hload. unfold black_at. rewrite Hc. reflexivity.
Qed.

Lemma u32_pred_height : 0 < H -> u32 (H - 1) = H - 1.
Proof.
  intros HH. apply u32_small. destruct Hsized as (_ & Hh & _).
  unfold INT_MAX in *. lia.
Qed.

Lemma u32_pred_width : 0 < W -> u32 (W - 1) = W - 1.
Proof.
  intros HW. apply u32_small. destruct Hsized as (Hw & _ & _).
  unfold INT_MAX in *. lia.
Qed.

Lemma GenMeshCubicmap_cell_scratch (cap : nat) (fs : list (Z * Z * Face)) (x z : Z) :
  0 <= x < W -> 0 <= z < H ->
  (6 * (length fs + 6) <= cap)%nat ->
  GenMeshCubicmap_cell cubicmap (Some <$> pixels) cubeSize z
    (scratch_of cubeSize cap fs) x
  = Some (scratch_of cubeSize cap
            (fs ++ ((fun f => (x, z, f)) <$> cell_faces pixels W H x z))).
Proof.
  intros Hx Hz Hcap. unfold GenMeshCubicmap_cell, cell_faces.
  destruct (pixel_at_inside x z Hx Hz) as (c & Hc & Hload).
  rewrite Hload, Hc. cbn [mbind option_bind].
  rewrite u32_pred_height, u32_pred_width by lia.
  destruct (is_white c).
  - rewrite emit_face_scratch by lia. cbn [mbind option_bind].
    rewrite emit_face_scratch by (rewrite length_app; cbn [length]; lia).
    cbn [mbind option_bind].
    rewrite (side_open_inside _ _ x (z + 1)) by (rewrite Z.ltb_lt; lia).
    cbn [mbind option_bind].
    rewrite emit_face_if_scratch by (rewrite !length_app; cbn [length]; lia).
    cbn [mbind option_bind].
    rewrite (side_open_inside _ _ x (z - 1)) by (rewrite Z.ltb_lt; lia).
    cbn [mbind option_bind].
    rewrite emit_face_if_scratch
      by (rewrite !length_app, length_fmap; cbn [length];
          destruct (_ || _); cbn [length]; lia).
    cbn [mbind option_bind].
    rewrite (side_open_inside _ _ (x + 1) z) by (rewrite Z.ltb_lt; lia).
    cbn [mbind option_bind].
    rewrite emit_face_if_scratch
      by (rewrite !length_app, !length_fmap; cbn [length];
          repeat destruct (_ || _); cbn [length]; lia).
    cbn [mbind option_bind].
    rewrite (side_open_inside _ _ (x - 1) z) by (rewrite Z.ltb_lt; lia).
    cbn [mbind option_bind].
    rewrite emit_face_if_scratch
      by (rewrite !length_app, !length_fmap; cbn [length];
          repeat destruct (_ || _); cbn [length]; lia).
    rewrite !fmap_app, <- !app_assoc. reflexivity.
  - destruct (is_black c).
    + rewrite emit_face_scratch by lia. cbn [mbind option_bind].
      rewrite emit_face_scratch by (rewrite length_app; cbn [length]; lia).
      rewrite <- app_assoc. reflexivity.
    + cbn. rewrite app_nil_r. reflexivity.
Qed.

End Generator.

(** ** The loops of the generator *)

Lemma for_loop_scratch (cubeSize : Q) (body : Scratch -> Z -> option Scratch)
    (g : Z -> list (Z * Z * Face)) (m cap : nat) (l : list Z)
    (fs : list (Z * Z * Face)) :
  (forall i fs', i ∈ l -> (6 * (length fs' + m) <= cap)%nat ->
     body (scratch_of cubeSize cap fs') i
     = Some (scratch_of cubeSize cap (fs' ++ g i))) ->
  (forall i, i ∈ l -> (length (g i) <= m)%nat) ->
  (6 * (length fs + m * length l) <= cap)%nat ->
  for_loop body (scratch_of cubeSize cap fs) l
  = Some (scratch_of cubeSize cap (fs ++ (l ≫= g))).
Proof.
  revert fs. induction l as [|i l IH]; intros fs Hbody Hg Hcap.
  - cbn. rewrite app_nil_r. reflexivity.
  - cbn [for_loop]. rewrite Hbody; [| left | cbn [length] in Hcap; lia].
    cbn [mbind option_bind]. rewrite IH.
    + cbn. rewrite <- app_assoc. reflexivity.
    + intros j fs' Hj. apply Hbody. right. exact Hj.
    + intros j Hj. apply Hg. right. exact Hj.
    + rewrite length_app. cbn [length] in Hcap.
      pose proof (Hg i ltac:(left)). nia.
Qed.

Lemma copy_vector3_loop (n : nat) (rest done : list Vector3) (out : list Q) :
  for_loop (copy_vector3 (filled (done ++ rest) n))
    (filled out (3 * length rest), Z.of_nat (length out))
    (seqZ (Z.of_nat (length done)) (Z.of_nat (length rest)))
  = Some (Some <$> (out ++ (rest ≫= xyz)),
          Z.of_nat (length out) + 3 * Z.of_nat (length rest)).
Proof.
  revert done out. induction rest as [|v rest IH]; intros done out.
  - cbn. unfold filled. cbn. rewrite !app_nil_r, Z.add_0_r. reflexivity.
  - cbn [length]. rewrite Nat2Z.inj_succ, seqZ_cons by lia. cbn [for_loop copy_vector3].
    rewrite (load_filled _ _ _ v) by apply list_lookup_middle, eq_refl.
    cbn [mbind option_bind].
    replace (3 * S (length rest))%nat with (S (S (S (3 * length rest)))) by lia.
    rewrite store_filled. cbn [mbind option_bind].
    replace (Z.of_nat (length out) + 1) with (Z.of_nat (length (out ++ [Vector3_x v])))
      by (rewrite length_app; cbn; lia).
    rewrite store_filled. cbn [mbind option_bind].
    replace (Z.of_nat (length out) + 2)
      with (Z.of_nat (length ((out ++ [Vector3_x v]) ++ [Vector3_y v])))
      by (rewrite !length_app; cbn; lia).
    rewrite store_filled. cbn [mbind option_bind].
    replace (Z.of_nat (length out) + 3)
      with (Z.of_nat (length (((out ++ [Vector3_x v]) ++ [Vector3_y v]) ++ [Vector3_z v])))
      by (rewrite !length_app; cbn; lia).
    replace (Z.succ (Z.of_nat (length done))) with (Z.of_nat (length (done ++ [v])))
      by (rewrite length_app; cbn; lia).
    replace (Z.pred (Z.succ (Z.of_nat (length rest)))) with (Z.of_nat (length rest)) by lia.
    replace (done ++ v :: rest) with ((done ++ [v]) ++ rest)
      by (rewrite <- app_assoc; reflexivity).
    rewrite IH. rewrite !length_app. cbn [length mbind list_bind xyz].
    rewrite <- !app_assoc. cbn [app]. do 2 f_equal. lia.
Qed.

Lemma copy_vector2_loop (n : nat) (rest done : list Vector2) (out : list Q) :
  for_loop (copy_vector2 (filled (done ++ rest) n))
    (filled out (2 * length rest), Z.of_nat (length out))
    (seqZ (Z.of_nat (length done)) (Z.of_nat (length rest)))
  = Some (Some <$> (out ++ (rest ≫= xy)),
          Z.of_nat (length out) + 2 * Z.of_nat (length rest)).
Proof.
  revert done out. induction rest as [|v rest IH]; intros done out.
  - cbn. unfold filled. cbn. rewrite !app_nil_r, Z.add_0_r. reflexivity.
  - cbn [length]. rewrite Nat2Z.inj_succ, seqZ_cons by lia. cbn [for_loop copy_vector2].
    rewrite (load_filled _ _ _ v) by apply list_lookup_middle, eq_refl.
    cbn [mbind option_bind].
    replace (2 * S (length rest))%nat with (S (S (2 * length rest))) by lia.
    rewrite store_filled. cbn [mbind option_bind].
    replace (Z.of_nat (length out) + 1) with (Z.of_nat (length (out ++ [Vector2_x v])))
      by (rewrite length_app; cbn; lia).
    rewrite store_filled. cbn [mbind option_bind].
    replace (Z.of_nat (length out) + 2)
      with (Z.of_nat (length ((out ++ [Vector2_x v]) ++ [Vector2_y v])))
      by (rewrite !length_app; cbn; lia).
    replace (Z.succ (Z.of_nat (length done))) with (Z.of_nat (length (done ++ [v])))
      by (rewrite length_app; cbn; lia).
    replace (Z.pred (Z.succ (Z.of_nat (length rest)))) with (Z.of_nat (length rest)) by lia.
    replace (done ++ v :: rest) with ((done ++ [v]) ++ rest)
      by (rewrite <- app_assoc; reflexivity).
    rewrite IH. rewrite !length_app. cbn [length mbind list_bind xy].
    rewrite <- !app_assoc. cbn [app]. do 2 f_equal. lia.
Qed.

Lemma copy_vector3_all (vs : list Vector3) (n : nat) (count : Z) :
  count = Z.of_nat (length vs) ->
  for_loop (copy_vector3 (filled vs n)) (malloc (count * 3), 0) (seqZ 0 count)
  = Some (Some <$> (vs ≫= xyz), 3 * count).
Proof.
  intros ->. pose proof (copy_vector3_loop n vs [] []) as Hloop.
  cbn [length app Z.of_nat] in Hloop. rewrite malloc_filled.
  replace (Z.to_nat (Z.of_nat (length vs) * 3)) with (3 * length vs)%nat by lia.
  exact Hloop.
Qed.

Lemma copy_vector2_all (vs : list Vector2) (n : nat) (count : Z) :
  count = Z.of_nat (length vs) ->
  for_loop (copy_vector2 (filled vs n)) (malloc (count * 2), 0) (seqZ 0 count)
  = Some (Some <$> (vs ≫= xy), 2 * count).
Proof.
  intros ->. pose proof (copy_vector2_loop n vs [] []) as Hloop.
  cbn [length app Z.of_nat] in Hloop. rewrite malloc_filled.
  replace (Z.to_nat (Z.of_nat (length vs) * 2)) with (2 * length vs)%nat by lia.
  exact Hloop.
Qed.

Section GeneratorRun.

Variable cubicmap : Image.
Variable pixels : list Color.
Variable cubeSize : Q.

Local Abbreviation W := (Image_width cubicmap).
Local Abbreviation H := (Image_height cubicmap).

Hypothesis Hgrid : grid_of cubicmap pixels.

Lemma grid_length : Z.of_nat (length pixels) = W * H.
Proof.
  destruct Hgrid as [Hsized Hdata].
  apply GetImageData_length in Hdata. rewrite length_fmap in Hdata.
  pose proof (area_bound cubicmap Hsized) as [H0 H36].
  rewrite u32_small in Hdata by (unfold INT_MAX in *; lia). lia.
Qed.

Lemma length_row_faces (z : Z) :
  (length (row_faces pixels W H z) <= 6 * Z.to_nat W)%nat.
Proof.
  unfold row_faces. generalize (seqZ 0 W) (length_seqZ 0 W).
  intros l <-. induction l as [|x l IH]; cbn; [lia|].
  rewrite length_app, length_fmap.
  pose proof (length_cell_faces pixels W H x z).
  change (mbind ?f l) with (mbind f l) in IH. lia.
Qed.

Lemma GenMeshCubicmap_row (cap : nat) (fs : list (Z * Z * Face)) (z : Z) :
  0 <= z < H ->
  (6 * (length fs + 6 * Z.to_nat W) <= cap)%nat ->
  for_range 0 W
    (GenMeshCubicmap_cell cubicmap (Some <$> pixels) cubeSize z)
    (scratch_of cubeSize cap fs)
  = Some (scratch_of cubeSize cap (fs ++ row_faces pixels W H z)).
Proof.
  intros Hz Hcap. unfold for_range, row_faces. rewrite Z.sub_0_r.
  apply for_loop_scratch with (m := 6%nat).
  - intros x fs' Hx Hcap'. apply elem_of_seqZ in Hx.
    apply GenMeshCubicmap_cell_scratch;
      [apply Hgrid | apply grid_length | lia | exact Hz | exact Hcap'].
  - intros x _. rewrite length_fmap. apply length_cell_faces.
  - rewrite length_seqZ. lia.
Qed.

Lemma GenMeshCubicmap_rows (cap : nat) :
  (36 * Z.to_nat W * Z.to_nat H <= cap)%nat ->
  for_range 0 H
    (fun s z =>
       for_range 0 W
         (GenMeshCubicmap_cell cubicmap (Some <$> pixels) cubeSize z) s)
    (scratch_of cubeSize cap [])
  = Some (scratch_of cubeSize cap (all_faces pixels W H)).
Proof.
  intros Hcap. unfold for_range at 1. unfold all_faces. rewrite Z.sub_0_r.
  apply (for_loop_scratch cubeSize _ _ (6 * Z.to_nat W) cap _ []).
  - intros z fs' Hz Hcap'. apply elem_of_seqZ in Hz.
    apply GenMeshCubicmap_row; [lia | exact Hcap'].
  - intros z _. apply length_row_faces.
  - rewrite length_seqZ. cbn [length]. lia.
Qed.

Lemma length_all_faces :
  Z.of_nat (length (all_faces pixels W H)) <= 6 * (W * H).
Proof.
  destruct Hgrid as [(HW & HH & _) _].
  unfold all_faces. generalize (seqZ 0 H) (length_seqZ 0 H).
  intros l Hl.
  assert (Hgoal : (length (l ≫= row_faces pixels W H)
                   <= 6 * Z.to_nat W * length l)%nat).
  { clear Hl. induction l as [|z l IH]; cbn; [lia|].
    rewrite length_app. pose proof (length_row_faces z).
    change (mbind ?f l) with (mbind f l) in IH. lia. }
  rewrite Hl in Hgoal.
  replace (6 * (W * H)) with (Z.of_nat (6 * Z.to_nat W * Z.to_nat H))
    by (rewrite !Nat2Z.inj_mul, !Z2Nat.id; lia).
  apply Nat2Z.inj_le. exact Hgoal.
Qed.

(** The generator returns, and its result is the mesh of the faces that
    the loop body selects cell by cell. *)
Lemma GenMeshCubicmap_faces_eq :
  GenMeshCubicmap_faces cubicmap cubeSize
  = Some (mesh_of_faces cubeSize (all_faces pixels W H), all_faces pixels W H).
Proof.
  pose proof Hgrid as [Hsized Hdata].
  pose proof Hsized as (HW & HH & H108).
  pose proof (area_bound cubicmap Hsized) as [H0 _].
  pose proof length_all_faces as Hfaces.
  unfold GenMeshCubicmap_faces. rewrite Hdata. cbn [mbind option_bind].
  rewrite !s32_small by (unfold INT_MAX in *; lia).
  rewrite (u32_small (W * H)) by (unfold INT_MAX in *; lia).
  rewrite (u32_small (W * H * 12)) by (unfold INT_MAX in *; lia).
  rewrite s32_small by (unfold INT_MAX in *; lia).
  rewrite int_mul_small by (unfold INT_MAX in *; lia).
  cbn [mbind option_bind].
  rewrite (scratch_of_nil cubeSize).
  rewrite GenMeshCubicmap_rows by nia.
  cbn [mbind option_bind].
  set (fs := all_faces pixels W H) in *.
  unfold scratch_of.
  cbn [mapVertices mapNormals mapTexcoords vCounter nCounter tcCounter emitted].
  rewrite !int_mul_small by (unfold INT_MAX in *; lia).
  cbn [mbind option_bind].
  unfold for_range. rewrite !Z.sub_0_r.
  rewrite (copy_vector3_all (fs ≫= face_entry_vertices cubeSize))
    by (rewrite length_entry_vertices; lia).
  cbn [mbind option_bind].
  rewrite (copy_vector3_all (fs ≫= face_entry_normals))
    by (rewrite length_entry_normals; lia).
  cbn [mbind option_bind].
  rewrite (copy_vector2_all (fs ≫= face_entry_texcoords))
    by (rewrite length_entry_texcoords; lia).
  reflexivity.
Qed.

End GeneratorRun.

(** ** Which faces are emitted *)

Lemma elem_of_all_faces (pixels : list Color) (W H x z : Z) (f : Face) :
  (x, z, f) ∈ all_faces pixels W H
  <-> 0 <= x < W /\ 0 <= z < H /\ f ∈ cell_faces pixels W H x z.
Proof.
  unfold all_faces, row_faces. rewrite list_elem_of_bind. split.
  - intros (z' & Hrow & Hz'). apply list_elem_of_bind in Hrow as (x' & Hf & Hx').
    apply list_elem_of_fmap in Hf as (f' & [= -> -> ->] & Hf').
    apply elem_of_seqZ in Hz', Hx'. repeat split; try lia. exact Hf'.
  - intros (Hx & Hz & Hf). exists z. split; [| apply elem_of_seqZ; lia].
    apply list_elem_of_bind. exists x. split; [| apply elem_of_seqZ; lia].
    apply list_elem_of_fmap. exists f. split; [reflexivity | exact Hf].
Qed.

Lemma pixel_at_Some_inside (pixels : list Color) (W H x z : Z) (c : Color) :
  Z.of_nat (length pixels) = W * H ->
  pixel_at pixels W x z = Some c -> inside W H (x, z) = true.
Proof.
  intros Hlen. unfold pixel_at, inside. cbn [fst snd].
  destruct ((0 <=? x) && (x <? W) && (0 <=? z)) eqn:Hb; [| discriminate].
  intros Hc. apply lookup_lt_Some in Hc.
  cbn [andb]. apply Z.ltb_lt.
  rewrite !andb_true_iff, !Z.leb_le, Z.ltb_lt in Hb. nia.
Qed.

Lemma inside_spec (W H x z : Z) :
  inside W H (x, z) = true <-> 0 <= x < W /\ 0 <= z < H.
Proof.
  unfold inside. cbn [fst snd].
  rewrite !andb_true_iff, !Z.leb_le, !Z.ltb_lt. lia.
Qed.

(** The test that guards a side face in the source agrees with: the cell
    across the face is outside the map, or it is black. *)
Lemma side_condition (inb edge nb_inside nb_black : bool) :
  (inb = true <-> nb_inside = true) ->
  (edge = true <-> nb_inside = false) ->
  inb && nb_black || edge = true <-> nb_inside = false \/ nb_black = true.
Proof.
  destruct inb, edge, nb_inside, nb_black; cbn; intuition congruence.
Qed.

Lemma white_not_black (c : Color) : is_white c = true -> is_black c = false.
Proof.
  unfold is_white, is_black. rewrite !andb_true_iff, !Z.eqb_eq.
  intros [[-> _] _]. reflexivity.
Qed.

Lemma black_not_white (c : Color) : is_black c = true -> is_white c = false.
Proof.
  unfold is_white, is_black. rewrite !andb_true_iff, !Z.eqb_eq.
  intros [[-> _] _]. reflexivity.
Qed.

Lemma cell_faces_side (pixels : list Color) (W H x z : Z) (f : Face) :
  inside W H (x, z) = true ->
  is_side f = true ->
  f ∈ cell_faces pixels W H x z
  <-> white_at pixels W x z = true /\
      ((z <? H - 1) && black_at pixels W x (z + 1) || (z =? H - 1) = true /\ f = Front
       \/ (0 <? z) && black_at pixels W x (z - 1) || (z =? 0) = true /\ f = Back
       \/ (x <? W - 1) && black_at pixels W (x + 1) z || (x =? W - 1) = true /\ f = Right
       \/ (0 <? x) && black_at pixels W (x - 1) z || (x =? 0) = true /\ f = Left).
Proof.
  intros Hin Hside. unfold cell_faces, white_at.
  destruct (pixel_at pixels W x z) as [c|];
    [| rewrite list_elem_of_In; cbn; intuition discriminate].
  destruct (is_white c).
  - rewrite list_elem_of_In.
    destruct ((z <? H - 1) && black_at pixels W x (z + 1) || (z =? H - 1)),
             ((0 <? z) && black_at pixels W x (z - 1) || (z =? 0)),
             ((x <? W - 1) && black_at pixels W (x + 1) z || (x =? W - 1)),
             ((0 <? x) && black_at pixels W (x - 1) z || (x =? 0));
      destruct f; try discriminate Hside; cbn; intuition congruence.
  - rewrite list_elem_of_In.
    destruct (is_black c), f; try discriminate Hside; cbn; intuition congruence.
Qed.

(** A side face belongs to the faces of a wall cell exactly when the cell
    across it is outside the map or black. *)
Lemma cell_faces_side_iff (pixels : list Color) (W H x z : Z) (f : Face) :
  inside W H (x, z) = true ->
  is_side f = true ->
  f ∈ cell_faces pixels W H x z
  <-> white_at pixels W x z = true /\
      (inside W H (neighbour x z f) = false
       \/ black_at pixels W (fst (neighbour x z f)) (snd (neighbour x z f)) = true).
Proof.
  intros Hin Hside. rewrite cell_faces_side by assumption.
  apply inside_spec in Hin.
  assert (HF : (z <? H - 1) && black_at pixels W x (z + 1) || (z =? H - 1) = true
               <-> inside W H (x, z + 1) = false \/ black_at pixels W x (z + 1) = true).
  { apply side_condition.
    - rewrite Z.ltb_lt, inside_spec. lia.
    - rewrite Z.eqb_eq, <- not_true_iff_false, inside_spec. lia. }
  assert (HB : (0 <? z) && black_at pixels W x (z - 1) || (z =? 0) = true
               <-> inside W H (x, z - 1) = false \/ black_at pixels W x (z - 1) = true).
  { apply side_condition.
    - rewrite Z.ltb_lt, inside_spec. lia.
    - rewrite Z.eqb_eq, <- not_true_iff_false, inside_spec. lia. }
  assert (HR : (x <? W - 1) && black_at pixels W (x + 1) z || (x =? W - 1) = true
               <-> inside W H (x + 1, z) = false \/ black_at pixels W (x + 1) z = true).
  { apply side_condition.
    - rewrite Z.ltb_lt, inside_spec. lia.
    - rewrite Z.eqb_eq, <- not_true_iff_false, inside_spec. lia. }
  assert (HL : (0 <? x) && black_at pixels W (x - 1) z || (x =? 0) = true
               <-> inside W H (x - 1, z) = false \/ black_at pixels W (x - 1) z = true).
  { apply side_condition.
    - rewrite Z.ltb_lt, inside_spec. lia.
    - rewrite Z.eqb_eq, <- not_true_iff_false, inside_spec. lia. }
  rewrite HF, HB, HR, HL.
  destruct f; try discriminate Hside; cbn [neighbour fst snd];
    intuition congruence.
Qed.

Lemma cell_faces_black (pixels : list Color) (W H x z : Z) :
  black_at pixels W x z = true ->
  cell_faces pixels W H x z = [Ceiling; Floor].
Proof.
  unfold black_at, cell_faces.
  destruct (pixel_at pixels W x z) as [c|]; [| discriminate].
  intros Hb. rewrite (black_not_white c Hb), Hb. reflexivity.
Qed.

Lemma white_at_inside (pixels : list Color) (W H x z : Z) :
  Z.of_nat (length pixels) = W * H ->
  white_at pixels W x z = true -> inside W H (x, z) = true.
Proof.
  intros Hlen. unfold white_at.
  destruct (pixel_at pixels W x z) as [c|] eqn:Hc; [| discriminate].
  intros _. eapply pixel_at_Some_inside; eassumption.
Qed.

Lemma white_at_not_black (pixels : list Color) (W x z : Z) :
  white_at pixels W x z = true -> black_at pixels W x z = false.
Proof.
  unfold white_at, black_at. destruct (pixel_at pixels W x z); [| reflexivity].
  apply white_not_black.
Qed.

Lemma black_at_inside (pixels : list Color) (W H x z : Z) :
  Z.of_nat (length pixels) = W * H ->
  black_at pixels W x z = true -> inside W H (x, z) = true.
Proof.
  intros Hlen. unfold black_at.
  destruct (pixel_at pixels W x z) as [c|] eqn:Hc; [| discriminate].
  intros _. eapply pixel_at_Some_inside; eassumption.
Qed.

Lemma side_face_emitted (pixels : list Color) (W H x z : Z) (f : Face) :
  Z.of_nat (length pixels) = W * H ->
  is_side f = true ->
  (x, z, f) ∈ all_faces pixels W H
  <-> white_at pixels W x z = true /\
      (inside W H (neighbour x z f) = false
       \/ black_at pixels W (fst (neighbour x z f)) (snd (neighbour x z f)) = true).
Proof.
  intros Hlen Hside. rewrite elem_of_all_faces. split.
  - intros (Hx & Hz & Hf).
    apply cell_faces_side_iff in Hf; [exact Hf | apply inside_spec; lia | exact Hside].
  - intros [Hw Hn]. pose proof (white_at_inside _ _ H _ _ Hlen Hw) as Hin.
    pose proof Hin as Hin'. apply inside_spec in Hin' as [Hx Hz].
    repeat split; try lia.
    apply cell_faces_side_iff; [exact Hin | exact Hside | split; assumption].
Qed.

(** ** Selecting the faces of one cell *)

Lemma filter_none {A : Type} (P : A -> Prop) `{forall a, Decision (P a)} (l : list A) :
  (forall a, a ∈ l -> ~ P a) -> filter P l = [].
Proof.
  induction l as [|a l IH]; intros Hl; [reflexivity|].
  rewrite filter_cons_False by (apply Hl; left).
  apply IH. intros b Hb. apply Hl. right. exact Hb.
Qed.

Lemma filter_all {A : Type} (P : A -> Prop) `{forall a, Decision (P a)} (l : list A) :
  (forall a, a ∈ l -> P a) -> filter P l = l.
Proof.
  induction l as [|a l IH]; intros Hl; [reflexivity|].
  rewrite filter_cons_True by (apply Hl; left).
  f_equal. apply IH. intros b Hb. apply Hl. right. exact Hb.
Qed.

Lemma filter_bind_none {A : Type} (P : A -> Prop) `{forall a, Decision (P a)}
    (g : Z -> list A) (l : list Z) :
  (forall i, i ∈ l -> filter P (g i) = []) -> filter P (l ≫= g) = [].
Proof.
  induction l as [|i l IH]; intros Hl; [reflexivity|].
  cbn. rewrite filter_app, (Hl i) by left. cbn.
  apply IH. intros j Hj. apply Hl. right. exact Hj.
Qed.

Lemma filter_bind_seqZ {A : Type} (P : A -> Prop) `{forall a, Decision (P a)}
    (g : Z -> list A) (n k : Z) :
  (forall i, i <> k -> filter P (g i) = []) ->
  0 <= k < n ->
  filter P (seqZ 0 n ≫= g) = filter P (g k).
Proof.
  intros Hother Hk.
  replace n with (k + (1 + (n - k - 1))) by lia.
  rewrite seqZ_app, seqZ_app by lia.
  rewrite !bind_app, !filter_app.
  rewrite (filter_bind_none P g (seqZ 0 k))
    by (intros i Hi; apply elem_of_seqZ in Hi; apply Hother; lia).
  rewrite (filter_bind_none P g (seqZ (0 + k + 1) (n - k - 1)))
    by (intros i Hi; apply elem_of_seqZ in Hi; apply Hother; lia).
  change (seqZ (0 + k) 1) with [0 + k]. cbn [mbind list_bind app].
  rewrite !app_nil_r, Z.add_0_l. reflexivity.
Qed.

Lemma filter_all_faces (pixels : list Color) (W H x z : Z) :
  0 <= x < W -> 0 <= z < H ->
  filter (fun e => fst e = (x, z)) (all_faces pixels W H)
  = (fun f => (x, z, f)) <$> cell_faces pixels W H x z.
Proof.
  intros Hx Hz. unfold all_faces.
  rewrite (filter_bind_seqZ _ _ H z); [| | exact Hz].
  - unfold row_faces. rewrite (filter_bind_seqZ _ _ W x); [| | exact Hx].
    + apply filter_all. intros e He.
      apply list_elem_of_fmap in He as (f & -> & _). reflexivity.
    + intros x' Hx'. apply filter_none. intros e He.
      apply list_elem_of_fmap in He as (f & -> & _). cbn. congruence.
  - intros z' Hz'. apply filter_none. intros e He. unfold row_faces in He.
    apply list_elem_of_bind in He as (x' & He & _).
    apply list_elem_of_fmap in He as (f & -> & _). cbn. congruence.
Qed.

(** ** What a returned mesh satisfies, whatever the size of the image *)

Lemma u32_range (n : Z) : 0 <= u32 n < 2 ^ 32.
Proof. unfold u32. apply Z.mod_pos_bound. lia. Qed.

Lemma u32_le (n : Z) : 0 <= n -> u32 n <= n.
Proof. intros Hn. unfold u32. apply Z.mod_le; lia. Qed.

Lemma s32_le (n : Z) : 0 <= n < 2 ^ 32 -> s32 n <= n.
Proof.
  intros Hn. unfold s32.
  destruct (Z.lt_ge_cases n (2 ^ 31)) as [Hlt | Hge].
  - rewrite Z.mod_small; lia.
  - replace (n + 2 ^ 31) with (n - 2 ^ 31 + 1 * 2 ^ 32) by lia.
    rewrite Z.mod_add by lia. rewrite Z.mod_small; lia.
Qed.

Lemma store_Some {A : Type} (m m' : array A) (i : Z) (v : A) :
  store m i v = Some m' ->
  0 <= i < Z.of_nat (length m) /\ length m' = length m.
Proof.
  unfold store. destruct ((0 <=? i) && (i <? Z.of_nat (length m))) eqn:Hb;
    [| discriminate].
  intros [= <-]. rewrite andb_true_iff, Z.leb_le, Z.ltb_lt in Hb.
  split; [exact Hb | apply length_insert].
Qed.

Lemma store_from_Some {A : Type} (vs : list A) (m m' : array A) (i : Z) :
  store_from m i vs = Some m' ->
  length m' = length m /\
  (vs <> [] -> 0 <= i /\ i + Z.of_nat (length vs) <= Z.of_nat (length m)).
Proof.
  revert m i. induction vs as [|v vs IH]; intros m i; cbn [store_from].
  - intros [= <-]. split; [reflexivity | congruence].
  - destruct (store m i v) as [m1|] eqn:Hs; cbn [mbind option_bind]; [| discriminate].
    intros Hrest. apply store_Some in Hs as [Hi Hlen].
    apply IH in Hrest as [Hlen' Hbound]. split; [congruence |].
    intros _. destruct vs as [|w vs'].
    + cbn [length]. lia.
    + specialize (Hbound ltac:(discriminate)). cbn [length] in *. lia.
Qed.

Lemma emit_face_counts (cap : nat) (cubeSize : Q) (x z : Z) (f : Face)
    (s s' : Scratch) :
  counts_faces cap s -> emit_face cubeSize x z f s = Some s' -> counts_faces cap s'.
Proof.
  intros (Hv & Hlen & Hcap). unfold emit_face.
  destruct (store_from (mapVertices s) _ _) as [vs|] eqn:Hvs;
    cbn [mbind option_bind]; [| discriminate].
  destruct (store_from (mapNormals s) _ _) as [ns|];
    cbn [mbind option_bind]; [| discriminate].
  destruct (store_from (mapTexcoords s) _ _) as [ts|];
    cbn [mbind option_bind]; [| discriminate].
  intros [= <-]. apply store_from_Some in Hvs as [Hlen' Hbound].
  rewrite length_face_vertices in Hbound.
  specialize (Hbound ltac:(destruct f; discriminate)).
  unfold counts_faces. cbn [vCounter emitted mapVertices].
  rewrite length_app. cbn [length]. repeat split; [lia | congruence | lia].
Qed.

Lemma emit_face_if_counts (cap : nat) (b : bool) (cubeSize : Q) (x z : Z)
    (f : Face) (s s' : Scratch) :
  counts_faces cap s -> emit_face_if b cubeSize x z f s = Some s' ->
  counts_faces cap s'.
Proof.
  destruct b; cbn [emit_face_if].
  - apply emit_face_counts.
  - intros Hs [= <-]. exact Hs.
Qed.

(** Inversion of a successful step of the error monad. *)
Ltac bind_inv H :=
  match type of H with
  | (?m ≫= _) = Some _ =>
      let E := fresh "E" in
      destruct m eqn:E; cbn [mbind option_bind] in H; [| discriminate H]
  end.

Lemma GenMeshCubicmap_cell_counts (cap : nat) (cubicmap : Image)
    (cubicmapPixels : array Color) (cubeSize : Q) (z x : Z) (s s' : Scratch) :
  counts_faces cap s ->
  GenMeshCubicmap_cell cubicmap cubicmapPixels cubeSize z s x = Some s' ->
  counts_faces cap s'.
Proof.
  intros Hs Hcell. unfold GenMeshCubicmap_cell in Hcell. cbv zeta in Hcell.
  bind_inv Hcell.
  destruct (is_white _); [| destruct (is_black _)].
  - repeat bind_inv Hcell.
    repeat match goal with
           | E : emit_face _ _ _ _ ?t = Some ?t', Ht : counts_faces cap ?t |- _ =>
               apply (emit_face_counts cap _ _ _ _ t t' Ht) in E
           | E : emit_face_if _ _ _ _ _ ?t = Some ?t', Ht : counts_faces cap ?t |- _ =>
               apply (emit_face_if_counts cap _ _ _ _ _ t t' Ht) in E
           end.
    assumption.
  - bind_inv Hcell.
    eapply emit_face_counts; [| exact Hcell].
    eapply emit_face_counts; eassumption.
  - injection Hcell as <-. exact Hs.
Qed.

(** A mesh that the generator returns has 6 vertices per emitted face,
    whole triangles, and no more vertices than the scratch arrays have
    cells; this needs no bound on the size of the image. *)
Lemma GenMeshCubicmap_returned_vertexCount
    (cubicmap : Image) (cubeSize : Q) (mesh : Mesh) (faces : list (Z * Z * Face)) :
  0 <= Image_width cubicmap -> 0 <= Image_height cubicmap ->
  GenMeshCubicmap_faces cubicmap cubeSize = Some (mesh, faces) ->
  Mesh_vertexCount mesh = 6 * Z.of_nat (length faces)
  /\ Mesh_vertexCount mesh mod 3 = 0
  /\ Mesh_vertexCount mesh <= Image_width cubicmap * Image_height cubicmap * 12 * 3.
Proof.
  intros HW HH Hrun. unfold GenMeshCubicmap_faces in Hrun. cbv zeta in Hrun.
  bind_inv Hrun. bind_inv Hrun. bind_inv Hrun.
  rename E0 into Hcount, E1 into Hloops.
  match type of Hloops with
  | for_range _ _ _ ?s0 = Some ?s1 =>
      assert (Hinv : counts_faces (Z.to_nat z) s1)
  end.
  { unfold for_range in Hloops.
    eapply (for_loop_preserves (counts_faces (Z.to_nat z))); [| | exact Hloops].
    - intros t i t' Ht Hrow. unfold for_range in Hrow.
      eapply (for_loop_preserves (counts_faces (Z.to_nat z))); [| exact Ht | exact Hrow].
      intros u j u' Hu Hcell. eapply GenMeshCubicmap_cell_counts; eassumption.
    - unfold counts_faces. cbn [vCounter emitted mapVertices length].
      unfold malloc. rewrite length_replicate. repeat split; lia. }
  repeat bind_inv Hrun.
  repeat match type of Hrun with
         | (let '(_, _) := ?p in _) = Some _ => destruct p
         | (?m ≫= _) = Some _ => bind_inv Hrun
         end.
  injection Hrun as <- <-.
  destruct Hinv as (Hv & _ & Hcap). cbn [Mesh_vertexCount].
  split; [exact Hv |]. split.
  - rewrite Hv.
    replace (6 * Z.of_nat (length (emitted s))) with (2 * Z.of_nat (length (emitted s)) * 3) by lia.
    apply Z.mod_mul. lia.
  - unfold int_mul in Hcount.
    destruct (_ && _); [| discriminate]. injection Hcount as <-.
    assert (Harea : 0 <= Image_width cubicmap * Image_height cubicmap) by nia.
    pose proof (u32_le _ Harea) as H1.
    pose proof (u32_range (Image_width cubicmap * Image_height cubicmap)) as H2.
    pose proof (u32_le (u32 (Image_width cubicmap * Image_height cubicmap) * 12)
                  ltac:(lia)) as H3.
    pose proof (u32_range (u32 (Image_width cubicmap * Image_height cubicmap) * 12)) as H4.
    pose proof (s32_le _ H4) as H5.
    lia.
Qed.

(** ** Where the faces of a cell stand in the mesh *)

Lemma bind_seqZ_split {A : Type} (g : Z -> list A) (n k : Z) :
  0 <= k < n ->
  seqZ 0 n ≫= g = (seqZ 0 k ≫= g) ++ g k ++ (seqZ (k + 1) (n - k - 1) ≫= g).
Proof.
  intros Hk.
  replace n with (k + (1 + (n - k - 1))) at 1 by lia.
  rewrite seqZ_app, seqZ_app by lia. rewrite !bind_app.
  change (seqZ (0 + k) 1) with [0 + k]. cbn [mbind list_bind app].
  rewrite app_nil_r, !Z.add_0_l. reflexivity.
Qed.

(** The faces of one cell stand together in the list of the emitted faces,
    between the faces of the cells before it and those of the cells after
    it. *)
Lemma all_faces_split (pixels : list Color) (W H x z : Z) :
  0 <= x < W -> 0 <= z < H ->
  exists before after,
    all_faces pixels W H
    = before ++ ((fun f => (x, z, f)) <$> cell_faces pixels W H x z) ++ after
    /\ forall e, e ∈ before ++ after -> fst e <> (x, z).
Proof.
  intros Hx Hz. unfold all_faces.
  rewrite (bind_seqZ_split _ H z Hz). unfold row_faces at 2.
  rewrite (bind_seqZ_split _ W x Hx).
  set (rows_before := seqZ 0 z ≫= row_faces pixels W H).
  set (rows_after := seqZ (z + 1) (H - z - 1) ≫= row_faces pixels W H).
  set (cell := fun x' => (fun f => (x', z, f)) <$> cell_faces pixels W H x' z).
  set (cells_before := seqZ 0 x ≫= cell).
  set (cells_after := seqZ (x + 1) (W - x - 1) ≫= cell).
  exists (rows_before ++ cells_before), (cells_after ++ rows_after).
  split; [rewrite <- !app_assoc; reflexivity |].
  assert (Hrow : forall l e, e ∈ l ≫= row_faces pixels W H ->
                   exists z', z' ∈ l /\ snd (fst e) = z').
  { intros l e He. apply list_elem_of_bind in He as (z' & He & Hz').
    exists z'. split; [exact Hz' |]. unfold row_faces in He.
    apply list_elem_of_bind in He as (x' & He & _).
    apply list_elem_of_fmap in He as (f & -> & _). reflexivity. }
  assert (Hcell : forall l e, e ∈ l ≫= cell ->
                    exists x', x' ∈ l /\ fst (fst e) = x').
  { intros l e He. apply list_elem_of_bind in He as (x' & He & Hx').
    exists x'. split; [exact Hx' |].
    apply list_elem_of_fmap in He as (f & -> & _). reflexivity. }
  intros e He Heq. rewrite !elem_of_app in He.
  destruct He as [[He | He] | [He | He]].
  - apply Hrow in He as (z' & Hz' & E). apply elem_of_seqZ in Hz'.
    rewrite Heq in E. cbn in E. lia.
  - apply Hcell in He as (x' & Hx' & E). apply elem_of_seqZ in Hx'.
    rewrite Heq in E. cbn in E. lia.
  - apply Hcell in He as (x' & Hx' & E). apply elem_of_seqZ in Hx'.
    rewrite Heq in E. cbn in E. lia.
  - apply Hrow in He as (z' & Hz' & E). apply elem_of_seqZ in Hz'.
    rewrite Heq in E. cbn in E. lia.
Qed.

(** The part of a mesh array that belongs to some of the faces. *)
Lemma mesh_array_slice {A B : Type} (g : A -> list B) (h : B -> list Q)
    (kg kh : nat) (before mid after : list A) :
  (forall a, length (g a) = kg) -> (forall b, length (h b) = kh) ->
  slice (kh * kg * length before) (kh * kg * length mid)
    (Some <$> ((before ++ mid ++ after) ≫= g) ≫= h)
  = Some <$> ((mid ≫= g) ≫= h).
Proof.
  intros Hg Hh. unfold slice. rewrite !bind_app, !fmap_app.
  rewrite drop_app_length'
    by (rewrite length_fmap, (length_bind_const h kh), (length_bind_const g kg);
        [lia | assumption | assumption]).
  rewrite take_app_length'
    by (rewrite length_fmap, (length_bind_const h kh), (length_bind_const g kg);
        [lia | assumption | assumption]).
  reflexivity.
Qed.

(** A slice that is known cell by cell holds the expected values. *)
Ltac holds_values :=
  unfold holds;
  repeat (constructor; [eexists; split; [reflexivity | try reflexivity; ring] |]);
  constructor.

(** ** Claims on the mesh generator *)

(** C4.  Between two adjacent wall (pure-white) cells the generator emits
    the face on the shared boundary from neither of them; in general a side
    face of a cell is emitted exactly when the cell is a wall and the cell
    across that face is outside the map or open (pure black). *)
Theorem GenMeshCubicmap_culls_shared_faces
    (cubicmap : Image) (pixels : list Color) (cubeSize : Q) :
  grid_of cubicmap pixels ->
  exists mesh faces,
    GenMeshCubicmap_faces cubicmap cubeSize = Some (mesh, faces) /\
    (forall x z,
        white_at pixels (Image_width cubicmap) x z = true ->
        white_at pixels (Image_width cubicmap) (x + 1) z = true ->
        ((x, z, Right) ∉ faces) /\ ((x + 1, z, Left) ∉ faces)) /\
    (forall x z,
        white_at pixels (Image_width cubicmap) x z = true ->
        white_at pixels (Image_width cubicmap) x (z + 1) = true ->
        ((x, z, Front) ∉ faces) /\ ((x, z + 1, Back) ∉ faces)) /\
    (forall x z f,
        is_side f = true ->
        (x, z, f) ∈ faces
        <-> white_at pixels (Image_width cubicmap) x z = true /\
            (inside (Image_width cubicmap) (Image_height cubicmap) (neighbour x z f) = false
             \/ black_at pixels (Image_width cubicmap)
                  (fst (neighbour x z f)) (snd (neighbour x z f)) = true)).
Proof.
  intros Hgrid. pose proof (grid_length cubicmap pixels Hgrid) as Hlen.
  eexists _, _. split; [apply GenMeshCubicmap_faces_eq, Hgrid |].
  assert (Hno : forall x z f,
             is_side f = true ->
             white_at pixels (Image_width cubicmap)
               (fst (neighbour x z f)) (snd (neighbour x z f)) = true ->
             (x, z, f) ∉ all_faces pixels (Image_width cubicmap) (Image_height cubicmap)).
  { intros x z f Hside Hw Hin.
    apply side_face_emitted in Hin as [_ [Hout | Hblack]]; try assumption.
    - apply (white_at_inside _ _ _ _ _ Hlen) in Hw.
      destruct (neighbour x z f). cbn [fst snd] in Hw. congruence.
    - apply white_at_not_black in Hw. congruence. }
  split; [| split].
  - intros x z Hw Hw'. split.
    + apply Hno; [reflexivity | exact Hw'].
    + apply Hno; [reflexivity |]. cbn [neighbour fst snd].
      replace (x + 1 - 1) with x by lia. exact Hw.
  - intros x z Hw Hw'. split.
    + apply Hno; [reflexivity | exact Hw'].
    + apply Hno; [reflexivity |]. cbn [neighbour fst snd].
      replace (z + 1 - 1) with z by lia. exact Hw.
  - intros x z f Hside. apply side_face_emitted; assumption.
Qed.

Lemma GenMeshCubicmap_culls_shared_faces_witness :
  grid_of map_ring pixels_ring
  /\ exists mesh faces,
       GenMeshCubicmap_faces map_ring 1 = Some (mesh, faces)
       /\ ((0, 0, Right) ∉ faces) /\ ((1, 0, Left) ∉ faces).
Proof.
  assert (Hgrid : grid_of map_ring pixels_ring)
    by (split; [unfold well_sized, INT_MAX; cbn; lia | reflexivity]).
  split; [exact Hgrid |].
  destruct (GenMeshCubicmap_culls_shared_faces map_ring pixels_ring 1 Hgrid)
    as (mesh & faces & Hrun & Hx & _ & _).
  exists mesh, faces. split; [exact Hrun |]. apply (Hx 0 0); reflexivity.
Defined.

(** C5.  For an open (pure-black) cell the generator emits exactly two
    faces, the ceiling and the floor, and no side face; the mesh that it
    returns holds their 2 + 2 triangles: its arrays are those of the
    emitted faces, and the 12 vertices of the cell stand in them behind
    the vertices of the faces emitted before the cell, the ceiling across
    the footprint at the height of the cube with the normal pointing down,
    the floor across the footprint on the ground with the normal pointing
    up, both with the texture rectangles of the top and bottom faces. *)
Theorem GenMeshCubicmap_open_cell
    (cubicmap : Image) (pixels : list Color) (cubeSize : Q) :
  grid_of cubicmap pixels ->
  exists mesh faces,
    GenMeshCubicmap_faces cubicmap cubeSize = Some (mesh, faces) /\
    GenMeshCubicmap cubicmap cubeSize = Some mesh /\
    mesh = mesh_of_faces cubeSize faces /\
    forall x z,
      black_at pixels (Image_width cubicmap) x z = true ->
      filter (fun e => fst e = (x, z)) faces = [(x, z, Ceiling); (x, z, Floor)] /\
      (forall f, is_side f = true -> (x, z, f) ∉ faces) /\
      exists before after,
        faces = before ++ [(x, z, Ceiling); (x, z, Floor)] ++ after /\
        (forall e, e ∈ before ++ after -> fst e <> (x, z)) /\
        holds (slice (18 * length before) 36 (Mesh_vertices mesh))
          (box_points cubeSize x z
             [(- (1 # 2), 1, - (1 # 2)); (1 # 2, 1, 1 # 2); (- (1 # 2), 1, 1 # 2);
              (- (1 # 2), 1, - (1 # 2)); (1 # 2, 1, - (1 # 2)); (1 # 2, 1, 1 # 2);
              (- (1 # 2), 0, - (1 # 2)); (- (1 # 2), 0, 1 # 2); (1 # 2, 0, 1 # 2);
              (- (1 # 2), 0, - (1 # 2)); (1 # 2, 0, 1 # 2); (1 # 2, 0, - (1 # 2))]%Q) /\
        holds (slice (18 * length before) 36 (Mesh_normals mesh))
          [0; - (1); 0; 0; - (1); 0; 0; - (1); 0; 0; - (1); 0; 0; - (1); 0; 0; - (1); 0;
           0; 1; 0; 0; 1; 0; 0; 1; 0; 0; 1; 0; 0; 1; 0; 0; 1; 0]%Q /\
        holds (slice (12 * length before) 24 (Mesh_texcoords mesh))
          [0; 1 # 2; 1 # 2; 1; 0; 1; 0; 1 # 2; 1 # 2; 1 # 2; 1 # 2; 1;
           1; 1 # 2; 1; 1; 1 # 2; 1; 1; 1 # 2; 1 # 2; 1; 1 # 2; 1 # 2]%Q.
Proof.
  intros Hgrid. pose proof (grid_length cubicmap pixels Hgrid) as Hlen.
  pose proof (GenMeshCubicmap_faces_eq _ _ cubeSize Hgrid) as Hrun.
  eexists _, _. split; [exact Hrun |].
  split; [unfold GenMeshCubicmap; rewrite Hrun; reflexivity |].
  split; [reflexivity |].
  intros x z Hb.
  pose proof (black_at_inside _ _ _ _ _ Hlen Hb) as Hin.
  apply inside_spec in Hin as [Hx Hz].
  split; [| split].
  - rewrite filter_all_faces, (cell_faces_black _ _ _ _ _ Hb) by assumption.
    reflexivity.
  - intros f Hside Hin. apply elem_of_all_faces in Hin as (_ & _ & Hf).
    rewrite (cell_faces_black _ _ _ _ _ Hb), list_elem_of_In in Hf.
    destruct f; try discriminate Hside; cbn in Hf; intuition discriminate.
  - destruct (all_faces_split pixels _ _ x z Hx Hz) as (before & after & Hsplit & Hother).
    rewrite (cell_faces_black _ _ _ _ _ Hb) in Hsplit.
    cbn [fmap list_fmap] in Hsplit.
    exists before, after. split; [exact Hsplit |]. split; [exact Hother |].
    rewrite Hsplit. unfold mesh_of_faces.
    cbn [Mesh_vertices Mesh_normals Mesh_texcoords].
    replace (18 * length before)%nat with (3 * 6 * length before)%nat by lia.
    replace (12 * length before)%nat with (2 * 6 * length before)%nat by lia.
    change 36%nat with (3 * 6 * length [(x, z, Ceiling); (x, z, Floor)])%nat.
    change 24%nat with (2 * 6 * length [(x, z, Ceiling); (x, z, Floor)])%nat.
    rewrite (mesh_array_slice (face_entry_vertices cubeSize) xyz 6 3),
      (mesh_array_slice face_entry_normals xyz 6 3),
      (mesh_array_slice face_entry_texcoords xy 6 2);
      try (intros []; reflexivity);
      try (intros [[x' z'] f']; destruct f'; reflexivity).
    repeat split; cbn; holds_values.
Qed.

Lemma GenMeshCubicmap_open_cell_witness :
  grid_of map_ring pixels_ring
  /\ exists mesh faces,
       GenMeshCubicmap_faces map_ring 1 = Some (mesh, faces)
       /\ mesh = mesh_of_faces 1 faces
       /\ filter (fun e => fst e = (1, 1)) faces = [(1, 1, Ceiling); (1, 1, Floor)].
Proof.
  assert (Hgrid : grid_of map_ring pixels_ring)
    by (split; [unfold well_sized, INT_MAX; cbn; lia | reflexivity]).
  split; [exact Hgrid |].
  destruct (GenMeshCubicmap_open_cell map_ring pixels_ring 1 Hgrid)
    as (mesh & faces & Hrun & _ & Hmesh & Hopen).
  exists mesh, faces. split; [exact Hrun | split; [exact Hmesh |]].
  apply (Hopen 1 1). reflexivity.
Defined.

(** C6.  The vertex count of a mesh that the generator returns is a
    multiple of 3, is 6 times the number of emitted faces and is at most
    W*H*12*3, for every image and every cube size; and the generator does
    return a mesh for every image whose sizes fit the range of [int]. *)
Theorem GenMeshCubicmap_vertexCount (cubicmap : Image) (cubeSize : Q) :
  0 <= Image_width cubicmap -> 0 <= Image_height cubicmap ->
  (forall mesh faces,
      GenMeshCubicmap_faces cubicmap cubeSize = Some (mesh, faces) ->
      Mesh_vertexCount mesh mod 3 = 0 /\
      Mesh_vertexCount mesh = 6 * Z.of_nat (length faces) /\
      Mesh_vertexCount mesh
      <= Image_width cubicmap * Image_height cubicmap * 12 * 3)
  /\ (forall pixels,
        grid_of cubicmap pixels ->
        exists mesh faces,
          GenMeshCubicmap_faces cubicmap cubeSize = Some (mesh, faces) /\
          GenMeshCubicmap cubicmap cubeSize = Some mesh).
Proof.
  intros HW HH. split.
  - intros mesh faces Hrun.
    destruct (GenMeshCubicmap_returned_vertexCount _ _ _ _ HW HH Hrun)
      as (Hsix & Hmod & Hmax).
    repeat split; assumption.
  - intros pixels Hgrid. eexists _, _.
    split; [apply GenMeshCubicmap_faces_eq, Hgrid |].
    unfold GenMeshCubicmap.
    rewrite (GenMeshCubicmap_faces_eq _ _ _ Hgrid). reflexivity.
Qed.

Lemma GenMeshCubicmap_vertexCount_witness :
  0 <= Image_width map_ring
  /\ 0 <= Image_height map_ring
  /\ grid_of map_ring pixels_ring
  /\ exists mesh faces,
       GenMeshCubicmap_faces map_ring 1 = Some (mesh, faces)
       /\ Mesh_vertexCount mesh mod 3 = 0
       /\ Mesh_vertexCount mesh = 6 * Z.of_nat (length faces)
       /\ Mesh_vertexCount mesh
          <= Image_width map_ring * Image_height map_ring * 12 * 3.
Proof.
  assert (Hgrid : grid_of map_ring pixels_ring)
    by (split; [unfold well_sized, INT_MAX; cbn; lia | reflexivity]).
  assert (HW : 0 <= Image_width map_ring) by (cbn; lia).
  assert (HH : 0 <= Image_height map_ring) by (cbn; lia).
  split; [exact HW | split; [exact HH | split; [exact Hgrid |]]].
  destruct (GenMeshCubicmap_vertexCount map_ring 1 HW HH) as [Hany Hsome].
  destruct (Hsome pixels_ring Hgrid) as (mesh & faces & Hrun & _).
  exists mesh, faces. split; [exact Hrun | exact (Hany mesh faces Hrun)].
Defined.

Lemma ring_all_faces (pixels : list Color) :
  Z.of_nat (length pixels) = 3 * 3 ->
  (forall x z, 0 <= x < 3 -> 0 <= z < 3 -> (x, z) <> (1, 1) ->
               white_at pixels 3 x z = true) ->
  black_at pixels 3 1 1 = true ->
  all_faces pixels 3 3 = ring_faces.
Proof.
  intros Hlen Hw Hb.
  destruct pixels as [|c0 [|c1 [|c2 [|c3 [|c4 [|c5 [|c6 [|c7 [|c8 [|c9 l]]]]]]]]]];
    cbn [length] in Hlen; try lia.
  assert (H0 := Hw 0 0 ltac:(lia) ltac:(lia) ltac:(congruence)).
  assert (H1 := Hw 1 0 ltac:(lia) ltac:(lia) ltac:(congruence)).
  assert (H2 := Hw 2 0 ltac:(lia) ltac:(lia) ltac:(congruence)).
  assert (H3 := Hw 0 1 ltac:(lia) ltac:(lia) ltac:(congruence)).
  assert (H5 := Hw 2 1 ltac:(lia) ltac:(lia) ltac:(congruence)).
  assert (H6 := Hw 0 2 ltac:(lia) ltac:(lia) ltac:(congruence)).
  assert (H7 := Hw 1 2 ltac:(lia) ltac:(lia) ltac:(congruence)).
  assert (H8 := Hw 2 2 ltac:(lia) ltac:(lia) ltac:(congruence)).
  cbv -[is_white is_black] in H0, H1, H2, H3, H5, H6, H7, H8, Hb.
  pose proof (white_not_black _ H0). pose proof (white_not_black _ H1).
  pose proof (white_not_black _ H2). pose proof (white_not_black _ H3).
  pose proof (white_not_black _ H5). pose proof (white_not_black _ H6).
  pose proof (white_not_black _ H7). pose proof (white_not_black _ H8).
  pose proof (black_not_white _ Hb).
  cbv -[is_white is_black].
  repeat match goal with
         | E : is_white _ = _ |- _ => rewrite !E; clear E
         | E : is_black _ = _ |- _ => rewrite !E; clear E
         end.
  reflexivity.
Qed.

(** C7.  On the 3 x 3 map whose cells are walls except the open centre,
    the mesh consists of the two horizontal faces of each of the 9 cells,
    the 4 side faces that look at the centre cell and the 12 side faces on
    the border of the map, and of nothing else: these 34 faces are the
    emitted ones, and the arrays of the mesh are theirs, 612 coordinates,
    408 texture coordinates and 612 normal components.  In the array of
    the vertices stand the four walls around the centre cell, each the two
    triangles of the square between a wall cell and the centre cell, and
    for every cell the square over its footprint at the height of the cube
    and the one on the ground. *)
Theorem GenMeshCubicmap_ring_3x3
    (cubicmap : Image) (pixels : list Color) (cubeSize : Q) :
  grid_of cubicmap pixels ->
  Image_width cubicmap = 3 -> Image_height cubicmap = 3 ->
  (forall x z, 0 <= x < 3 -> 0 <= z < 3 -> (x, z) <> (1, 1) ->
               white_at pixels 3 x z = true) ->
  black_at pixels 3 1 1 = true ->
  exists mesh faces,
    GenMeshCubicmap_faces cubicmap cubeSize = Some (mesh, faces) /\
    GenMeshCubicmap cubicmap cubeSize = Some mesh /\
    faces = ring_faces /\
    mesh = mesh_of_faces cubeSize faces /\
    Mesh_vertexCount mesh = 6 * (18 + 4 + 12) /\
    length (Mesh_vertices mesh) = 612%nat /\
    length (Mesh_texcoords mesh) = 408%nat /\
    length (Mesh_normals mesh) = 612%nat /\
    filter (fun e => inward 3 3 e = true) faces
    = [(1, 0, Front); (0, 1, Right); (2, 1, Left); (1, 2, Back)] /\
    filter (fun e => is_side (snd e) = false) faces
    = [(0, 0, Top); (0, 0, Bottom); (1, 0, Top); (1, 0, Bottom);
       (2, 0, Top); (2, 0, Bottom); (0, 1, Top); (0, 1, Bottom);
       (1, 1, Ceiling); (1, 1, Floor); (2, 1, Top); (2, 1, Bottom);
       (0, 2, Top); (0, 2, Bottom); (1, 2, Top); (1, 2, Bottom);
       (2, 2, Top); (2, 2, Bottom)] /\
    filter (fun e => outward 3 3 e = true) faces
    = [(0, 0, Back); (0, 0, Left); (1, 0, Back); (2, 0, Back); (2, 0, Right);
       (0, 1, Left); (2, 1, Right); (0, 2, Front); (0, 2, Left);
       (1, 2, Front); (2, 2, Front); (2, 2, Right)] /\
    holds (slice (18 * 6) 18 (Mesh_vertices mesh))
      (box_points cubeSize 1 0
         [(- (1 # 2), 1, 1 # 2); (- (1 # 2), 0, 1 # 2); (1 # 2, 1, 1 # 2);
          (1 # 2, 1, 1 # 2); (- (1 # 2), 0, 1 # 2); (1 # 2, 0, 1 # 2)]%Q) /\
    holds (slice (18 * 14) 18 (Mesh_vertices mesh))
      (box_points cubeSize 0 1
         [(1 # 2, 1, 1 # 2); (1 # 2, 0, 1 # 2); (1 # 2, 1, - (1 # 2));
          (1 # 2, 1, - (1 # 2)); (1 # 2, 0, 1 # 2); (1 # 2, 0, - (1 # 2))]%Q) /\
    holds (slice (18 * 21) 18 (Mesh_vertices mesh))
      (box_points cubeSize 2 1
         [(- (1 # 2), 1, - (1 # 2)); (- (1 # 2), 0, 1 # 2); (- (1 # 2), 1, 1 # 2);
          (- (1 # 2), 1, - (1 # 2)); (- (1 # 2), 0, - (1 # 2)); (- (1 # 2), 0, 1 # 2)]%Q) /\
    holds (slice (18 * 29) 18 (Mesh_vertices mesh))
      (box_points cubeSize 1 2
         [(- (1 # 2), 1, - (1 # 2)); (1 # 2, 0, - (1 # 2)); (- (1 # 2), 0, - (1 # 2));
          (- (1 # 2), 1, - (1 # 2)); (1 # 2, 1, - (1 # 2)); (1 # 2, 0, - (1 # 2))]%Q) /\
    Forall (fun '(x, z, first) =>
              holds (slice (18 * first) 36 (Mesh_vertices mesh))
                (box_points cubeSize x z
                   [(- (1 # 2), 1, - (1 # 2)); (- (1 # 2), 1, 1 # 2); (1 # 2, 1, 1 # 2);
                    (- (1 # 2), 1, - (1 # 2)); (1 # 2, 1, 1 # 2); (1 # 2, 1, - (1 # 2));
                    (- (1 # 2), 0, - (1 # 2)); (1 # 2, 0, 1 # 2); (- (1 # 2), 0, 1 # 2);
                    (- (1 # 2), 0, - (1 # 2)); (1 # 2, 0, - (1 # 2)); (1 # 2, 0, 1 # 2)]%Q))
      [(0, 0, 0%nat); (1, 0, 4%nat); (2, 0, 8%nat); (0, 1, 12%nat);
       (2, 1, 18%nat); (0, 2, 22%nat); (1, 2, 26%nat); (2, 2, 30%nat)] /\
    holds (slice (18 * 16) 36 (Mesh_vertices mesh))
      (box_points cubeSize 1 1
         [(- (1 # 2), 1, - (1 # 2)); (1 # 2, 1, 1 # 2); (- (1 # 2), 1, 1 # 2);
          (- (1 # 2), 1, - (1 # 2)); (1 # 2, 1, - (1 # 2)); (1 # 2, 1, 1 # 2);
          (- (1 # 2), 0, - (1 # 2)); (- (1 # 2), 0, 1 # 2); (1 # 2, 0, 1 # 2);
          (- (1 # 2), 0, - (1 # 2)); (1 # 2, 0, 1 # 2); (1 # 2, 0, - (1 # 2))]%Q).
Proof.
  intros Hgrid HW HH Hw Hb.
  pose proof (grid_length cubicmap pixels Hgrid) as Hlen.
  pose proof (GenMeshCubicmap_faces_eq cubicmap pixels cubeSize Hgrid) as Hrun.
  rewrite HW, HH in Hrun, Hlen.
  rewrite (ring_all_faces pixels Hlen Hw Hb) in Hrun.
  eexists _, _. split; [exact Hrun |].
  split; [unfold GenMeshCubicmap; rewrite Hrun; reflexivity |].
  split; [reflexivity |]. split; [reflexivity |].
  do 6 (split; [vm_compute; reflexivity |]).
  repeat split;
    repeat (apply Forall_cons; split); try apply Forall_nil;
    cbn; holds_values.
Qed.

Lemma GenMeshCubicmap_ring_3x3_witness :
  grid_of map_ring pixels_ring
  /\ exists mesh faces,
       GenMeshCubicmap_faces map_ring 1 = Some (mesh, faces)
       /\ faces = ring_faces
       /\ mesh = mesh_of_faces 1 faces
       /\ Mesh_vertexCount mesh = 204.
Proof.
  assert (Hgrid : grid_of map_ring pixels_ring)
    by (split; [unfold well_sized, INT_MAX; cbn; lia | reflexivity]).
  split; [exact Hgrid |].
  destruct (GenMeshCubicmap_ring_3x3 map_ring pixels_ring 1 Hgrid eq_refl eq_refl)
    as (mesh & faces & Hrun & _ & Hfaces & Hmesh & Hcount & _).
  - intros x z Hx Hz Hne.
    assert (Hcases : x = 0 \/ x = 1 \/ x = 2) by lia.
    assert (Hcases' : z = 0 \/ z = 1 \/ z = 2) by lia.
    destruct Hcases as [-> | [-> | ->]], Hcases' as [-> | [-> | ->]];
      solve [reflexivity | congruence].
  - reflexivity.
  - exists mesh, faces. repeat split; assumption.
Defined.

(** C9.  On an image without pixels (0 x 0, whatever its format field and
    data pointer) the generator returns the empty mesh: no cell of any
    array is read or written. *)
Theorem GenMeshCubicmap_empty_image (fmt : Z) (data : list Z) (cubeSize : Q) :
  GenMeshCubicmap_faces (mkImage 0 0 fmt data) cubeSize = Some (mkMesh 0 [] [] [], [])
  /\ GenMeshCubicmap (mkImage 0 0 fmt data) cubeSize = Some (mkMesh 0 [] [] []).
Proof. split; reflexivity. Qed.

(** ** The circle/rectangle test *)

(** The integer part of a rational that is not negative. *)
Lemma Qtrunc_between (q : Q) (n : Z) :
  0 <= n -> (inject_Z n <= q)%Q -> (q < inject_Z n + 1)%Q -> Qtrunc q = n.
Proof.
  intros Hn Hlo Hhi. unfold Qtrunc. destruct q as [num den].
  unfold Qle, Qlt, Qplus, inject_Z in Hlo, Hhi. cbn in Hlo, Hhi.
  cbn [Qnum Qden]. symmetry.
  apply Z.quot_unique with (r := num - Z.pos den * n); lia.
Qed.

(** An equation between integers written as rationals. *)
Ltac integer_equation :=
  unfold Qeq, Qminus, Qplus, Qmult, Qopp, inject_Z; cbn [Qnum Qden]; lia.

(** Rounding stays between two floats. *)
Lemma Qround_float_between (lo hi q : Q) :
  (Qround_float lo == lo)%Q -> (Qround_float hi == hi)%Q ->
  (lo <= q <= hi)%Q -> (lo <= Qround_float q <= hi)%Q.
Proof.
  intros Hlo Hhi [H1 H2].
  pose proof (Qround_float_le lo q H1). pose proof (Qround_float_le q hi H2).
  lra.
Qed.

(** The quarters up to [2 ^ 22] are floats. *)
Lemma Qround_float_quarters (n : Z) :
  Z.abs n < 2 ^ 24 ->
  (Qround_float (inject_Z n * (1 # 4)) == inject_Z n * (1 # 4))%Q.
Proof.
  intros Hn. apply (Qround_float_scaled n 2); lia.
Qed.

(** A coordinate of the player that lies between [x - 1/2] and [x + 1/4],
    plus one half, converts to [x]. *)
Lemma float_cell_of_position (p m : Q) (x : Z) :
  0 <= x < 2 ^ 22 ->
  (inject_Z x - (1 # 2) <= p - m <= inject_Z x + (1 # 4))%Q ->
  int_of_float (float_add (float_sub (Ffinite p) (Ffinite m)) (Ffinite (1 # 2))) = x.
Proof.
  intros Hx Hp. cbn [float_sub float_opp float_add].
  assert (H22 : 2 ^ 22 = 4194304) by reflexivity.
  assert (H24 : 2 ^ 24 = 16777216) by reflexivity.
  assert (Hlo : (inject_Z x - (1 # 2) == inject_Z (4 * x - 2) * (1 # 4))%Q)
    by integer_equation.
  assert (Hhi : (inject_Z x + (1 # 4) == inject_Z (4 * x + 1) * (1 # 4))%Q)
    by integer_equation.
  assert (Hlo' : (inject_Z x == inject_Z (4 * x) * (1 # 4))%Q)
    by integer_equation.
  assert (Hhi' : (inject_Z x + (3 # 4) == inject_Z (4 * x + 3) * (1 # 4))%Q)
    by integer_equation.
  assert (Hbig : (inject_Z x + 1 <= 2 ^ 127)%Q).
  { assert (H : (inject_Z x <= inject_Z (2 ^ 22))%Q) by (rewrite <- Zle_Qle; lia).
    assert ((inject_Z (2 ^ 22) + 1 <= 2 ^ 127)%Q) by (vm_compute; discriminate).
    lra. }
  assert (Hx0 : (0 <= inject_Z x)%Q) by (rewrite <- (Zle_Qle 0); lia).
  pose proof (Qround_float_between
                (inject_Z (4 * x - 2) * (1 # 4)) (inject_Z (4 * x + 1) * (1 # 4))
                (p + - m)
                (Qround_float_quarters (4 * x - 2) ltac:(lia))
                (Qround_float_quarters (4 * x + 1) ltac:(lia)) ltac:(lra)) as Ha.
  rewrite (float_round_small (p + - m)) by (apply Qabs_Qle_condition; lra).
  cbn [float_add].
  set (a := Qround_float (p + - m)) in *.
  pose proof (Qround_float_between
                (inject_Z (4 * x) * (1 # 4)) (inject_Z (4 * x + 3) * (1 # 4))
                (a + (1 # 2))
                (Qround_float_quarters (4 * x) ltac:(lia))
                (Qround_float_quarters (4 * x + 3) ltac:(lia)) ltac:(lra)) as Hs.
  rewrite (float_round_small (a + (1 # 2))) by (apply Qabs_Qle_condition; lra).
  cbn [int_of_float]. apply Qtrunc_between; [lia | lra | lra].
Qed.

(** A corner of the rectangle of a cell: an offset of the map between
    [- 1/2] and [1/4], plus one half, plus the column, converts to the
    column. *)
Lemma float_cell_corner (m : Q) (x : Z) :
  0 <= x < 2 ^ 22 ->
  (- (1 # 2) <= m <= 1 # 4)%Q ->
  int_of_float (float_add (float_add (Ffinite m) (Ffinite (1 # 2)))
                          (float_mul (float_of_int x) (Ffinite 1))) = x.
Proof.
  intros Hx Hm.
  assert (H22 : 2 ^ 22 = 4194304) by reflexivity.
  assert (H24 : 2 ^ 24 = 16777216) by reflexivity.
  assert (Hbig : (inject_Z x + 1 <= 2 ^ 127)%Q).
  { assert (H : (inject_Z x <= inject_Z (2 ^ 22))%Q) by (rewrite <- Zle_Qle; lia).
    assert ((inject_Z (2 ^ 22) + 1 <= 2 ^ 127)%Q) by (vm_compute; discriminate).
    lra. }
  assert (Hx0 : (0 <= inject_Z x)%Q) by (rewrite <- (Zle_Qle 0); lia).
  assert (Hint : (Qround_float (inject_Z x) == inject_Z x)%Q)
    by (apply Qround_float_int; lia).
  unfold float_of_int.
  rewrite (float_round_small (inject_Z x)) by (apply Qabs_Qle_condition; lra).
  cbn [float_add float_mul].
  rewrite (float_round_small (Qround_float (inject_Z x) * 1))
    by (rewrite Hint; apply Qabs_Qle_condition; lra).
  assert (Hcol : (Qround_float (Qround_float (inject_Z x) * 1) == inject_Z x)%Q).
  { assert (E : (Qround_float (inject_Z x) * 1 == inject_Z x)%Q) by (rewrite Hint; ring).
    rewrite E. exact Hint. }
  set (c := Qround_float (Qround_float (inject_Z x) * 1)) in *.
  pose proof (Qround_float_between 0 (inject_Z 3 * (1 # 4)) (m + (1 # 2))
                Qround_float_0 (Qround_float_quarters 3 ltac:(lia))
                ltac:(change (inject_Z 3 * (1 # 4))%Q with (3 # 4)%Q; lra)) as Ha.
  change (inject_Z 3 * (1 # 4))%Q with (3 # 4)%Q in Ha.
  rewrite (float_round_small (m + (1 # 2))) by (apply Qabs_Qle_condition; lra).
  cbn [float_add].
  set (a := Qround_float (m + (1 # 2))) in *.
  assert (Hlo' : (inject_Z x == inject_Z (4 * x) * (1 # 4))%Q)
    by integer_equation.
  assert (Hhi' : (inject_Z x + (3 # 4) == inject_Z (4 * x + 3) * (1 # 4))%Q)
    by integer_equation.
  pose proof (Qround_float_between
                (inject_Z (4 * x) * (1 # 4)) (inject_Z (4 * x + 3) * (1 # 4))
                (a + c)
                (Qround_float_quarters (4 * x) ltac:(lia))
                (Qround_float_quarters (4 * x + 3) ltac:(lia)) ltac:(lra)) as Hs.
  rewrite (float_round_small (a + c)) by (apply Qabs_Qle_condition; lra).
  cbn [int_of_float]. apply Qtrunc_between; [lia | lra | lra].
Qed.

(** The rectangle that [main] passes for the cell [(x, y)] of a map whose
    position is off the origin by at most half a cell towards the negative
    side and a quarter towards the positive side has the corner [(x, y)]
    and the sides 1; for the test its centre is [(x, y)]: the test covers
    the footprint [x - 1/2, x + 1/2] x [y - 1/2, y + 1/2] of the cell. *)
Lemma cellRectangle_value (mapPosition : Vector3) (x y : Z) :
  0 <= x < 2 ^ 22 -> 0 <= y < 2 ^ 22 ->
  (- (1 # 2) <= Vector3_x mapPosition <= 1 # 4)%Q ->
  (- (1 # 2) <= Vector3_y mapPosition <= 1 # 4)%Q ->
  cellRectangle mapPosition x y = mkRectangle x y 1 1.
Proof.
  intros Hx Hy Hmx Hmy. unfold cellRectangle.
  rewrite (float_cell_corner _ x Hx Hmx), (float_cell_corner _ y Hy Hmy).
  reflexivity.
Qed.

Lemma cellRectangle_center (x y : Z) :
  0 <= x < 2 ^ 22 -> 0 <= y < 2 ^ 22 ->
  cellRectangle Vector3Zero x y = mkRectangle x y 1 1
  /\ recCenterX (cellRectangle Vector3Zero x y) = x
  /\ recCenterY (cellRectangle Vector3Zero x y) = y.
Proof.
  intros Hx Hy.
  rewrite (cellRectangle_value Vector3Zero x y Hx Hy)
    by (cbn; split; vm_compute; discriminate).
  unfold recCenterX, recCenterY. cbn [Rectangle_x Rectangle_y Rectangle_width Rectangle_height].
  change (1 ÷ 2) with 0. repeat split; lia.
Qed.

(** On a rectangle whose centre and sides are converted to [float] without
    rounding, the test compares the rounded distances along the two axes
    with half the sides. *)
Lemma CheckCollisionCircleRec_exact (center : Vector2) (radius : Q) (rec : Rectangle) :
  exact_rectangle rec ->
  let dx := float_round (Qabs (Vector2_x center - inject_Z (recCenterX rec))) in
  let dy := float_round (Qabs (Vector2_y center - inject_Z (recCenterY rec))) in
  let hw := Ffinite (inject_Z (Rectangle_width rec) * (1 # 2)) in
  let hh := Ffinite (inject_Z (Rectangle_height rec) * (1 # 2)) in
  CheckCollisionCircleRec center radius rec
  = if float_gt dx (float_add hw (Ffinite radius)) then false
    else if float_gt dy (float_add hh (Ffinite radius)) then false
    else if float_le dx hw then true
    else if float_le dy hh then true
    else float_le
           (float_add (float_mul (float_sub dx hw) (float_sub dx hw))
                      (float_mul (float_sub dy hh) (float_sub dy hh)))
           (float_mul (Ffinite radius) (Ffinite radius)).
Proof.
  intros (Hcx & Hcy & Hw & Hh). cbv zeta. unfold CheckCollisionCircleRec.
  pose proof (float_distance (Vector2_x center) _ Hcx) as Hdx.
  pose proof (float_distance (Vector2_y center) _ Hcy) as Hdy.
  pose proof (float_half_side _ Hw) as Hhw.
  pose proof (float_half_side _ Hh) as Hhh.
  set (dx := float_abs (float_sub (Ffinite (Vector2_x center)) _)) in *.
  set (dy := float_abs (float_sub (Ffinite (Vector2_y center)) _)) in *.
  set (hw := float_halve (float_of_int (Rectangle_width rec))) in *.
  set (hh := float_halve (float_of_int (Rectangle_height rec))) in *.
  set (dx' := float_round (Qabs (Vector2_x center - _))) in *.
  set (dy' := float_round (Qabs (Vector2_y center - _))) in *.
  set (hw' := Ffinite (inject_Z (Rectangle_width rec) * _)) in *.
  set (hh' := Ffinite (inject_Z (Rectangle_height rec) * _)) in *.
  assert (E1 : float_gt dx (float_add hw (Ffinite radius))
               = float_gt dx' (float_add hw' (Ffinite radius)))
    by (rewrite Hdx, Hhw; reflexivity).
  assert (E2 : float_gt dy (float_add hh (Ffinite radius))
               = float_gt dy' (float_add hh' (Ffinite radius)))
    by (rewrite Hdy, Hhh; reflexivity).
  assert (E3 : float_le dx hw = float_le dx' hw') by (rewrite Hdx, Hhw; reflexivity).
  assert (E4 : float_le dy hh = float_le dy' hh') by (rewrite Hdy, Hhh; reflexivity).
  assert (E5 : float_le
                 (float_add (float_mul (float_sub dx hw) (float_sub dx hw))
                            (float_mul (float_sub dy hh) (float_sub dy hh)))
                 (float_mul (Ffinite radius) (Ffinite radius))
               = float_le
                   (float_add (float_mul (float_sub dx' hw') (float_sub dx' hw'))
                              (float_mul (float_sub dy' hh') (float_sub dy' hh')))
                   (float_mul (Ffinite radius) (Ffinite radius)))
    by (rewrite Hdx, Hdy, Hhw, Hhh; reflexivity).
  rewrite E1, E2, E3, E4, E5. reflexivity.
Qed.

(** Half of a side is a float. *)
Lemma float_round_half_side (n : Z) :
  Z.abs n <= 2 ^ 24 ->
  float_eq (float_round (inject_Z n * (1 # 2))) (Ffinite (inject_Z n * (1 # 2))).
Proof.
  intros Hn. pose proof (float_half_side n Hn) as Hhalf.
  rewrite (float_of_int_exact n Hn) in Hhalf. exact Hhalf.
Qed.

(** A circle whose centre lies beside the rectangle, level with it and not
    farther from it than the radius, collides; so does one above or below
    it. *)
Lemma CheckCollisionCircleRec_beside (center : Vector2) (radius : Q) (rec : Rectangle) :
  exact_rectangle rec -> (0 <= radius)%Q ->
  (Qabs (Vector2_x center - inject_Z (recCenterX rec))
   <= inject_Z (Rectangle_width rec) * (1 # 2) + radius)%Q ->
  (Qabs (Vector2_y center - inject_Z (recCenterY rec))
   <= inject_Z (Rectangle_height rec) * (1 # 2))%Q ->
  CheckCollisionCircleRec center radius rec = true.
Proof.
  intros Hrec Hr Hx Hy. rewrite CheckCollisionCircleRec_exact by exact Hrec.
  cbv zeta. cbn [float_add].
  rewrite (float_gt_round _ _ Hx).
  rewrite float_gt_round by lra.
  destruct (float_le _ _); [reflexivity |].
  rewrite <- (float_round_half_side (Rectangle_height rec)) by apply Hrec.
  rewrite (float_le_round _ _ Hy). reflexivity.
Qed.

Lemma CheckCollisionCircleRec_above (center : Vector2) (radius : Q) (rec : Rectangle) :
  exact_rectangle rec -> (0 <= radius)%Q ->
  (Qabs (Vector2_x center - inject_Z (recCenterX rec))
   <= inject_Z (Rectangle_width rec) * (1 # 2))%Q ->
  (Qabs (Vector2_y center - inject_Z (recCenterY rec))
   <= inject_Z (Rectangle_height rec) * (1 # 2) + radius)%Q ->
  CheckCollisionCircleRec center radius rec = true.
Proof.
  intros Hrec Hr Hx Hy. rewrite CheckCollisionCircleRec_exact by exact Hrec.
  cbv zeta. cbn [float_add].
  rewrite float_gt_round by lra.
  rewrite (float_gt_round _ _ Hy).
  rewrite <- (float_round_half_side (Rectangle_width rec)) by apply Hrec.
  rewrite (float_le_round _ _ Hx). reflexivity.
Qed.

(** A distance that exceeds a sum by more than the rounding of both can
    lose is found greater than the sum. *)
Lemma float_gt_margin (d s : Q) :
  (1 # 2 <= s)%Q -> (s <= FLT_MAX + 2 ^ 102)%Q ->
  (s * (1 + 2 ^ (- 22)) <= d)%Q ->
  float_gt (float_round d) (float_round s) = true.
Proof.
  intros Hs Hmax Hd.
  assert (Hnormal : (2 ^ (- 126) <= 1 # 2)%Q) by (vm_compute; discriminate).
  pose proof (Qround_float_error s) as Hes.
  pose proof (Qround_float_error d) as Hed.
  rewrite (Qabs_pos s) in Hes by lra.
  change (2 ^ (- 22))%Q with (1 # 4194304)%Q in Hd.
  rewrite (Qabs_pos d) in Hed by lra.
  change (2 ^ (- 24))%Q with (1 # 16777216)%Q in Hes, Hed.
  specialize (Hes ltac:(lra)). specialize (Hed ltac:(lra)).
  apply Qabs_Qle_condition in Hes, Hed.
  rewrite (float_round_finite s) by (rewrite Qabs_pos by lra; exact Hmax).
  unfold float_gt, float_round. cbv zeta.
  destruct (Qle_bool _ (Qabs (Qround_float d))) eqn:Hover.
  - replace (Qltb (Qround_float d) 0) with false; [reflexivity |].
    symmetry. apply Qltb_false, Qround_float_nonneg. lra.
  - cbn [float_lt]. apply Qltb_true. lra.
Qed.

(** Half a side plus the radius stays in the range of the floats. *)
Lemma half_side_plus_radius (n : Z) (radius : Q) :
  1 <= n -> Z.abs n <= 2 ^ 24 -> (0 <= radius <= FLT_MAX)%Q ->
  (1 # 2 <= inject_Z n * (1 # 2) + radius <= FLT_MAX + 2 ^ 102)%Q.
Proof.
  intros H1 H24 Hr.
  assert (Hlo : (1 <= inject_Z n)%Q) by (rewrite <- (Zle_Qle 1); exact H1).
  assert (Hhi : (inject_Z n <= inject_Z (2 ^ 24))%Q) by (rewrite <- Zle_Qle; lia).
  assert (Hc : (inject_Z (2 ^ 24) * (1 # 2) <= 2 ^ 102)%Q) by (vm_compute; discriminate).
  lra.
Qed.

(** A circle whose centre is farther from the centre of the rectangle,
    along one axis, than half the side plus the radius, by a margin of
    [2 ^ -22] of this sum, does not collide. *)
Lemma CheckCollisionCircleRec_far_x (center : Vector2) (radius : Q) (rec : Rectangle) :
  exact_rectangle rec -> 1 <= Rectangle_width rec ->
  (0 <= radius <= FLT_MAX)%Q ->
  ((inject_Z (Rectangle_width rec) * (1 # 2) + radius) * (1 + 2 ^ (- 22))
   <= Qabs (Vector2_x center - inject_Z (recCenterX rec)))%Q ->
  CheckCollisionCircleRec center radius rec = false.
Proof.
  intros Hrec Hw Hr Hx. rewrite CheckCollisionCircleRec_exact by exact Hrec.
  cbv zeta. cbn [float_add].
  destruct (half_side_plus_radius _ radius Hw ltac:(apply Hrec) Hr) as [Hlo Hhi].
  rewrite float_gt_margin; [reflexivity | exact Hlo | exact Hhi | exact Hx].
Qed.

Lemma CheckCollisionCircleRec_far_y (center : Vector2) (radius : Q) (rec : Rectangle) :
  exact_rectangle rec -> 1 <= Rectangle_height rec ->
  (0 <= radius <= FLT_MAX)%Q ->
  ((inject_Z (Rectangle_height rec) * (1 # 2) + radius) * (1 + 2 ^ (- 22))
   <= Qabs (Vector2_y center - inject_Z (recCenterY rec)))%Q ->
  CheckCollisionCircleRec center radius rec = false.
Proof.
  intros Hrec Hh Hr Hy. rewrite CheckCollisionCircleRec_exact by exact Hrec.
  cbv zeta. cbn [float_add].
  destruct (half_side_plus_radius _ radius Hh ltac:(apply Hrec) Hr) as [Hlo Hhi].
  destruct (float_gt _ _); [reflexivity |].
  rewrite float_gt_margin; [reflexivity | exact Hlo | exact Hhi | exact Hy].
Qed.

(** C1, as stated, fails next to the boundary.  On the rectangle (0, 0, 1, 1)
    with the radius 0.1f, the circle centred at (0.6f, 0) is level with the
    centre that the test computes, (0, 0), and farther from it than half
    the width plus the radius, by 3/2^27; the float sum 0.5f + 0.1f rounds
    up to 0.6f, and the test reports a collision.  Taken from the middle
    of the rectangle, (1/2, 1/2), the claim fails as well: the circle
    centred at (-1/8, 1/2) is level with the middle, farther from it than
    half the width plus the radius, and does not reach the rectangle, and
    the test reports a collision. *)
Lemma circle_beyond_boundary_collides :
  let rec := mkRectangle 0 0 1 1 in
  let radius := Qround_float (1 # 10) in
  let center := mkVector2 (Qround_float (6 # 10)) 0 in
  let eps := (3 # 134217728)%Q in
  let center' := mkVector2 (- (1 # 8)) (1 # 2) in
  let eps' := (3355443 # 134217728)%Q in
  is_float radius = true /\ (0 < radius)%Q
  /\ is_float (Vector2_x center) = true /\ is_float (Vector2_y center) = true
  /\ (0 < eps)%Q
  /\ (Qabs (Vector2_x center - inject_Z (recCenterX rec))
      == (1 # 2) + radius + eps)%Q
  /\ (Vector2_y center == inject_Z (recCenterY rec))%Q
  /\ CheckCollisionCircleRec center radius rec = true
  /\ is_float (Vector2_x center') = true /\ is_float (Vector2_y center') = true
  /\ (0 < eps')%Q
  /\ (Qabs (Vector2_x center' - (inject_Z (Rectangle_x rec) + (1 # 2)))
      == (1 # 2) + radius + eps')%Q
  /\ (Vector2_y center' == inject_Z (Rectangle_y rec) + (1 # 2))%Q
  /\ (radius < inject_Z (Rectangle_x rec) - Vector2_x center')%Q
  /\ CheckCollisionCircleRec center' radius rec = true.
Proof. cbv zeta. repeat split; vm_compute; reflexivity. Qed.

(** C1, amended.  On a rectangle of sides 1 whose corner has coordinates of
    at most [2 ^ 24], with the distances taken from the centre that the test
    computes (for the sides 1 the corner [(rec.x, rec.y)] itself, which is
    the centre of the cell for the rectangles of [main]) and a radius that
    is a positive float: a circle centred there collides; a circle whose
    centre is not farther along x than half the width plus the radius, and
    not farther along y than half the height, collides, at exactly half the
    width plus the radius too; a circle whose centre is farther along x
    than half the width plus the radius by a margin of [2 ^ -22] of this sum
    does not collide.  Within the margin the rounding of the float sum
    decides. *)
Theorem CheckCollisionCircleRec_unit_cell (rec : Rectangle) (radius : Q) :
  Rectangle_width rec = 1 -> Rectangle_height rec = 1 ->
  Z.abs (Rectangle_x rec) <= 2 ^ 24 -> Z.abs (Rectangle_y rec) <= 2 ^ 24 ->
  (0 < radius <= FLT_MAX)%Q ->
  (forall center : Vector2,
      (Vector2_x center == inject_Z (recCenterX rec))%Q ->
      (Vector2_y center == inject_Z (recCenterY rec))%Q ->
      CheckCollisionCircleRec center radius rec = true) /\
  (forall center : Vector2,
      (Qabs (Vector2_x center - inject_Z (recCenterX rec)) <= (1 # 2) + radius)%Q ->
      (Qabs (Vector2_y center - inject_Z (recCenterY rec)) <= 1 # 2)%Q ->
      CheckCollisionCircleRec center radius rec = true) /\
  (forall center : Vector2,
      (((1 # 2) + radius) * (1 + 2 ^ (- 22))
       <= Qabs (Vector2_x center - inject_Z (recCenterX rec)))%Q ->
      CheckCollisionCircleRec center radius rec = false) /\
  recCenterX rec = Rectangle_x rec /\ recCenterY rec = Rectangle_y rec.
Proof.
  intros Hw Hh Hx Hy Hr.
  assert (Hcx : recCenterX rec = Rectangle_x rec)
    by (unfold recCenterX; rewrite Hw; change (1 ÷ 2) with 0; lia).
  assert (Hcy : recCenterY rec = Rectangle_y rec)
    by (unfold recCenterY; rewrite Hh; change (1 ÷ 2) with 0; lia).
  assert (Hrec : exact_rectangle rec).
  { unfold exact_rectangle. rewrite Hcx, Hcy, Hw, Hh.
    repeat split; try assumption; cbn; lia. }
  assert (Hbeside : forall center : Vector2,
             (Qabs (Vector2_x center - inject_Z (recCenterX rec))
              <= (1 # 2) + radius)%Q ->
             (Qabs (Vector2_y center - inject_Z (recCenterY rec)) <= 1 # 2)%Q ->
             CheckCollisionCircleRec center radius rec = true).
  { intros center Hdx Hdy.
    apply CheckCollisionCircleRec_beside; [exact Hrec | lra | |];
      rewrite ?Hw, ?Hh; change (inject_Z 1 * (1 # 2))%Q with (1 # 2)%Q;
      assumption. }
  split; [| split; [| split; [| split; assumption]]].
  - intros center Ex Ey. apply Hbeside.
    + rewrite (Qabs_sub_same _ _ Ex). lra.
    + rewrite (Qabs_sub_same _ _ Ey). lra.
  - exact Hbeside.
  - intros center Hdx.
    apply CheckCollisionCircleRec_far_x; [exact Hrec | lia | lra |].
    rewrite Hw. change (inject_Z 1 * (1 # 2))%Q with (1 # 2)%Q. exact Hdx.
Qed.

Lemma CheckCollisionCircleRec_unit_cell_witness :
  cellRectangle Vector3Zero 2 3 = mkRectangle 2 3 1 1
  /\ (0 < playerRadius <= FLT_MAX)%Q
  /\ CheckCollisionCircleRec (mkVector2 2 3) playerRadius
       (cellRectangle Vector3Zero 2 3) = true
  /\ CheckCollisionCircleRec (mkVector2 (13 # 5) 3) playerRadius
       (cellRectangle Vector3Zero 2 3) = true
  /\ CheckCollisionCircleRec (mkVector2 (27 # 10) 3) playerRadius
       (cellRectangle Vector3Zero 2 3) = false.
Proof.
  assert (Hr : (0 < playerRadius <= FLT_MAX)%Q)
    by (split; [reflexivity | vm_compute; discriminate]).
  split; [reflexivity | split; [exact Hr |]].
  destruct (CheckCollisionCircleRec_unit_cell (cellRectangle Vector3Zero 2 3)
              playerRadius eq_refl eq_refl ltac:(vm_compute; discriminate)
              ltac:(vm_compute; discriminate) Hr)
    as (Hcentre & Hnear & Hfar & _).
  split; [| split].
  - apply Hcentre; reflexivity.
  - apply Hnear; vm_compute; discriminate.
  - apply Hfar. vm_compute. discriminate.
Defined.

(** ** The collision scan *)

Section Scan.

Variable imMap : Image.
Variable pixels : list Color.
Variables mapPosition oldCamPos : Vector3.
Variable camera : Camera.

Local Abbreviation W := (Image_width imMap).
Local Abbreviation H := (Image_height imMap).
Local Abbreviation playerPos := (horizontal (Camera_position camera)).

Hypothesis Hsized : well_sized imMap.
Hypothesis Hlen : Z.of_nat (length pixels) = W * H.

Local Abbreviation state := (scan_state pixels W mapPosition oldCamPos camera).

Lemma collision_cell_scan (cells : list (Z * Z)) (x y : Z) :
  0 <= x < W -> 0 <= y < H ->
  collision_cell imMap (Some <$> pixels) mapPosition playerPos oldCamPos y
    (state cells) x
  = Some (state (cells ++ [(x, y)])).
Proof.
  intros Hx Hy. unfold collision_cell, scan_state.
  destruct (pixel_at_inside imMap pixels Hsized Hlen x y Hx Hy) as (c & Hc & Hload).
  rewrite Hload. cbn [mbind option_bind].
  rewrite existsb_app. cbn [existsb]. rewrite orb_false_r.
  replace (blocks pixels W mapPosition playerPos (x, y))
    with (is_collider c
          && CheckCollisionCircleRec playerPos playerRadius
               (cellRectangle mapPosition x y))
    by (unfold blocks; cbn [fst snd]; rewrite Hc; reflexivity).
  destruct (is_collider c && CheckCollisionCircleRec _ _ _).
  - rewrite orb_true_r. destruct (existsb _ cells); reflexivity.
  - rewrite orb_false_r. reflexivity.
Qed.

(** What the scan does on a map that has at least as many rows as
    columns: it tests the cells of the first [W] rows. *)
Lemma resolve_collisions_scan :
  W <= H ->
  resolve_collisions imMap (Some <$> pixels) mapPosition oldCamPos camera
  = Some (state (scanned_cells W)).
Proof.
  intros HWH. unfold resolve_collisions, for_range, scanned_cells.
  rewrite Z.sub_0_r.
  change (camera, []) with (state []).
  apply (for_loop_acc state _ (fun y => x ← seqZ 0 W; [(x, y)]) _ []).
  intros y cells Hy. apply elem_of_seqZ in Hy.
  apply (for_loop_acc state _ (fun x => [(x, y)])).
  intros x cells' Hx. apply elem_of_seqZ in Hx.
  apply collision_cell_scan; lia.
Qed.

End Scan.

Lemma elem_of_scanned_cells (W x y : Z) :
  (x, y) ∈ scanned_cells W <-> 0 <= x < W /\ 0 <= y < W.
Proof.
  unfold scanned_cells. rewrite list_elem_of_bind. split.
  - intros (y' & Hin & Hy'). apply list_elem_of_bind in Hin as (x' & Hin & Hx').
    apply list_elem_of_singleton in Hin as [= -> ->].
    apply elem_of_seqZ in Hx', Hy'. lia.
  - intros [Hx Hy]. exists y. split; [| apply elem_of_seqZ; lia].
    apply list_elem_of_bind. exists x. split; [left | apply elem_of_seqZ; lia].
Qed.

(** On a map with as many rows as columns or more, a move that ends on a
    collider of the first [W] rows is undone: the position is the one saved
    before the move, and the other fields are those left by the
    controller. *)
Lemma resolve_collisions_rollback (imMap : Image) (pixels : list Color)
    (mapPosition oldCamPos : Vector3) (camera : Camera) (x y : Z) :
  well_sized imMap ->
  Z.of_nat (length pixels) = Image_width imMap * Image_height imMap ->
  Image_width imMap <= Image_height imMap ->
  0 <= x < Image_width imMap -> 0 <= y < Image_width imMap ->
  blocks pixels (Image_width imMap) mapPosition
    (horizontal (Camera_position camera)) (x, y) = true ->
  fst <$> resolve_collisions imMap (Some <$> pixels) mapPosition oldCamPos camera
  = Some (set_position camera oldCamPos).
Proof.
  intros Hsized Hlen HWH Hx Hy Hb.
  rewrite resolve_collisions_scan by assumption.
  unfold scan_state. cbn [fmap option_fmap option_map fst].
  replace (existsb _ _) with true; [reflexivity |].
  symmetry. apply existsb_exists. exists (x, y). split; [| exact Hb].
  apply list_elem_of_In, elem_of_scanned_cells. lia.
Qed.


(** A turn of the main loop on such a map: when a collider of the first [W]
    rows lies under the position that the controller computed, the turn
    ends at the position it started from. *)
Lemma frame_rollback (sinf cosf : Q -> Q) (DEG2RAD : Q)
    (imMap : Image) (pixels : list Color) (mapPosition : Vector3)
    (input : Input) (st : Camera * CameraStatics) (x y : Z) :
  well_sized imMap ->
  Z.of_nat (length pixels) = Image_width imMap * Image_height imMap ->
  Image_width imMap <= Image_height imMap ->
  0 <= x < Image_width imMap -> 0 <= y < Image_width imMap ->
  blocks pixels (Image_width imMap) mapPosition
    (horizontal (Camera_position
                   (fst (UpdateCamera sinf cosf DEG2RAD input (snd st) (fst st)))))
    (x, y) = true ->
  exists camera statics,
    frame sinf cosf DEG2RAD imMap (Some <$> pixels) mapPosition input st
    = Some (camera, statics)
    /\ Camera_position camera = Camera_position (fst st).
Proof.
  intros Hsized Hlen HWH Hx Hy Hb. unfold frame.
  destruct (UpdateCamera sinf cosf DEG2RAD input (snd st) (fst st))
    as [camera statics].
  cbn [fst] in Hb.
  pose proof (resolve_collisions_rollback imMap pixels mapPosition
                (Camera_position (fst st)) camera x y
                Hsized Hlen HWH Hx Hy Hb) as Hres.
  destruct (resolve_collisions _ _ _ _ _) as [[camera' visited]|];
    [| discriminate Hres].
  injection Hres as ->.
  exists (set_position camera (Camera_position (fst st))), statics.
  split; reflexivity.
Qed.

(** ** Claims on the collision resolution *)

(** C3.  The scan does not go through the W x H cells of the map: both of
    its loops stop at the width.  On the map of 2 columns and 3 rows the
    pixels of the third row, which are walls, are never read, whatever the
    position of the player; on the map of 2 columns and 1 row the scan reads
    behind the end of the pixel array. *)
Theorem collision_scan_bounded_by_width (oldCamPos : Vector3) (camera : Camera) :
  GetImageData map_tall = Some (Some <$> pixels_tall)
  /\ (snd <$> resolve_collisions map_tall (Some <$> pixels_tall) Vector3Zero
                oldCamPos camera)
     = Some [(0, 0); (1, 0); (0, 1); (1, 1)]
  /\ inside (Image_width map_tall) (Image_height map_tall) (0, 2) = true
  /\ white_at pixels_tall (Image_width map_tall) 0 2 = true
  /\ GetImageData map_wide = Some (Some <$> pixels_wide)
  /\ resolve_collisions map_wide (Some <$> pixels_wide) Vector3Zero
       oldCamPos camera = None.
Proof. repeat split; reflexivity. Qed.

(** C2.  On the map of 2 columns and 3 rows a move is never undone: a turn
    of the main loop ends with the camera that the controller left, whatever
    the input; so does the resolution step for every camera, also when the
    player's circle overlaps the footprint of the wall cell (1, 2), as it
    does at x = 1, z = 57/40 (one step of 1/20 behind z = 11/8, where it
    does not). *)
Theorem collision_not_resolved_on_tall_map
    (sinf cosf : Q -> Q) (DEG2RAD : Q) (input : Input)
    (st : Camera * CameraStatics) (oldCamPos : Vector3) (camera : Camera) :
  frame sinf cosf DEG2RAD map_tall (Some <$> pixels_tall) Vector3Zero input st
  = Some (UpdateCamera sinf cosf DEG2RAD input (snd st) (fst st))
  /\ (fst <$> resolve_collisions map_tall (Some <$> pixels_tall) Vector3Zero
                oldCamPos camera)
     = Some camera
  /\ white_at pixels_tall (Image_width map_tall) 1 2 = true
  /\ CheckCollisionCircleRec (horizontal (mkVector3 1 (3 # 5) (57 # 40)))
       playerRadius (cellRectangle Vector3Zero 1 2) = true
  /\ CheckCollisionCircleRec (horizontal (mkVector3 1 (3 # 5) (11 # 8)))
       playerRadius (cellRectangle Vector3Zero 1 2) = false.
Proof.
  split; [| repeat split; reflexivity].
  unfold frame.
  destruct (UpdateCamera sinf cosf DEG2RAD input (snd st) (fst st)) as [camera' st'].
  reflexivity.
Qed.






(** ** Claims on the camera controller *)



(** ** The circle/rectangle test and the rectangle it is given *)

(** The two cases of an absolute value. *)
Lemma Qabs_cases (t : Q) :
  (0 <= t /\ Qabs t == t)%Q \/ (t <= 0 /\ Qabs t == - t)%Q.
Proof.
  destruct (Qlt_le_dec t 0) as [Hneg | Hpos].
  - right. split; [apply Qlt_le_weak, Hneg |]. apply Qabs_neg, Qlt_le_weak, Hneg.
  - left. split; [exact Hpos |]. apply Qabs_pos, Hpos.
Qed.

Ltac split_Qabs :=
  repeat match goal with
    | |- context [Qabs ?t] =>
      let Hcase := fresh "Hcase" in
      let v := fresh "v" in
      destruct (Qabs_cases t) as [Hcase | Hcase];
      destruct Hcase;
      generalize dependent (Qabs t); intros v; intros
    | H : context [Qabs ?t] |- _ =>
      let Hcase := fresh "Hcase" in
      let v := fresh "v" in
      destruct (Qabs_cases t) as [Hcase | Hcase];
      destruct Hcase;
      generalize dependent (Qabs t); intros v; intros
  end.

(** X1.  What the test reports, for a rectangle with sides from 1 to
    [2 ^ 24] and a centre with coordinates up to [2 ^ 24] (so that they
    convert to [float] as they are), and a radius that is a float and not
    negative.  With the distances [dx] and [dy] of the centre of the circle
    from the centre that the test computes: the test answers [true] when
    the centre of the circle lies in the rectangle of the given sides
    around that centre, or beside it within the radius, or above or below
    it within the radius; it answers [false] as soon as [dx] exceeds half
    the width plus the radius, or [dy] half the height plus the radius, by
    a margin of [2 ^ -22] of that sum.  Across the corners, and within the
    margin, the rounded operations decide. *)
Theorem CheckCollisionCircleRec_reach
    (center : Vector2) (radius : Q) (rec : Rectangle) :
  exact_rectangle rec ->
  1 <= Rectangle_width rec -> 1 <= Rectangle_height rec ->
  (0 <= radius <= FLT_MAX)%Q ->
  let dx := Qabs (Vector2_x center - inject_Z (recCenterX rec)) in
  let dy := Qabs (Vector2_y center - inject_Z (recCenterY rec)) in
  let hw := (inject_Z (Rectangle_width rec) * (1 # 2))%Q in
  let hh := (inject_Z (Rectangle_height rec) * (1 # 2))%Q in
  ((dx <= hw + radius)%Q -> (dy <= hh)%Q ->
   CheckCollisionCircleRec center radius rec = true)
  /\ ((dx <= hw)%Q -> (dy <= hh + radius)%Q ->
      CheckCollisionCircleRec center radius rec = true)
  /\ (CheckCollisionCircleRec center radius rec = true ->
      (dx < (hw + radius) * (1 + 2 ^ (- 22)))%Q
      /\ (dy < (hh + radius) * (1 + 2 ^ (- 22)))%Q).
Proof.
  intros Hrec Hw Hh Hr. cbv zeta. split; [| split].
  - intros Hx Hy. apply CheckCollisionCircleRec_beside; [assumption | lra | |];
      assumption.
  - intros Hx Hy. apply CheckCollisionCircleRec_above; [assumption | lra | |];
      assumption.
  - intros Hhit. split; apply Qnot_le_lt; intros Hfar.
    + rewrite (CheckCollisionCircleRec_far_x _ _ _ Hrec Hw Hr Hfar) in Hhit.
      discriminate Hhit.
    + rewrite (CheckCollisionCircleRec_far_y _ _ _ Hrec Hh Hr Hfar) in Hhit.
      discriminate Hhit.
Qed.

Lemma CheckCollisionCircleRec_reach_witness :
  exact_rectangle (mkRectangle 4 7 2 3)
  /\ (0 <= playerRadius <= FLT_MAX)%Q
  /\ CheckCollisionCircleRec (mkVector2 (61 # 10) (17 # 2)) playerRadius
       (mkRectangle 4 7 2 3) = true.
Proof.
  assert (Hrec : exact_rectangle (mkRectangle 4 7 2 3))
    by (repeat split; vm_compute; discriminate).
  assert (Hr : (0 <= playerRadius <= FLT_MAX)%Q)
    by (split; vm_compute; discriminate).
  split; [exact Hrec | split; [exact Hr |]].
  apply (proj1 (CheckCollisionCircleRec_reach
                  (mkVector2 (61 # 10) (17 # 2)) playerRadius
                  (mkRectangle 4 7 2 3) Hrec ltac:(cbn; lia) ltac:(cbn; lia) Hr));
    vm_compute; discriminate.
Defined.

(** X3.  On a rectangle whose width is odd the centre that the test
    computes lies half a unit to the left of the middle: a circle with a
    small radius whose centre is inside the rectangle, near its right edge,
    is not reported.  Near means: farther from the left edge than the width
    minus one half plus the radius, by the margin of the rounding. *)
Theorem CheckCollisionCircleRec_odd_width_misses
    (center : Vector2) (radius : Q) (rec : Rectangle) (a : Z) :
  exact_rectangle rec -> 1 <= Rectangle_height rec ->
  0 <= a -> Rectangle_width rec = 2 * a + 1 ->
  (0 <= radius <= FLT_MAX)%Q ->
  in_rectangle rec center ->
  (inject_Z (Rectangle_x rec) + inject_Z a
   + (inject_Z (Rectangle_width rec) * (1 # 2) + radius) * (1 + 2 ^ (- 22))
   <= Vector2_x center)%Q ->
  CheckCollisionCircleRec center radius rec = false.
Proof.
  intros Hrec Hh Ha Hw Hr [Hx _] Hnear.
  apply CheckCollisionCircleRec_far_x; [exact Hrec | lia | exact Hr |].
  assert (Hc : recCenterX rec = Rectangle_x rec + a).
  { unfold recCenterX. rewrite Hw.
    replace ((2 * a + 1) ÷ 2) with a by (apply Z.quot_unique with (r := 1); lia).
    reflexivity. }
  rewrite Hc, inject_Z_plus.
  assert (H0 : (0 <= inject_Z (Rectangle_width rec))%Q)
    by (rewrite <- (Zle_Qle 0); lia).
  change (2 ^ (- 22))%Q with (1 # 4194304)%Q in *.
  split_Qabs; lra.
Qed.

Lemma CheckCollisionCircleRec_odd_width_misses_witness :
  exact_rectangle (mkRectangle 4 7 1 1)
  /\ in_rectangle (mkRectangle 4 7 1 1) (mkVector2 (49 # 10) (15 # 2))
  /\ CheckCollisionCircleRec (mkVector2 (49 # 10) (15 # 2)) playerRadius
       (mkRectangle 4 7 1 1) = false.
Proof.
  assert (Hrec : exact_rectangle (mkRectangle 4 7 1 1))
    by (repeat split; vm_compute; discriminate).
  assert (Hin : in_rectangle (mkRectangle 4 7 1 1) (mkVector2 (49 # 10) (15 # 2)))
    by (repeat split; vm_compute; discriminate).
  split; [exact Hrec | split; [exact Hin |]].
  apply (CheckCollisionCircleRec_odd_width_misses
           (mkVector2 (49 # 10) (15 # 2)) playerRadius (mkRectangle 4 7 1 1) 0
           Hrec ltac:(cbn; lia) ltac:(lia) eq_refl
           ltac:(split; vm_compute; discriminate) Hin).
  vm_compute. discriminate.
Defined.

(** X4.  The rectangles of the scan do not follow a displacement of the
    map by up to half a cell towards the negative side and a quarter of a
    cell towards the positive side, and they never depend on the third
    coordinate of the map position: for the cell in column [x], row [y],
    both below [2 ^ 22], the rectangle has the corner [(x, y)] and the
    sides 1.  Nearer to half a cell the sum can round up: at the float
    next below 1/2 the rectangle of the cell [(0, 0)] has the corner
    [(1, 1)]. *)
Theorem cellRectangle_ignores_offset (mapPosition : Vector3) (x y : Z) :
  0 <= x < 2 ^ 22 -> 0 <= y < 2 ^ 22 ->
  (- (1 # 2) <= Vector3_x mapPosition <= 1 # 4)%Q ->
  (- (1 # 2) <= Vector3_y mapPosition <= 1 # 4)%Q ->
  cellRectangle mapPosition x y = mkRectangle x y 1 1
  /\ let edge := ((1 # 2) - (1 # 33554432))%Q in
     is_float edge = true
     /\ cellRectangle (mkVector3 edge edge (Vector3_z mapPosition)) 0 0
        = mkRectangle 1 1 1 1.
Proof.
  intros Hx Hy Hmx Hmy. split; [apply cellRectangle_value; assumption |].
  cbv zeta. split; reflexivity.
Qed.

Lemma cellRectangle_ignores_offset_witness :
  cellRectangle (mkVector3 (1 # 5) (- (1 # 4)) 7) 3 5 = mkRectangle 3 5 1 1.
Proof.
  apply (cellRectangle_ignores_offset (mkVector3 (1 # 5) (- (1 # 4)) 7) 3 5);
    cbn; try lia; split; vm_compute; discriminate.
Defined.

(** X5.  The scan and the generator agree on the place of a cell.  For a
    map at the origin and the cell in column [x], row [y], the test on the
    rectangle of the scan reports every circle that reaches the footprint
    of the cube of the generator (at cube size 1, the square between its
    corners [v1] and [v3]) straight along an axis: one that has a point of
    the footprint level with its centre, or straight above or below it,
    within the radius.  And whenever it reports a circle, the footprint has
    a point that is nearer to the centre of the circle, in both
    coordinates, than the radius plus the margin of the rounding,
    [2 ^ -22] of the radius plus [2 ^ -23].  The two truncations, of
    [0.5 + x] in the rectangle and of [width/2] in the test, cancel. *)
Theorem cell_collision_footprint (playerPos : Vector2) (radius : Q) (x y : Z) :
  0 <= x < 2 ^ 22 -> 0 <= y < 2 ^ 22 -> (0 <= radius <= FLT_MAX)%Q ->
  let hit :=
    CheckCollisionCircleRec playerPos radius (cellRectangle Vector3Zero x y) in
  (forall q : Vector2,
      in_footprint x y q ->
      ((Vector2_y q == Vector2_y playerPos)%Q
       /\ (Qabs (Vector2_x q - Vector2_x playerPos) <= radius)%Q)
      \/ ((Vector2_x q == Vector2_x playerPos)%Q
          /\ (Qabs (Vector2_y q - Vector2_y playerPos) <= radius)%Q) ->
      hit = true)
  /\ (hit = true ->
      exists q : Vector2,
        in_footprint x y q
        /\ (Qabs (Vector2_x q - Vector2_x playerPos)
            < radius * (1 + 2 ^ (- 22)) + 2 ^ (- 23))%Q
        /\ (Qabs (Vector2_y q - Vector2_y playerPos)
            < radius * (1 + 2 ^ (- 22)) + 2 ^ (- 23))%Q).
Proof.
  intros Hx Hy Hr. cbv zeta.
  destruct (cellRectangle_center x y Hx Hy) as (Hrect & Hcx & Hcy).
  assert (Hrec : exact_rectangle (cellRectangle Vector3Zero x y)).
  { unfold exact_rectangle. rewrite Hcx, Hcy, Hrect.
    cbn [Rectangle_width Rectangle_height].
    assert (H22 : 2 ^ 22 = 4194304) by reflexivity.
    assert (H24 : 2 ^ 24 = 16777216) by reflexivity.
    repeat split; lia. }
  assert (Hw : Rectangle_width (cellRectangle Vector3Zero x y) = 1)
    by (rewrite Hrect; reflexivity).
  assert (Hh : Rectangle_height (cellRectangle Vector3Zero x y) = 1)
    by (rewrite Hrect; reflexivity).
  unfold in_footprint, corners. cbn [v1 v3 Vector3_x Vector3_z].
  change (2 ^ (- 22))%Q with (1 # 4194304)%Q.
  change (2 ^ (- 23))%Q with (1 # 8388608)%Q.
  split.
  - intros q [Hqx Hqy] [[Elevel Hnear] | [Elevel Hnear]].
    + apply CheckCollisionCircleRec_beside; [exact Hrec | lra | |];
        rewrite ?Hcx, ?Hcy, ?Hw, ?Hh;
        change (inject_Z 1 * (1 # 2))%Q with (1 # 2)%Q;
        split_Qabs; lra.
    + apply CheckCollisionCircleRec_above; [exact Hrec | lra | |];
        rewrite ?Hcx, ?Hcy, ?Hw, ?Hh;
        change (inject_Z 1 * (1 # 2))%Q with (1 # 2)%Q;
        split_Qabs; lra.
  - intros Hhit.
    assert (Hdx : (Qabs (Vector2_x playerPos - inject_Z x)
                   < ((1 # 2) + radius) * (1 + (1 # 4194304)))%Q).
    { apply Qnot_le_lt. intros Hfar.
      rewrite (CheckCollisionCircleRec_far_x _ _ _ Hrec ltac:(lia) Hr) in Hhit;
        [discriminate Hhit |].
      rewrite Hcx, Hw. exact Hfar. }
    assert (Hdy : (Qabs (Vector2_y playerPos - inject_Z y)
                   < ((1 # 2) + radius) * (1 + (1 # 4194304)))%Q).
    { apply Qnot_le_lt. intros Hfar.
      rewrite (CheckCollisionCircleRec_far_y _ _ _ Hrec ltac:(lia) Hr) in Hhit;
        [discriminate Hhit |].
      rewrite Hcy, Hh. exact Hfar. }
    clear Hhit.
    set (clamp := fun c p : Q =>
                    if Qltb p (c - (1 # 2)) then (c - (1 # 2))%Q
                    else if Qltb (c + (1 # 2)) p then (c + (1 # 2))%Q else p).
    assert (Hclamp : forall c p,
               (Qabs (p - c) < ((1 # 2) + radius) * (1 + (1 # 4194304)))%Q ->
               (1 * (c - (1 # 2)) <= clamp c p <= 1 * (c + (1 # 2)))%Q
               /\ (Qabs (clamp c p - p)
                   < radius * (1 + (1 # 4194304)) + (1 # 8388608))%Q).
    { intros c p Hd. unfold clamp.
      destruct (Qltb p (c - (1 # 2))) eqn:Hlow.
      - apply Qltb_true in Hlow. split; [lra |]. split_Qabs; lra.
      - apply Qltb_false in Hlow.
        destruct (Qltb (c + (1 # 2)) p) eqn:Hhigh.
        + apply Qltb_true in Hhigh. split; [lra |]. split_Qabs; lra.
        + apply Qltb_false in Hhigh. split; [lra |]. split_Qabs; lra. }
    exists (mkVector2 (clamp (inject_Z x) (Vector2_x playerPos))
                      (clamp (inject_Z y) (Vector2_y playerPos))).
    cbn [Vector2_x Vector2_y].
    destruct (Hclamp _ _ Hdx) as [Hinx Hnx].
    destruct (Hclamp _ _ Hdy) as [Hiny Hny].
    repeat split; try assumption; lra.
Qed.

Lemma cell_collision_footprint_witness :
  (0 <= playerRadius <= FLT_MAX)%Q
  /\ in_footprint 2 3 (mkVector2 (5 # 2) 3)
  /\ CheckCollisionCircleRec (mkVector2 (13 # 5) 3) playerRadius
       (cellRectangle Vector3Zero 2 3) = true.
Proof.
  assert (Hr : (0 <= playerRadius <= FLT_MAX)%Q)
    by (split; vm_compute; discriminate).
  assert (Hin : in_footprint 2 3 (mkVector2 (5 # 2) 3))
    by (repeat split; vm_compute; discriminate).
  split; [exact Hr | split; [exact Hin |]].
  apply (proj1 (cell_collision_footprint (mkVector2 (13 # 5) 3) playerRadius 2 3
                  ltac:(cbn; lia) ltac:(cbn; lia) Hr)
           (mkVector2 (5 # 2) 3) Hin).
  left. split; [reflexivity | vm_compute; discriminate].
Defined.

(** ** The scan and the turn of the main loop *)

(** X6.  On a map that has at least as many rows as columns, whose pixel
    array holds its W x H cells, the scan returns after testing the cells
    of the first [W] rows in row order, and it undoes the move exactly when
    one of these cells stops the player: its red channel is 255 and the
    test on its rectangle answers [true].  On a square map these are all
    the cells. *)
Theorem resolve_collisions_undoes_iff (imMap : Image) (pixels : list Color)
    (mapPosition oldCamPos : Vector3) (camera : Camera) :
  well_sized imMap ->
  Z.of_nat (length pixels) = Image_width imMap * Image_height imMap ->
  Image_width imMap <= Image_height imMap ->
  exists camera',
    resolve_collisions imMap (Some <$> pixels) mapPosition oldCamPos camera
    = Some (camera', scanned_cells (Image_width imMap))
    /\ ((exists x y,
            0 <= x < Image_width imMap /\ 0 <= y < Image_width imMap
            /\ blocks pixels (Image_width imMap) mapPosition
                 (horizontal (Camera_position camera)) (x, y) = true)
        -> camera' = set_position camera oldCamPos)
    /\ ((forall x y,
            0 <= x < Image_width imMap -> 0 <= y < Image_width imMap ->
            blocks pixels (Image_width imMap) mapPosition
              (horizontal (Camera_position camera)) (x, y) = false)
        -> camera' = camera).
Proof.
  intros Hsized Hlen HWH.
  rewrite resolve_collisions_scan by assumption. unfold scan_state.
  eexists. split; [reflexivity |]. split.
  - intros (x & y & Hx & Hy & Hb).
    replace (existsb _ _) with true; [reflexivity |].
    symmetry. apply existsb_exists. exists (x, y). split; [| exact Hb].
    apply list_elem_of_In, elem_of_scanned_cells. lia.
  - intros Hfree.
    replace (existsb _ _) with false; [reflexivity |].
    symmetry. apply not_true_iff_false. intros Hex.
    apply existsb_exists in Hex as ([x y] & Hin & Hb).
    apply list_elem_of_In, elem_of_scanned_cells in Hin.
    rewrite Hfree in Hb by lia. discriminate.
Qed.

Lemma resolve_collisions_undoes_iff_witness :
  well_sized map_red
  /\ Z.of_nat (length pixels_red) = Image_width map_red * Image_height map_red
  /\ Image_width map_red <= Image_height map_red
  /\ exists camera',
       resolve_collisions map_red (Some <$> pixels_red) Vector3Zero
         (mkVector3 (5 # 8) (3 # 5) 0) (camera_at (mkVector3 (23 # 40) (3 # 5) 0))
       = Some (camera', scanned_cells 1)
       /\ camera' = camera_at (mkVector3 (5 # 8) (3 # 5) 0).
Proof.
  assert (Hsized : well_sized map_red) by (unfold well_sized, INT_MAX; cbn; lia).
  assert (Hlen : Z.of_nat (length pixels_red)
                 = Image_width map_red * Image_height map_red) by reflexivity.
  assert (HWH : Image_width map_red <= Image_height map_red) by (cbn; lia).
  split; [exact Hsized | split; [exact Hlen | split; [exact HWH |]]].
  destruct (resolve_collisions_undoes_iff map_red pixels_red Vector3Zero
              (mkVector3 (5 # 8) (3 # 5) 0)
              (camera_at (mkVector3 (23 # 40) (3 # 5) 0)) Hsized Hlen HWH)
    as (camera' & Hrun & Hblocked & _).
  exists camera'. split; [exact Hrun |].
  apply Hblocked. exists 0, 0. repeat split; try (cbn; lia).
Defined.

(** The scan changes nothing but the position, and the position only to
    the saved one. *)
Lemma resolve_collisions_camera (imMap : Image) (mapPixels : array Color)
    (mapPosition oldCamPos : Vector3) (camera camera' : Camera)
    (visited : list (Z * Z)) :
  resolve_collisions imMap mapPixels mapPosition oldCamPos camera
  = Some (camera', visited) ->
  camera' = camera \/ camera' = set_position camera oldCamPos.
Proof.
  unfold resolve_collisions, for_range. intros Hrun.
  apply (for_loop_preserves
           (fun st => fst st = camera \/ fst st = set_position camera oldCamPos))
    in Hrun; [exact Hrun | | left; reflexivity].
  intros t y t' Ht Hrow.
  apply (for_loop_preserves
           (fun st => fst st = camera \/ fst st = set_position camera oldCamPos))
    in Hrow; [exact Hrow | | exact Ht].
  intros [cam vis] x [cam' vis'] Hu Hcell. cbn [fst] in *.
  unfold collision_cell in Hcell. bind_inv Hcell.
  destruct (_ && _); injection Hcell as <- <-.
  - right. destruct Hu as [-> | ->]; reflexivity.
  - exact Hu.
Qed.

(** X7.  A turn of the main loop that returns keeps everything that the
    controller computed except, possibly, the position: the statics (view
    angles, swing counter, previous mouse position) are those the
    controller left, and the camera is the one it left or that camera with
    the position of the start of the turn.  A move that is undone still
    turns the view and advances the swing counter. *)
Theorem frame_keeps_controller_state (sinf cosf : Q -> Q) (DEG2RAD : Q)
    (imMap : Image) (mapPixels : array Color) (mapPosition : Vector3)
    (input : Input) (st st' : Camera * CameraStatics) :
  frame sinf cosf DEG2RAD imMap mapPixels mapPosition input st = Some st' ->
  let updated := UpdateCamera sinf cosf DEG2RAD input (snd st) (fst st) in
  snd st' = snd updated
  /\ (fst st' = fst updated
      \/ fst st' = set_position (fst updated) (Camera_position (fst st)))
  /\ Camera_target (fst st') = Camera_target (fst updated)
  /\ Camera_up (fst st') = Camera_up (fst updated)
  /\ swingCounter (snd st')
     = swingCounter (snd st)
       + (if existsb (direction input) all_moves then 1 else 0).
Proof.
  unfold frame. intros Hrun. cbv zeta.
  destruct (UpdateCamera sinf cosf DEG2RAD input (snd st) (fst st))
    as [camera statics] eqn:Hupd.
  destruct (resolve_collisions _ _ _ _ _) as [[camera' visited]|] eqn:Hres;
    cbn [mbind option_bind] in Hrun; [| discriminate].
  injection Hrun as <-. cbn [fst snd].
  apply resolve_collisions_camera in Hres.
  assert (Hswing : swingCounter statics
                   = swingCounter (snd st)
                     + (if existsb (direction input) all_moves then 1 else 0)).
  { unfold UpdateCamera in Hupd. cbv zeta in Hupd.
    injection Hupd as _ <-. cbn [swingCounter].
    unfold all_moves. cbn [existsb]. destruct (_ || _); lia. }
  repeat split; try assumption; destruct Hres as [-> | ->]; reflexivity.
Qed.

Lemma frame_keeps_controller_state_witness :
  exists st',
    frame (fun _ => 0%Q) (fun _ => 1%Q) (1 # 57) map_red (Some <$> pixels_red)
      Vector3Zero only_up (camera_at (mkVector3 3 1 3), statics0) = Some st'
    /\ swingCounter (snd st') = 1.
Proof.
  destruct (frame (fun _ => 0%Q) (fun _ => 1%Q) (1 # 57) map_red
              (Some <$> pixels_red) Vector3Zero only_up
              (camera_at (mkVector3 3 1 3), statics0)) as [st'|] eqn:Hrun.
  - exists st'. split; [reflexivity |].
    exact (proj2 (proj2 (proj2 (proj2
             (frame_keeps_controller_state _ _ _ _ _ _ _ _ _ Hrun))))).
  - vm_compute in Hrun. discriminate Hrun.
Defined.

(** X8.  The cell that the main loop computes for the player, for a map at
    the origin and columns and rows below [2 ^ 22]: it is the cell whose
    footprint holds the player as long as the player is not farther than a
    quarter of a cell beyond the centre of the cell; nearer to the far edge
    of the footprint the sum with 0.5f can round up to the next cell, as it
    does at the float next below 1/2.  The security check leaves a cell of
    the map as it is, puts every other cell into the map when the map has
    cells, and yields -1 on a dimension of 0. *)
Theorem playerCell_footprint (playerPos : Vector2) (x y width height : Z) :
  0 <= x < 2 ^ 22 -> 0 <= y < 2 ^ 22 ->
  (inject_Z x - (1 # 2) <= Vector2_x playerPos <= inject_Z x + (1 # 4))%Q ->
  (inject_Z y - (1 # 2) <= Vector2_y playerPos <= inject_Z y + (1 # 4))%Q ->
  playerCell playerPos Vector3Zero = (x, y)
  /\ (x < width <= INT_MAX -> security_check x width = x)
  /\ (forall cell, - 2 ^ 31 <= cell <= INT_MAX -> 0 < height <= INT_MAX ->
        0 <= security_check cell height < height)
  /\ (forall cell, 0 <= cell <= INT_MAX -> security_check cell 0 = - 1)
  /\ let edge := ((1 # 2) - (1 # 33554432))%Q in
     is_float edge = true
     /\ in_footprint 0 0 (mkVector2 edge edge)
     /\ playerCell (mkVector2 edge edge) Vector3Zero = (1, 1).
Proof.
  intros Hx Hy Hpx Hpy.
  assert (H22 : 2 ^ 22 = 4194304) by reflexivity.
  split; [| split; [| split; [| split]]].
  - unfold playerCell. cbn [Vector3Zero Vector3_x Vector3_z].
    rewrite (float_cell_of_position _ 0 x), (float_cell_of_position _ 0 y);
      try assumption; try lra.
    reflexivity.
  - intros Hw. unfold security_check.
    replace (x <? 0) with false by (symmetry; apply Z.ltb_ge; lia).
    rewrite u32_small by (unfold INT_MAX in *; lia).
    replace (width <=? x) with false by (symmetry; apply Z.leb_gt; lia).
    reflexivity.
  - intros cell Hcell Hh. unfold security_check.
    destruct (cell <? 0) eqn:Hneg; [lia |]. apply Z.ltb_ge in Hneg.
    rewrite (u32_small cell) by (unfold INT_MAX in *; lia).
    destruct (height <=? cell) eqn:Hbig.
    + rewrite u32_small, s32_small by (unfold INT_MAX in *; lia). lia.
    + apply Z.leb_gt in Hbig. lia.
  - intros cell Hcell. unfold security_check.
    replace (cell <? 0) with false by (symmetry; apply Z.ltb_ge; lia).
    rewrite u32_small by (unfold INT_MAX in *; lia).
    replace (0 <=? cell) with true by (symmetry; apply Z.leb_le; lia).
    reflexivity.
  - cbv zeta. split; [reflexivity | split; [| reflexivity]].
    repeat split; vm_compute; discriminate.
Qed.

Lemma playerCell_footprint_witness :
  playerCell (mkVector2 (27 # 10) (6 # 5)) Vector3Zero = (3, 1).
Proof.
  apply (playerCell_footprint (mkVector2 (27 # 10) (6 # 5)) 3 1 4 4);
    cbn; try lia; split; vm_compute; discriminate.
Defined.

(** ** Pixel extraction: the data that is read *)

Lemma data_byte_Some (image : Image) (j v : Z) :
  data_byte image j = Some v -> 0 <= j < Z.of_nat (length (Image_data image)).
Proof.
  unfold data_byte. destruct (0 <=? j) eqn:Hj; [| discriminate].
  apply Z.leb_le in Hj. intros Hv. apply lookup_lt_Some in Hv. lia.
Qed.

Lemma data_byte_inside (image : Image) (j : Z) :
  0 <= j < Z.of_nat (length (Image_data image)) ->
  exists v, data_byte image j = Some v.
Proof.
  intros Hj. unfold data_byte.
  replace (0 <=? j) with true by (symmetry; apply Z.leb_le; lia).
  apply lookup_lt_is_Some_2. lia.
Qed.

Lemma supported_format_cases (fmt : Z) :
  supported_format fmt = true ->
  fmt = UNCOMPRESSED_GRAYSCALE \/ fmt = UNCOMPRESSED_GRAY_ALPHA
  \/ fmt = UNCOMPRESSED_R5G6B5 \/ fmt = UNCOMPRESSED_R8G8B8
  \/ fmt = UNCOMPRESSED_R5G5B5A1 \/ fmt = UNCOMPRESSED_R4G4B4A4
  \/ fmt = UNCOMPRESSED_R8G8B8A8.
Proof.
  unfold supported_format, UNCOMPRESSED_GRAYSCALE, UNCOMPRESSED_GRAY_ALPHA,
    UNCOMPRESSED_R5G6B5, UNCOMPRESSED_R8G8B8, UNCOMPRESSED_R5G5B5A1,
    UNCOMPRESSED_R4G4B4A4, UNCOMPRESSED_R8G8B8A8.
  rewrite andb_true_iff, !Z.leb_le. lia.
Qed.

(** Case analysis on a supported format, the tests on it evaluated. *)
Ltac format_cases Hfmt :=
  apply supported_format_cases in Hfmt;
  destruct Hfmt as [Hfmt | [Hfmt | [Hfmt | [Hfmt | [Hfmt | [Hfmt | Hfmt]]]]]];
  rewrite Hfmt in *;
  cbn [UNCOMPRESSED_GRAYSCALE UNCOMPRESSED_GRAY_ALPHA UNCOMPRESSED_R5G6B5
       UNCOMPRESSED_R8G8B8 UNCOMPRESSED_R5G5B5A1 UNCOMPRESSED_R4G4B4A4
       UNCOMPRESSED_R8G8B8A8 Z.eqb Pos.eqb orb andb Z.leb Z.compare
       Pos.compare Pos.compare_cont] in *.

(** One turn of the loop on data that holds the bytes of the pixel. *)
Lemma GetImageData_pixel_reads (image : Image) (done : list Color) (n : nat) (k : Z) :
  supported_format (Image_format image) = true ->
  0 <= k ->
  element_size (Image_format image) * k + bytes_per_pixel (Image_format image)
  <= Z.of_nat (length (Image_data image)) ->
  exists c,
    GetImageData_pixel image (filled done (S n), k) (Z.of_nat (length done))
    = Some (filled (done ++ [c]) n, k + index_step (Image_format image)).
Proof.
  intros Hfmt Hk Hlen.
  unfold GetImageData_pixel, data_short, bytes_per_pixel, element_size, index_step in *.
  format_cases Hfmt;
    repeat match goal with
    | |- context [data_byte image ?j] =>
        let v := fresh "v" in
        let Hv := fresh "Hv" in
        destruct (data_byte_inside image j ltac:(lia)) as [v Hv];
        rewrite Hv; cbn [mbind option_bind]
    end;
    rewrite store_filled; cbn [mbind option_bind]; eexists; reflexivity.
Qed.

(** One turn of the loop on data that ends before the last byte of the
    pixel. *)
Lemma GetImageData_pixel_overruns (image : Image) (pixels : array Color) (k i : Z) :
  supported_format (Image_format image) = true ->
  0 <= k ->
  Z.of_nat (length (Image_data image))
  < element_size (Image_format image) * k + bytes_per_pixel (Image_format image) ->
  GetImageData_pixel image (pixels, k) i = None.
Proof.
  intros Hfmt Hk Hlen.
  unfold GetImageData_pixel, data_short, bytes_per_pixel, element_size, index_step in *.
  format_cases Hfmt;
    repeat match goal with
    | |- context [data_byte image ?j] =>
        let v := fresh "v" in
        let Hv := fresh "Hv" in
        destruct (data_byte image j) as [v|] eqn:Hv;
        cbn [mbind option_bind]; [apply data_byte_Some in Hv | reflexivity]
    end;
    exfalso; lia.
Qed.

Lemma format_sizes (fmt : Z) :
  supported_format fmt = true ->
  1 <= element_size fmt /\ 1 <= index_step fmt.
Proof.
  intros Hfmt. unfold element_size, index_step. format_cases Hfmt; lia.
Qed.

(** The loop on data that holds the bytes of all the pixels. *)
Lemma GetImageData_loop_reads (image : Image) (n : nat) (done : list Color) :
  supported_format (Image_format image) = true ->
  bytes_per_pixel (Image_format image) * (Z.of_nat (length done) + Z.of_nat n)
  <= Z.of_nat (length (Image_data image)) ->
  exists new,
    length new = n
    /\ for_loop (GetImageData_pixel image)
         (filled done n, index_step (Image_format image) * Z.of_nat (length done))
         (seqZ (Z.of_nat (length done)) (Z.of_nat n))
       = Some (Some <$> (done ++ new),
               index_step (Image_format image)
               * (Z.of_nat (length done) + Z.of_nat n)).
Proof.
  intros Hfmt. pose proof (format_sizes _ Hfmt) as [He Hs].
  revert done. induction n as [|n IH]; intros done Hlen.
  - exists []. split; [reflexivity |]. cbn. unfold filled. cbn.
    rewrite !app_nil_r, Z.add_0_r. reflexivity.
  - rewrite Nat2Z.inj_succ, seqZ_cons by lia. cbn [for_loop].
    unfold bytes_per_pixel in Hlen.
    destruct (GetImageData_pixel_reads image done n
                (index_step (Image_format image) * Z.of_nat (length done)) Hfmt)
      as [c Hc]; [lia | unfold bytes_per_pixel; nia |].
    rewrite Hc. cbn [mbind option_bind].
    replace (Z.succ (Z.of_nat (length done))) with (Z.of_nat (length (done ++ [c])))
      by (rewrite length_app; cbn; lia).
    replace (Z.pred (Z.succ (Z.of_nat n))) with (Z.of_nat n) by lia.
    replace (index_step (Image_format image) * Z.of_nat (length done)
             + index_step (Image_format image))
      with (index_step (Image_format image) * Z.of_nat (length (done ++ [c])))
      by (rewrite length_app; cbn [length]; lia).
    destruct (IH (done ++ [c])) as (new & Hnew & Hloop).
    { unfold bytes_per_pixel. rewrite length_app. cbn [length]. nia. }
    exists (c :: new). split; [cbn; lia |].
    rewrite Hloop, <- app_assoc. cbn [app]. do 2 f_equal.
    rewrite length_app. cbn [length]. lia.
Qed.

(** The loop on data that ends before the bytes of the last pixel. *)
Lemma GetImageData_loop_overruns (image : Image) (n : nat) (done : list Color) :
  supported_format (Image_format image) = true ->
  bytes_per_pixel (Image_format image) * Z.of_nat (length done)
  <= Z.of_nat (length (Image_data image)) ->
  Z.of_nat (length (Image_data image))
  < bytes_per_pixel (Image_format image) * (Z.of_nat (length done) + Z.of_nat n) ->
  for_loop (GetImageData_pixel image)
    (filled done n, index_step (Image_format image) * Z.of_nat (length done))
    (seqZ (Z.of_nat (length done)) (Z.of_nat n))
  = None.
Proof.
  intros Hfmt. pose proof (format_sizes _ Hfmt) as [He Hs].
  revert done. induction n as [|n IH]; intros done Hlo Hhi.
  - exfalso. lia.
  - rewrite Nat2Z.inj_succ, seqZ_cons by lia. cbn [for_loop].
    destruct (Z.le_gt_cases
                (bytes_per_pixel (Image_format image) * (Z.of_nat (length done) + 1))
                (Z.of_nat (length (Image_data image)))) as [Hfits | Hover].
    + destruct (GetImageData_pixel_reads image done n
                  (index_step (Image_format image) * Z.of_nat (length done)) Hfmt)
        as [c Hc]; [lia | unfold bytes_per_pixel in *; nia |].
      rewrite Hc. cbn [mbind option_bind].
      replace (Z.succ (Z.of_nat (length done))) with (Z.of_nat (length (done ++ [c])))
        by (rewrite length_app; cbn; lia).
      replace (Z.pred (Z.succ (Z.of_nat n))) with (Z.of_nat n) by lia.
      replace (index_step (Image_format image) * Z.of_nat (length done)
               + index_step (Image_format image))
        with (index_step (Image_format image) * Z.of_nat (length (done ++ [c])))
        by (rewrite length_app; cbn [length]; lia).
      apply IH; rewrite length_app; cbn [length];
        [replace (Z.of_nat (length done + 1)) with (Z.of_nat (length done) + 1) by lia;
         exact Hfits | lia].
    + rewrite GetImageData_pixel_overruns; [reflexivity | exact Hfmt | lia |].
      unfold bytes_per_pixel in *. nia.
Qed.

(** X9.  For the seven formats of the list, [GetImageData] reads exactly
    [bytes_per_pixel] bytes for each of the [width*height] pixels: on data
    of at least that many bytes it returns an array in which every pixel is
    written (for a number of pixels in the range of the loop counter), on
    shorter data the loop reads behind the end of the data. *)
Theorem GetImageData_needs_all_bytes (image : Image) :
  supported_format (Image_format image) = true ->
  let count := u32 (Image_width image * Image_height image) in
  (count <= INT_MAX ->
   bytes_per_pixel (Image_format image) * count
   <= Z.of_nat (length (Image_data image)) ->
   exists pixels,
     Z.of_nat (length pixels) = count
     /\ GetImageData image = Some (Some <$> pixels))
  /\ (Z.of_nat (length (Image_data image))
      < bytes_per_pixel (Image_format image) * count ->
      GetImageData image = None).
Proof.
  intros Hfmt count.
  pose proof (u32_range (Image_width image * Image_height image)) as [Hcount _].
  fold count in Hcount.
  unfold GetImageData, for_range. fold count.
  rewrite Z.sub_0_r, malloc_filled.
  split.
  - intros _ Hlen.
    destruct (GetImageData_loop_reads image (Z.to_nat count) [] Hfmt)
      as (new & Hnew & Hloop); [cbn [length]; lia |].
    cbn [length app] in Hloop. change (Z.of_nat 0) with 0 in Hloop.
    rewrite Z.mul_0_r, Z2Nat.id in Hloop by exact Hcount.
    exists new. split; [lia |]. rewrite Hloop. reflexivity.
  - intros Hlen.
    pose proof (GetImageData_loop_overruns image (Z.to_nat count) [] Hfmt) as Hloop.
    cbn [length] in Hloop. change (Z.of_nat 0) with 0 in Hloop.
    rewrite !Z.mul_0_r, !Z2Nat.id in Hloop by exact Hcount.
    rewrite Hloop; [reflexivity | lia | lia].
Qed.

Lemma GetImageData_needs_all_bytes_witness :
  supported_format (Image_format map_wide) = true
  /\ (exists pixels, GetImageData map_wide = Some (Some <$> pixels))
  /\ GetImageData (mkImage 2 1 UNCOMPRESSED_R8G8B8 [0; 0; 0; 255; 255]) = None.
Proof.
  split; [reflexivity | split].
  - destruct (proj1 (GetImageData_needs_all_bytes map_wide eq_refl))
      as (pixels & _ & Hrun);
      [apply Z.leb_le; reflexivity | apply Z.leb_le; reflexivity |].
    exists pixels. exact Hrun.
  - apply (proj2 (GetImageData_needs_all_bytes
                    (mkImage 2 1 UNCOMPRESSED_R8G8B8 [0; 0; 0; 255; 255]) eq_refl)).
    apply Z.ltb_lt. reflexivity.
Defined.

(** One turn of the loop for a format outside the list: nothing is read,
    nothing is written. *)
Lemma GetImageData_pixel_skips (image : Image) (st : array Color * Z) (i : Z) :
  supported_format (Image_format image) = false ->
  GetImageData_pixel image st i = Some st.
Proof.
  intros Hfmt. destruct st as [pixels k]. unfold GetImageData_pixel.
  unfold supported_format, UNCOMPRESSED_GRAYSCALE, UNCOMPRESSED_R8G8B8A8 in Hfmt.
  apply andb_false_iff in Hfmt. rewrite Z.leb_gt, Z.leb_gt in Hfmt.
  repeat match goal with
         | |- context [?a =? ?b] =>
             replace (a =? b) with false
               by (symmetry; apply Z.eqb_neq;
                   unfold UNCOMPRESSED_GRAYSCALE, UNCOMPRESSED_GRAY_ALPHA,
                     UNCOMPRESSED_R5G6B5, UNCOMPRESSED_R8G8B8,
                     UNCOMPRESSED_R5G5B5A1, UNCOMPRESSED_R4G4B4A4,
                     UNCOMPRESSED_R8G8B8A8; lia)
         end.
  reflexivity.
Qed.

Lemma for_loop_skips {S : Type} (body : S -> Z -> option S) (s : S) (l : list Z) :
  (forall t i, body t i = Some t) -> for_loop body s l = Some s.
Proof.
  intros Hbody. induction l as [|i l IH]; [reflexivity |].
  cbn [for_loop]. rewrite Hbody. exact IH.
Qed.

Lemma for_range_first_stops {S : Type} (body : S -> Z -> option S) (s : S) (hi : Z) :
  0 < hi -> body s 0 = None -> for_range 0 hi body s = None.
Proof.
  intros Hhi Hbody. unfold for_range.
  rewrite Z.sub_0_r, seqZ_cons by lia. cbn [for_loop]. rewrite Hbody. reflexivity.
Qed.

(** X10.  For a format outside the list (as the format 0 of the image that
    [LoadImage] returns for a file it cannot load) [GetImageData] reads no
    data and writes no pixel: it returns the array as allocated.  The
    generator, which reads the first pixel of every map that has one, has no
    defined result on it. *)
Theorem GetImageData_unsupported_format (image : Image) :
  supported_format (Image_format image) = false ->
  GetImageData image
  = Some (malloc (u32 (Image_width image * Image_height image)))
  /\ (forall cubeSize,
        well_sized image -> 0 < Image_width image -> 0 < Image_height image ->
        GenMeshCubicmap_faces image cubeSize = None).
Proof.
  intros Hfmt.
  assert (Hdata : GetImageData image
                  = Some (malloc (u32 (Image_width image * Image_height image)))).
  { unfold GetImageData, for_range.
    rewrite for_loop_skips by (intros t i; apply GetImageData_pixel_skips, Hfmt).
    reflexivity. }
  split; [exact Hdata |].
  intros cubeSize Hsized HW HH.
  pose proof Hsized as (HW' & HH' & _).
  pose proof (area_bound image Hsized) as [H0 H108].
  unfold GenMeshCubicmap_faces. rewrite Hdata. cbn [mbind option_bind].
  rewrite !s32_small by (unfold INT_MAX in *; lia).
  rewrite (u32_small (Image_width image * Image_height image))
    by (unfold INT_MAX in *; lia).
  rewrite (u32_small (Image_width image * Image_height image * 12))
    by (unfold INT_MAX in *; lia).
  rewrite s32_small by (unfold INT_MAX in *; lia).
  rewrite int_mul_small by (unfold INT_MAX in *; lia).
  cbn [mbind option_bind].
  rewrite for_range_first_stops; [reflexivity | lia |].
  apply for_range_first_stops; [lia |].
  unfold GenMeshCubicmap_cell.
  replace (load _ _) with (@None Color); [reflexivity |].
  unfold load, malloc. rewrite Z.mul_0_l, Z.add_0_l.
  change (u32 0) with 0. cbn [Z.leb Z.compare]. change (Z.to_nat 0) with 0%nat.
  destruct (Z.to_nat _); reflexivity.
Qed.

Lemma GetImageData_unsupported_format_witness :
  supported_format (Image_format (mkImage 2 2 0 [])) = false
  /\ GetImageData (mkImage 2 2 0 []) = Some [None; None; None; None]
  /\ GenMeshCubicmap_faces (mkImage 2 2 0 []) 1 = None.
Proof.
  split; [reflexivity |].
  destruct (GetImageData_unsupported_format (mkImage 2 2 0 []) eq_refl)
    as [Hdata Hgen].
  split; [exact Hdata |].
  apply Hgen; [unfold well_sized, INT_MAX; cbn; lia | cbn; lia | cbn; lia].
Defined.

(** ** Pixel extraction: the formats of 5 bits per channel *)

(** A channel of 5 bits is scaled by [255/31], a division of [int] values:
    by 8. *)
Lemma five_bit_channel (n : Z) :
  0 <= u8 (n * (255 ÷ 31)) <= 248 /\ u8 (n * (255 ÷ 31)) mod 8 = 0.
Proof.
  change (255 ÷ 31) with 8. unfold u8. change 256 with (8 * 32).
  rewrite (Z.mul_comm n 8), Z.mul_mod_distr_l by lia.
  pose proof (Z.mod_pos_bound n 32 ltac:(lia)).
  split; [lia |]. rewrite Z.mul_comm. apply Z.mod_mul. lia.
Qed.

Lemma written_pixels_malloc (P : Color -> Prop) (n : Z) :
  written_pixels P (malloc n).
Proof.
  intros i c Hi. unfold malloc in Hi.
  apply lookup_replicate in Hi as [Hi _]. discriminate.
Qed.

Lemma written_pixels_store (P : Color -> Prop) (pixels pixels' : array Color)
    (i : Z) (c : Color) :
  written_pixels P pixels -> P c -> store pixels i c = Some pixels' ->
  written_pixels P pixels'.
Proof.
  intros Hpx Hc Hstore. unfold store in Hstore.
  destruct (_ && _); [| discriminate]. injection Hstore as <-.
  intros j d Hj. apply list_lookup_insert_Some in Hj as [(_ & Hd & _) | [_ Hj]].
  - injection Hd as <-. exact Hc.
  - exact (Hpx j d Hj).
Qed.

Lemma GetImageData_pixel_five_bit (image : Image) (st st' : array Color * Z) (i : Z) :
  Image_format image = UNCOMPRESSED_R5G6B5
  \/ Image_format image = UNCOMPRESSED_R5G5B5A1 ->
  written_pixels five_bit_red (fst st) ->
  GetImageData_pixel image st i = Some st' ->
  written_pixels five_bit_red (fst st').
Proof.
  intros Hfmt Hpx Hstep. destruct st as [pixels k], st' as [pixels' k'].
  cbn [fst] in *. unfold GetImageData_pixel in Hstep.
  destruct Hfmt as [Hfmt | Hfmt]; rewrite Hfmt in Hstep;
    cbn [UNCOMPRESSED_GRAYSCALE UNCOMPRESSED_GRAY_ALPHA UNCOMPRESSED_R5G6B5
         UNCOMPRESSED_R8G8B8 UNCOMPRESSED_R5G5B5A1 UNCOMPRESSED_R4G4B4A4
         UNCOMPRESSED_R8G8B8A8 Z.eqb Pos.eqb] in Hstep;
    bind_inv Hstep; bind_inv Hstep; injection Hstep as <- <-;
    (eapply written_pixels_store; [exact Hpx | | eassumption]);
    apply five_bit_channel.
Qed.

Lemma five_bit_pixels (image : Image) (pixels : array Color)
    (i : nat) (c : Color) :
  Image_format image = UNCOMPRESSED_R5G6B5
  \/ Image_format image = UNCOMPRESSED_R5G5B5A1 ->
  GetImageData image = Some pixels ->
  pixels !! i = Some (Some c) ->
  five_bit_red c.
Proof.
  intros Hfmt Hrun Hc. unfold GetImageData, for_range in Hrun.
  destruct (for_loop _ _ _) as [[px k]|] eqn:Hloop; [| discriminate].
  injection Hrun as <-.
  apply (for_loop_preserves (fun st => written_pixels five_bit_red (fst st)))
    in Hloop.
  - exact (Hloop i c Hc).
  - intros t j t' Ht Hstep. eapply GetImageData_pixel_five_bit; eassumption.
  - apply written_pixels_malloc.
Qed.

(** X11.  In the two formats with a red channel of 5 bits the channel is
    scaled by the integer quotient 255/31 = 8: every pixel that
    [GetImageData] returns has a red value that is a multiple of 8, at most
    248.  No pixel is pure white and none is a collider. *)
Theorem GetImageData_five_bit_red (image : Image) (pixels : array Color)
    (i : nat) (c : Color) :
  Image_format image = UNCOMPRESSED_R5G6B5
  \/ Image_format image = UNCOMPRESSED_R5G5B5A1 ->
  GetImageData image = Some pixels ->
  pixels !! i = Some (Some c) ->
  0 <= Color_r c <= 248 /\ Color_r c mod 8 = 0
  /\ is_white c = false /\ is_collider c = false.
Proof.
  intros Hfmt Hrun Hc.
  destruct (five_bit_pixels image pixels i c Hfmt Hrun Hc) as [Hr Hmod].
  assert (Hne : (Color_r c =? 255) = false) by (apply Z.eqb_neq; lia).
  unfold is_white, is_collider. rewrite Hne. repeat split; try lia.
Qed.

Lemma GetImageData_five_bit_red_witness :
  exists pixels c,
    GetImageData (mkImage 1 1 UNCOMPRESSED_R5G6B5 [255; 255]) = Some pixels
    /\ pixels !! 0%nat = Some (Some c)
    /\ Color_r c = 248 /\ is_white c = false.
Proof.
  exists [Some (mkColor 248 252 248 255)], (mkColor 248 252 248 255).
  split; [reflexivity | split; [reflexivity | split; [reflexivity |]]].
  apply (GetImageData_five_bit_red (mkImage 1 1 UNCOMPRESSED_R5G6B5 [255; 255])
           [Some (mkColor 248 252 248 255)] 0 (mkColor 248 252 248 255));
    [left; reflexivity | reflexivity | reflexivity].
Defined.

(** X12.  A map stored in one of these two formats has no wall: whatever
    its data, the generator emits only the two faces of open cells, and no
    cell stops the player. *)
Theorem five_bit_map_has_no_wall (cubicmap : Image) (pixels : list Color)
    (cubeSize : Q) :
  Image_format cubicmap = UNCOMPRESSED_R5G6B5
  \/ Image_format cubicmap = UNCOMPRESSED_R5G5B5A1 ->
  grid_of cubicmap pixels ->
  exists mesh faces,
    GenMeshCubicmap_faces cubicmap cubeSize = Some (mesh, faces)
    /\ (forall x z f, (x, z, f) ∈ faces -> f = Ceiling \/ f = Floor)
    /\ (forall mapPosition playerPos cell,
           blocks pixels (Image_width cubicmap) mapPosition playerPos cell = false).
Proof.
  intros Hfmt Hgrid.
  assert (Hpx : forall x z c,
             pixel_at pixels (Image_width cubicmap) x z = Some c ->
             is_white c = false /\ is_collider c = false).
  { intros x z c Hc. unfold pixel_at in Hc.
    destruct (_ && _); [| discriminate].
    assert (Hc' : (Some <$> pixels) !! Z.to_nat (z * Image_width cubicmap + x)
                  = Some (Some c)) by (rewrite list_lookup_fmap, Hc; reflexivity).
    destruct Hgrid as [_ Hdata].
    destruct (five_bit_pixels cubicmap _ _ c Hfmt Hdata Hc') as [Hr _].
    assert (Hne : (Color_r c =? 255) = false) by (apply Z.eqb_neq; lia).
    unfold is_white, is_collider. rewrite Hne. split; reflexivity. }
  eexists _, _. split; [apply GenMeshCubicmap_faces_eq, Hgrid |]. split.
  - intros x z f Hin. apply elem_of_all_faces in Hin as (_ & _ & Hf).
    unfold cell_faces in Hf.
    destruct (pixel_at pixels (Image_width cubicmap) x z) as [c|] eqn:Hc;
      [| apply list_elem_of_In in Hf; destruct Hf].
    destruct (Hpx x z c Hc) as [Hw _]. rewrite Hw in Hf.
    destruct (is_black c); apply list_elem_of_In in Hf; cbn in Hf;
      intuition auto.
  - intros mapPosition playerPos [x z]. unfold blocks. cbn [fst snd].
    destruct (pixel_at pixels (Image_width cubicmap) x z) as [c|] eqn:Hc;
      [| reflexivity].
    destruct (Hpx x z c Hc) as [_ ->]. reflexivity.
Qed.

Lemma five_bit_map_has_no_wall_witness :
  grid_of (mkImage 1 1 UNCOMPRESSED_R5G6B5 [255; 255]) [mkColor 248 252 248 255]
  /\ exists mesh faces,
       GenMeshCubicmap_faces (mkImage 1 1 UNCOMPRESSED_R5G6B5 [255; 255]) 1
       = Some (mesh, faces)
       /\ forall x z f, (x, z, f) ∈ faces -> f = Ceiling \/ f = Floor.
Proof.
  assert (Hgrid : grid_of (mkImage 1 1 UNCOMPRESSED_R5G6B5 [255; 255])
                    [mkColor 248 252 248 255])
    by (split; [unfold well_sized, INT_MAX; cbn; lia | reflexivity]).
  split; [exact Hgrid |].
  destruct (five_bit_map_has_no_wall
              (mkImage 1 1 UNCOMPRESSED_R5G6B5 [255; 255])
              [mkColor 248 252 248 255] 1 (or_introl eq_refl) Hgrid)
    as (mesh & faces & Hrun & Hfaces & _).
  exists mesh, faces. split; [exact Hrun | exact Hfaces].
Defined.

(** ** Pixel extraction: the formats of 8 bits per channel *)

Lemma length_color_bytes (fmt : Z) (c : Color) :
  Z.of_nat (length (color_bytes fmt c))
  = if fmt =? UNCOMPRESSED_GRAYSCALE then 1
    else if fmt =? UNCOMPRESSED_GRAY_ALPHA then 2
    else if fmt =? UNCOMPRESSED_R8G8B8 then 3 else 4.
Proof.
  unfold color_bytes.
  destruct (fmt =? UNCOMPRESSED_GRAYSCALE); [reflexivity |].
  destruct (fmt =? UNCOMPRESSED_GRAY_ALPHA); [reflexivity |].
  destruct (fmt =? UNCOMPRESSED_R8G8B8); reflexivity.
Qed.

Lemma data_byte_color (image : Image) (fmt : Z) (done rest : list Color)
    (c : Color) (j : nat) (v : Z) :
  Image_data image = (done ++ c :: rest) ≫= color_bytes fmt ->
  color_bytes fmt c !! j = Some v ->
  data_byte image
    (Z.of_nat (length (color_bytes fmt c)) * Z.of_nat (length done) + Z.of_nat j)
  = Some v.
Proof.
  intros Hdata Hj. unfold data_byte. rewrite Hdata.
  replace (0 <=? _) with true by (symmetry; apply Z.leb_le; lia).
  assert (Hlen : length (done ≫= color_bytes fmt)
                 = (length (color_bytes fmt c) * length done)%nat).
  { apply length_bind_const. intros c'.
    apply Nat2Z.inj. rewrite !length_color_bytes. reflexivity. }
  replace (Z.to_nat _) with (length (done ≫= color_bytes fmt) + j)%nat
    by (rewrite Hlen; lia).
  rewrite bind_app, lookup_app_r by lia.
  rewrite Nat.add_sub_swap, Nat.sub_diag by lia. cbn [Nat.add mbind list_bind].
  apply lookup_app_l_Some. exact Hj.
Qed.

Lemma GetImageData_pixel_color (image : Image) (done rest : list Color)
    (c : Color) (n : nat) :
  Image_format image = UNCOMPRESSED_GRAYSCALE
  \/ Image_format image = UNCOMPRESSED_GRAY_ALPHA
  \/ Image_format image = UNCOMPRESSED_R8G8B8
  \/ Image_format image = UNCOMPRESSED_R8G8B8A8 ->
  representable (Image_format image) c ->
  Image_data image = (done ++ c :: rest) ≫= color_bytes (Image_format image) ->
  GetImageData_pixel image
    (filled done (S n),
     Z.of_nat (length (color_bytes (Image_format image) c)) * Z.of_nat (length done))
    (Z.of_nat (length done))
  = Some (filled (done ++ [c]) n,
          Z.of_nat (length (color_bytes (Image_format image) c))
          * Z.of_nat (length (done ++ [c]))).
Proof.
  intros Hfmt [Hgray Halpha] Hdata.
  pose proof (fun v => data_byte_color image _ done rest c 0 v Hdata) as H0.
  pose proof (fun v => data_byte_color image _ done rest c 1 v Hdata) as H1.
  pose proof (fun v => data_byte_color image _ done rest c 2 v Hdata) as H2.
  pose proof (fun v => data_byte_color image _ done rest c 3 v Hdata) as H3.
  change (Z.of_nat 0) with 0 in H0. change (Z.of_nat 1) with 1 in H1.
  change (Z.of_nat 2) with 2 in H2. change (Z.of_nat 3) with 3 in H3.
  rewrite Z.add_0_r in H0.
  rewrite length_app. cbn [length].
  unfold GetImageData_pixel.
  destruct c as [cr cg cb ca]. cbn [Color_r Color_g Color_b Color_a] in *.
  destruct Hfmt as [Hfmt | [Hfmt | [Hfmt | Hfmt]]]; rewrite Hfmt in *;
    cbn [color_bytes UNCOMPRESSED_GRAYSCALE UNCOMPRESSED_GRAY_ALPHA
         UNCOMPRESSED_R5G6B5 UNCOMPRESSED_R8G8B8 UNCOMPRESSED_R5G5B5A1
         UNCOMPRESSED_R4G4B4A4 UNCOMPRESSED_R8G8B8A8 Z.eqb Pos.eqb length] in *;
    unfold color_bytes in *;
    cbn [UNCOMPRESSED_GRAYSCALE UNCOMPRESSED_GRAY_ALPHA
         UNCOMPRESSED_R5G6B5 UNCOMPRESSED_R8G8B8 UNCOMPRESSED_R5G5B5A1
         UNCOMPRESSED_R4G4B4A4 UNCOMPRESSED_R8G8B8A8 Z.eqb Pos.eqb length] in *.
  - rewrite (H0 _ eq_refl). cbn [mbind option_bind].
    rewrite store_filled. cbn [mbind option_bind].
    destruct Hgray as [-> ->]; [left; reflexivity |].
    rewrite Halpha by (left; reflexivity). do 2 f_equal. lia.
  - rewrite (H0 _ eq_refl), (H1 _ eq_refl). cbn [mbind option_bind].
    rewrite store_filled. cbn [mbind option_bind].
    destruct Hgray as [-> ->]; [right; reflexivity |].
    do 2 f_equal. lia.
  - rewrite (H0 _ eq_refl), (H1 _ eq_refl), (H2 _ eq_refl). cbn [mbind option_bind].
    rewrite store_filled. cbn [mbind option_bind].
    rewrite Halpha by (right; reflexivity). do 2 f_equal. lia.
  - rewrite (H0 _ eq_refl), (H1 _ eq_refl), (H2 _ eq_refl), (H3 _ eq_refl).
    cbn [mbind option_bind].
    rewrite store_filled. cbn [mbind option_bind]. do 2 f_equal. lia.
Qed.

Lemma length_color_bytes_eq (fmt : Z) (c c' : Color) :
  length (color_bytes fmt c) = length (color_bytes fmt c').
Proof. apply Nat2Z.inj. rewrite !length_color_bytes. reflexivity. Qed.

Lemma GetImageData_loop_color (image : Image) (b : Z) (rest done : list Color) :
  Image_format image = UNCOMPRESSED_GRAYSCALE
  \/ Image_format image = UNCOMPRESSED_GRAY_ALPHA
  \/ Image_format image = UNCOMPRESSED_R8G8B8
  \/ Image_format image = UNCOMPRESSED_R8G8B8A8 ->
  (forall c, b = Z.of_nat (length (color_bytes (Image_format image) c))) ->
  Forall (representable (Image_format image)) rest ->
  Image_data image = (done ++ rest) ≫= color_bytes (Image_format image) ->
  for_loop (GetImageData_pixel image)
    (filled done (length rest), b * Z.of_nat (length done))
    (seqZ (Z.of_nat (length done)) (Z.of_nat (length rest)))
  = Some (Some <$> (done ++ rest), b * Z.of_nat (length (done ++ rest))).
Proof.
  intros Hfmt Hb. revert done. induction rest as [|c rest IH]; intros done Hrep Hdata.
  - cbn. unfold filled. cbn. rewrite !app_nil_r. reflexivity.
  - apply Forall_cons in Hrep as [Hc Hrep].
    cbn [length]. rewrite Nat2Z.inj_succ, seqZ_cons by lia. cbn [for_loop].
    rewrite (Hb c).
    rewrite (GetImageData_pixel_color image done rest c) by assumption.
    cbn [mbind option_bind].
    replace (Z.succ (Z.of_nat (length done))) with (Z.of_nat (length (done ++ [c])))
      by (rewrite length_app; cbn; lia).
    replace (Z.pred (Z.succ (Z.of_nat (length rest)))) with (Z.of_nat (length rest)) by lia.
    rewrite <- (Hb c).
    rewrite IH by (try rewrite <- app_assoc; assumption).
    rewrite <- app_assoc. reflexivity.
Qed.

(** X13.  Round trip through the four formats of 8 bits per channel: the
    pixels that [GetImageData] extracts from the bytes of a list of colours
    are these colours, provided the format can hold them (grey colours for
    the two grey formats, an alpha of 255 for the two formats without
    alpha). *)
Theorem GetImageData_color_bytes (width height fmt : Z) (cs : list Color) :
  fmt = UNCOMPRESSED_GRAYSCALE \/ fmt = UNCOMPRESSED_GRAY_ALPHA
  \/ fmt = UNCOMPRESSED_R8G8B8 \/ fmt = UNCOMPRESSED_R8G8B8A8 ->
  Forall (representable fmt) cs ->
  Z.of_nat (length cs) = width * height ->
  width * height <= INT_MAX ->
  GetImageData (mkImage width height fmt (cs ≫= color_bytes fmt))
  = Some (Some <$> cs).
Proof.
  intros Hfmt Hrep Hlen Hmax.
  unfold GetImageData, for_range. cbn [Image_width Image_height].
  rewrite u32_small by (unfold INT_MAX in *; lia).
  rewrite Z.sub_0_r, <- Hlen, malloc_filled, Nat2Z.id.
  pose proof (GetImageData_loop_color
                (mkImage width height fmt (cs ≫= color_bytes fmt))
                (Z.of_nat (length (color_bytes fmt (mkColor 0 0 0 0)))) cs [] Hfmt)
    as Hloop.
  cbn [length app Image_format Image_data] in Hloop.
  change (Z.of_nat 0) with 0 in Hloop. rewrite Z.mul_0_r in Hloop.
  rewrite Hloop; [reflexivity | | exact Hrep | reflexivity].
  intros c. rewrite !length_color_bytes. reflexivity.
Qed.

Lemma GetImageData_color_bytes_witness :
  GetImageData (mkImage 2 1 UNCOMPRESSED_GRAYSCALE [255; 0])
  = Some [Some white; Some black].
Proof.
  apply (GetImageData_color_bytes 2 1 UNCOMPRESSED_GRAYSCALE [white; black]).
  - left. reflexivity.
  - repeat constructor; cbn; intros _; reflexivity.
  - reflexivity.
  - unfold INT_MAX. cbn. lia.
Defined.

(** ** The arrays of the mesh *)

(** X14.  The mesh that the generator returns holds, for its
    [vertexCount] vertices, arrays of [3*vertexCount] coordinates,
    [2*vertexCount] texture coordinates and [3*vertexCount] normal
    components, every cell of which is written: what [UploadMeshData]
    passes to the graphics library lies inside the arrays and is
    initialised. *)
Theorem GenMeshCubicmap_arrays (cubicmap : Image) (pixels : list Color)
    (cubeSize : Q) :
  grid_of cubicmap pixels ->
  exists mesh,
    GenMeshCubicmap cubicmap cubeSize = Some mesh
    /\ Z.of_nat (length (Mesh_vertices mesh)) = 3 * Mesh_vertexCount mesh
    /\ Z.of_nat (length (Mesh_texcoords mesh)) = 2 * Mesh_vertexCount mesh
    /\ Z.of_nat (length (Mesh_normals mesh)) = 3 * Mesh_vertexCount mesh
    /\ Forall is_Some (Mesh_vertices mesh)
    /\ Forall is_Some (Mesh_texcoords mesh)
    /\ Forall is_Some (Mesh_normals mesh).
Proof.
  intros Hgrid. unfold GenMeshCubicmap.
  rewrite (GenMeshCubicmap_faces_eq _ _ cubeSize Hgrid).
  eexists. split; [reflexivity |].
  unfold mesh_of_faces.
  cbn [fst Mesh_vertices Mesh_texcoords Mesh_normals Mesh_vertexCount].
  rewrite !length_fmap.
  rewrite (length_bind_const xyz 3), (length_bind_const xy 2)
    by (intros v; reflexivity).
  rewrite (length_bind_const xyz 3) by (intros v; reflexivity).
  rewrite length_entry_vertices, length_entry_texcoords, length_entry_normals.
  repeat split; try lia;
    apply Forall_fmap, Forall_forall; intros q _; eexists; reflexivity.
Qed.

Lemma GenMeshCubicmap_arrays_witness :
  grid_of map_ring pixels_ring
  /\ exists mesh,
       GenMeshCubicmap map_ring 1 = Some mesh
       /\ Z.of_nat (length (Mesh_vertices mesh)) = 3 * Mesh_vertexCount mesh.
Proof.
  assert (Hgrid : grid_of map_ring pixels_ring)
    by (split; [unfold well_sized, INT_MAX; cbn; lia | reflexivity]).
  split; [exact Hgrid |].
  destruct (GenMeshCubicmap_arrays map_ring pixels_ring 1 Hgrid)
    as (mesh & Hrun & Hv & _).
  exists mesh. split; [exact Hrun | exact Hv].
Defined.

(** ** The geometry of the faces *)

(** X15.  Winding and normals.  Each of the two triangles of a face lies in
    a plane across its stored normal, and the normal of its winding (the
    side from which the vertices are seen counter-clockwise) is the square
    of the cube size times the stored normal for the top, bottom, right,
    left, ceiling and floor faces; for the front and back faces it is the
    opposite: their stored normals point into the cube. *)
Theorem face_winding (cubeSize : Q) (x z : Z) (f : Face) (a b c : Vector3) :
  (a, b, c) ∈ triangles (face_vertices (corners cubeSize x z) f) ->
  Vector3_eq (winding a b c)
    (Vector3_scale (normal_sign f * (cubeSize * cubeSize)) (face_normal f))
  /\ (Vector3_dot (Vector3_sub b a) (face_normal f) == 0)%Q
  /\ (Vector3_dot (Vector3_sub c a) (face_normal f) == 0)%Q
  /\ (Vector3_dot (face_normal f) (face_normal f) == 1)%Q.
Proof.
  intros Hin. apply list_elem_of_In in Hin.
  destruct f; cbn in Hin; destruct Hin as [[= <- <- <-] | [[= <- <- <-] | []]];
    unfold Vector3_eq, winding, Vector3_cross, Vector3_sub, Vector3_scale,
      Vector3_dot;
    cbn [corners v1 v2 v3 v4 v5 v6 v7 v8 face_normal n1 n2 n3 n4 n5 n6
         normal_sign Vector3_x Vector3_y Vector3_z];
    repeat split; ring.
Qed.

Lemma face_winding_witness :
  (v2 (corners 1 0 0), v7 (corners 1 0 0), v3 (corners 1 0 0))
  ∈ triangles (face_vertices (corners 1 0 0) Front)
  /\ Vector3_eq
       (winding (v2 (corners 1 0 0)) (v7 (corners 1 0 0)) (v3 (corners 1 0 0)))
       (mkVector3 0 0 1).
Proof.
  assert (Hin : (v2 (corners 1 0 0), v7 (corners 1 0 0), v3 (corners 1 0 0))
                ∈ triangles (face_vertices (corners 1 0 0) Front)) by left.
  split; [exact Hin |].
  exact (proj1 (face_winding 1 0 0 Front _ _ _ Hin)).
Defined.

(** X16.  Texture coordinates.  Within a face, two vertices at the same
    point carry the same texture coordinates, for every cube size other
    than 0: the two triangles of a face map one quadrilateral to one
    rectangle of the atlas, without a seam along the shared diagonal. *)
Theorem face_texcoords_consistent (cubeSize : Q) (x z : Z) (f : Face)
    (i j : nat) (v v' : Vector3) :
  ~ (cubeSize == 0)%Q ->
  face_vertices (corners cubeSize x z) f !! i = Some v ->
  face_vertices (corners cubeSize x z) f !! j = Some v' ->
  Vector3_eq v v' ->
  face_texcoords f !! i = face_texcoords f !! j.
Proof.
  intros Hsize Hi Hj (Hx & Hy & Hz).
  destruct f;
    destruct i as [|[|[|[|[|[|i]]]]]]; try discriminate Hi;
    destruct j as [|[|[|[|[|[|j]]]]]]; try discriminate Hj;
    try reflexivity;
    exfalso; apply Hsize;
    cbn in Hi, Hj; injection Hi as <-; injection Hj as <-;
    cbn [Vector3_x Vector3_y Vector3_z] in Hx, Hy, Hz; lra.
Qed.

Lemma face_texcoords_consistent_witness :
  face_texcoords Top !! 2%nat = face_texcoords Top !! 4%nat.
Proof.
  apply (face_texcoords_consistent 1 0 0 Top 2 4
           (v3 (corners 1 0 0)) (v3 (corners 1 0 0)));
    [discriminate | reflexivity | reflexivity | repeat split; reflexivity].
Defined.

(** ** Cells of other colours, and maps of one colour *)

(** X17.  A cell that is neither pure white nor pure black leaves a gap in
    the mesh: the generator emits no face for it, and no wall cell emits
    the side face towards it. *)
Theorem GenMeshCubicmap_other_colour_gap
    (cubicmap : Image) (pixels : list Color) (cubeSize : Q) :
  grid_of cubicmap pixels ->
  exists mesh faces,
    GenMeshCubicmap_faces cubicmap cubeSize = Some (mesh, faces)
    /\ forall x z c,
         pixel_at pixels (Image_width cubicmap) x z = Some c ->
         is_white c = false -> is_black c = false ->
         (forall f, (x, z, f) ∉ faces)
         /\ (forall x' z' f,
               is_side f = true -> neighbour x' z' f = (x, z) ->
               (x', z', f) ∉ faces).
Proof.
  intros Hgrid. pose proof (grid_length cubicmap pixels Hgrid) as Hlen.
  eexists _, _. split; [apply GenMeshCubicmap_faces_eq, Hgrid |].
  intros x z c Hc Hw Hb. split.
  - intros f Hin. apply elem_of_all_faces in Hin as (_ & _ & Hf).
    unfold cell_faces in Hf. rewrite Hc, Hw, Hb in Hf.
    apply list_elem_of_In in Hf. destruct Hf.
  - intros x' z' f Hside Hn Hin.
    apply side_face_emitted in Hin as [_ [Hout | Hblack]]; try assumption.
    + rewrite Hn in Hout.
      rewrite (pixel_at_Some_inside _ _ _ _ _ _ Hlen Hc) in Hout. discriminate.
    + rewrite Hn in Hblack. cbn [fst snd] in Hblack.
      unfold black_at in Hblack. rewrite Hc in Hblack. congruence.
Qed.

Lemma GenMeshCubicmap_other_colour_gap_witness :
  grid_of map_red pixels_red
  /\ exists mesh faces,
       GenMeshCubicmap_faces map_red 1 = Some (mesh, faces)
       /\ forall f, (0, 0, f) ∉ faces.
Proof.
  assert (Hgrid : grid_of map_red pixels_red)
    by (split; [unfold well_sized, INT_MAX; cbn; lia | reflexivity]).
  split; [exact Hgrid |].
  destruct (GenMeshCubicmap_other_colour_gap map_red pixels_red 1 Hgrid)
    as (mesh & faces & Hrun & Hgap).
  exists mesh, faces. split; [exact Hrun |].
  apply (Hgap 0 0 red); reflexivity.
Defined.

(** Counting the elements of a concatenation. *)
Lemma length_bind_in {A B : Type} (g : A -> list B) (k : nat) (l : list A) :
  (forall a, a ∈ l -> length (g a) = k) -> length (l ≫= g) = (k * length l)%nat.
Proof.
  induction l as [|a l IH]; intros Hg; cbn; [lia |].
  rewrite length_app, (Hg a) by left.
  change (mbind g l) with (l ≫= g).
  rewrite IH by (intros b Hb; apply Hg; right; exact Hb). lia.
Qed.

(** The sum of lengths that are constant but for an extra at each of the
    two ends of the range. *)
Lemma length_bind_ends {B : Type} (g : Z -> list B) (a b c : nat) (n : Z) :
  1 <= n ->
  (forall i, 0 <= i < n ->
     length (g i)
     = (a + (if (i =? 0)%Z then b else 0)
          + (if (i =? n - 1)%Z then c else 0))%nat) ->
  Z.of_nat (length (seqZ 0 n ≫= g)) = n * Z.of_nat a + Z.of_nat b + Z.of_nat c.
Proof.
  intros Hn Hg. destruct (Z.eq_dec n 1) as [-> | Hn1].
  - change (seqZ 0 1) with [0]. cbn [mbind list_bind]. rewrite app_nil_r.
    rewrite (Hg 0) by lia. change (0 =? 1 - 1) with true.
    change (0 =? 0) with true. cbv iota. lia.
  - replace n with (1 + ((n - 2) + 1)) at 1 by lia.
    rewrite seqZ_app, seqZ_app by lia.
    change (seqZ 0 1) with [0].
    replace (seqZ (0 + 1 + (n - 2)) 1) with [n - 1]
      by (replace (0 + 1 + (n - 2)) with (n - 1) by lia; reflexivity).
    rewrite !bind_app, !length_app. cbn [mbind list_bind]. rewrite !app_nil_r.
    rewrite (Hg 0), (Hg (n - 1)) by lia.
    rewrite (length_bind_in g a).
    + rewrite length_seqZ.
      replace (0 =? n - 1) with false by (symmetry; apply Z.eqb_neq; lia).
      replace (n - 1 =? 0) with false by (symmetry; apply Z.eqb_neq; lia).
      rewrite !Z.eqb_refl.
      rewrite !Nat2Z.inj_add, Nat2Z.inj_mul, Z2Nat.id by lia. cbn [Z.of_nat]. nia.
    + intros i Hi. apply elem_of_seqZ in Hi. rewrite Hg by lia.
      replace (i =? 0) with false by (symmetry; apply Z.eqb_neq; lia).
      replace (i =? n - 1) with false by (symmetry; apply Z.eqb_neq; lia).
      lia.
Qed.

Lemma black_at_all_white (pixels : list Color) (W x z : Z) :
  Forall (fun c => is_white c = true) pixels -> black_at pixels W x z = false.
Proof.
  intros Hall. unfold black_at, pixel_at.
  destruct (_ && _); [| reflexivity].
  destruct (pixels !! _) as [c|] eqn:Hc; [| reflexivity].
  apply white_not_black. rewrite Forall_forall in Hall.
  apply Hall. eapply list_elem_of_lookup_2, Hc.
Qed.

Lemma cell_faces_all_white (cubicmap : Image) (pixels : list Color) (x z : Z) :
  grid_of cubicmap pixels ->
  Forall (fun c => is_white c = true) pixels ->
  0 <= x < Image_width cubicmap -> 0 <= z < Image_height cubicmap ->
  cell_faces pixels (Image_width cubicmap) (Image_height cubicmap) x z
  = [Top; Bottom]
    ++ (if z =? Image_height cubicmap - 1 then [Front] else [])
    ++ (if z =? 0 then [Back] else [])
    ++ (if x =? Image_width cubicmap - 1 then [Right] else [])
    ++ (if x =? 0 then [Left] else []).
Proof.
  intros Hgrid Hall Hx Hz.
  pose proof (grid_length cubicmap pixels Hgrid) as Hlen.
  destruct (pixel_at_inside cubicmap pixels (proj1 Hgrid) Hlen x z Hx Hz)
    as (c & Hc & _).
  unfold cell_faces. rewrite Hc.
  assert (Hw : is_white c = true).
  { rewrite Forall_forall in Hall. apply Hall.
    unfold pixel_at in Hc. destruct (_ && _); [| discriminate].
    eapply list_elem_of_lookup_2, Hc. }
  rewrite Hw, !black_at_all_white by exact Hall.
  rewrite !andb_false_r. reflexivity.
Qed.

Lemma cell_faces_all_black (cubicmap : Image) (pixels : list Color) (x z : Z) :
  grid_of cubicmap pixels ->
  Forall (fun c => is_black c = true) pixels ->
  0 <= x < Image_width cubicmap -> 0 <= z < Image_height cubicmap ->
  cell_faces pixels (Image_width cubicmap) (Image_height cubicmap) x z
  = [Ceiling; Floor].
Proof.
  intros Hgrid Hall Hx Hz.
  pose proof (grid_length cubicmap pixels Hgrid) as Hlen.
  destruct (pixel_at_inside cubicmap pixels (proj1 Hgrid) Hlen x z Hx Hz)
    as (c & Hc & _).
  apply cell_faces_black. unfold black_at. rewrite Hc.
  rewrite Forall_forall in Hall. apply Hall.
  unfold pixel_at in Hc. destruct (_ && _); [| discriminate].
  eapply list_elem_of_lookup_2, Hc.
Qed.

(** X18.  Maps of one colour.  Of a solid block of W x H wall cells the
    generator emits the outer shell only: the tops and bottoms and the
    2*W + 2*H side faces of the border, 12*(W*H + W + H) vertices instead
    of the 36*W*H of the cubes.  Of an open hall of W x H cells it emits the
    floor and the ceiling: 12*W*H vertices. *)
Theorem GenMeshCubicmap_one_colour (cubicmap : Image) (pixels : list Color)
    (cubeSize : Q) :
  grid_of cubicmap pixels ->
  1 <= Image_width cubicmap -> 1 <= Image_height cubicmap ->
  exists mesh,
    GenMeshCubicmap cubicmap cubeSize = Some mesh
    /\ (Forall (fun c => is_white c = true) pixels ->
        Mesh_vertexCount mesh
        = 12 * (Image_width cubicmap * Image_height cubicmap
                + Image_width cubicmap + Image_height cubicmap))
    /\ (Forall (fun c => is_black c = true) pixels ->
        Mesh_vertexCount mesh
        = 12 * (Image_width cubicmap * Image_height cubicmap)).
Proof.
  intros Hgrid HW HH. unfold GenMeshCubicmap.
  rewrite (GenMeshCubicmap_faces_eq _ _ cubeSize Hgrid).
  eexists. split; [reflexivity |].
  cbn [fst mesh_of_faces Mesh_vertexCount]. unfold all_faces, row_faces. split.
  - intros Hall.
    rewrite (length_bind_ends _ (2 * Z.to_nat (Image_width cubicmap) + 2)
               (Z.to_nat (Image_width cubicmap))
               (Z.to_nat (Image_width cubicmap))); [lia | exact HH |].
    intros z Hz. apply Nat2Z.inj.
    rewrite (length_bind_ends _
               (2 + (if z =? 0 then 1 else 0)
                + (if z =? Image_height cubicmap - 1 then 1 else 0)) 1 1);
      [| exact HW |].
    + destruct (z =? 0), (z =? Image_height cubicmap - 1); lia.
    + intros x Hx. rewrite length_fmap.
      rewrite (cell_faces_all_white cubicmap pixels x z Hgrid Hall Hx Hz).
      destruct (z =? 0), (z =? Image_height cubicmap - 1), (x =? 0),
        (x =? Image_width cubicmap - 1); reflexivity.
  - intros Hall.
    rewrite (length_bind_in _ (2 * Z.to_nat (Image_width cubicmap))).
    + rewrite length_seqZ. nia.
    + intros z Hz. apply elem_of_seqZ in Hz.
      rewrite (length_bind_in _ 2).
      * rewrite length_seqZ. lia.
      * intros x Hx. apply elem_of_seqZ in Hx. rewrite length_fmap.
        rewrite (cell_faces_all_black cubicmap pixels x z Hgrid Hall) by lia.
        reflexivity.
Qed.

Lemma GenMeshCubicmap_one_colour_witness :
  grid_of map_wide pixels_wide
  /\ exists mesh,
       GenMeshCubicmap map_wide 1 = Some mesh /\ Mesh_vertexCount mesh = 24.
Proof.
  assert (Hgrid : grid_of map_wide pixels_wide)
    by (split; [unfold well_sized, INT_MAX; cbn; lia | reflexivity]).
  split; [exact Hgrid |].
  destruct (GenMeshCubicmap_one_colour map_wide pixels_wide 1 Hgrid)
    as (mesh & Hrun & _ & Hblack); [cbn; lia | cbn; lia |].
  exists mesh. split; [exact Hrun |].
  apply Hblack. repeat constructor.
Defined.

(** ** The camera controller: view angles and speed *)

(** The pitch after a call. *)
Lemma UpdateCamera_pitch_range (sinf cosf : Q -> Q) (DEG2RAD : Q)
    (input : Input) (st : CameraStatics) (camera : Camera) :
  (0 <= DEG2RAD)%Q ->
  (- (85 * DEG2RAD)
   <= Vector2_y (cameraAngle (snd (UpdateCamera sinf cosf DEG2RAD input st camera)))
   <= 85 * DEG2RAD)%Q.
Proof.
  intros HD. unfold UpdateCamera.
  cbn [snd cameraAngle Vector2_y].
  unfold CAMERA_FIRST_PERSON_MIN_CLAMP, CAMERA_FIRST_PERSON_MAX_CLAMP, Qltb.
  match goal with
  | |- context [if Qgtb ?a ?b then _ else _] =>
      destruct (Qgtb a b) eqn:Hhi;
      [apply Qgtb_true in Hhi | apply Qgtb_false in Hhi]
  end; [lra |].
  match goal with
  | |- context [if negb (Qle_bool ?a ?b) then _ else _] =>
      destruct (Qle_bool a b) eqn:Hlo;
      [apply Qle_bool_iff in Hlo | apply Qle_bool_false in Hlo]
  end; cbn [negb]; lra.
Qed.

(** X19.  The pitch angle that the controller leaves lies between -85 and
    85 degrees, whatever the pitch before and the movement of the mouse,
    for a conversion factor [DEG2RAD] that is not negative; the position
    of the mouse is recorded for the next call. *)
Theorem UpdateCamera_pitch_clamped (sinf cosf : Q -> Q) (DEG2RAD : Q)
    (input : Input) (st : CameraStatics) (camera : Camera) :
  (0 <= DEG2RAD)%Q ->
  let st' := snd (UpdateCamera sinf cosf DEG2RAD input st camera) in
  (- (85 * DEG2RAD) <= Vector2_y (cameraAngle st') <= 85 * DEG2RAD)%Q
  /\ previousMousePosition st' = mousePosition input.
Proof.
  intros HD. cbv zeta. split.
  - apply UpdateCamera_pitch_range, HD.
  - reflexivity.
Qed.

Lemma UpdateCamera_pitch_clamped_witness :
  (0 <= 1 # 57)%Q
  /\ (Vector2_y (cameraAngle
        (snd (UpdateCamera (fun _ => 0%Q) (fun _ => 1%Q) (1 # 57)
                (mkInput (mkVector2 0 (- (1000))) (fun _ => false))
                statics0 (camera_at Vector3One))))
      <= 85 * (1 # 57))%Q.
Proof.
  assert (HD : (0 <= 1 # 57)%Q) by (vm_compute; discriminate).
  split; [exact HD |].
  exact (proj2 (proj1 (UpdateCamera_pitch_clamped (fun _ => 0%Q) (fun _ => 1%Q)
                         (1 # 57)
                         (mkInput (mkVector2 0 (- (1000))) (fun _ => false))
                         statics0 (camera_at Vector3One) HD))).
Defined.

(** X20.  The view turns by the displacement of the mouse since the
    previous call: in two calls in a row, when the mouse is at the same
    position in the second as in the first, the second call leaves the
    yaw and the pitch that the first call left. *)
Theorem UpdateCamera_mouse_at_rest (sinf cosf : Q -> Q) (DEG2RAD : Q)
    (input1 input2 : Input) (st : CameraStatics) (camera : Camera) :
  (0 <= DEG2RAD)%Q ->
  mousePosition input2 = mousePosition input1 ->
  let first := UpdateCamera sinf cosf DEG2RAD input1 st camera in
  let second := UpdateCamera sinf cosf DEG2RAD input2 (snd first) (fst first) in
  (Vector2_x (cameraAngle (snd second)) == Vector2_x (cameraAngle (snd first)))%Q
  /\ (Vector2_y (cameraAngle (snd second)) == Vector2_y (cameraAngle (snd first)))%Q.
Proof.
  intros HD Hmouse. cbv zeta.
  pose proof (UpdateCamera_pitch_range sinf cosf DEG2RAD input1 st camera HD)
    as Hrange.
  destruct (UpdateCamera sinf cosf DEG2RAD input1 st camera) as [c1 s1] eqn:H1.
  assert (Hprev : previousMousePosition s1 = mousePosition input1)
    by (unfold UpdateCamera in H1; cbv zeta in H1; injection H1 as _ <-; reflexivity).
  cbn [fst snd] in *. unfold UpdateCamera.
  cbn [snd cameraAngle Vector2_x Vector2_y].
  rewrite Hprev, Hmouse.
  unfold CAMERA_FIRST_PERSON_MIN_CLAMP, CAMERA_FIRST_PERSON_MAX_CLAMP, Qltb,
    CAMERA_MOUSE_MOVE_SENSITIVITY.
  split; [ring |].
  match goal with
  | |- context [if Qgtb ?a ?b then _ else _] =>
      destruct (Qgtb a b) eqn:Hhi;
      [apply Qgtb_true in Hhi | apply Qgtb_false in Hhi]
  end; [lra |].
  match goal with
  | |- context [if negb (Qle_bool ?a ?b) then _ else _] =>
      destruct (Qle_bool a b) eqn:Hlo;
      [apply Qle_bool_iff in Hlo | apply Qle_bool_false in Hlo]
  end; cbn [negb]; [ring | lra].
Qed.

Lemma UpdateCamera_mouse_at_rest_witness :
  (0 <= 1 # 57)%Q
  /\ (Vector2_x (cameraAngle
        (snd (UpdateCamera (fun _ => 0%Q) (fun _ => 1%Q) (1 # 57)
                (mkInput (mkVector2 100 50) (fun _ => false))
                (snd (UpdateCamera (fun _ => 0%Q) (fun _ => 1%Q) (1 # 57)
                        (mkInput (mkVector2 100 50) (fun _ => false))
                        statics0 (camera_at Vector3One)))
                (fst (UpdateCamera (fun _ => 0%Q) (fun _ => 1%Q) (1 # 57)
                        (mkInput (mkVector2 100 50) (fun _ => false))
                        statics0 (camera_at Vector3One))))))
      == - (3 # 10))%Q.
Proof.
  assert (HD : (0 <= 1 # 57)%Q) by (vm_compute; discriminate).
  split; [exact HD |].
  rewrite (proj1 (UpdateCamera_mouse_at_rest (fun _ => 0%Q) (fun _ => 1%Q) (1 # 57)
                    (mkInput (mkVector2 100 50) (fun _ => false))
                    (mkInput (mkVector2 100 50) (fun _ => false))
                    statics0 (camera_at Vector3One) HD eq_refl)).
  reflexivity.
Defined.





(** ** Keyboard and mouse state *)

Lemma char_get_inside (a : list Z) (i : Z) :
  0 <= i < Z.of_nat (length a) -> exists v, char_get a i = Some v.
Proof.
  intros Hi. unfold char_get.
  replace (0 <=? i) with true by (symmetry; apply Z.leb_le; lia).
  apply lookup_lt_is_Some_2. lia.
Qed.

Lemma char_set_get (a a' : list Z) (i j v : Z) :
  char_set a i v = Some a' ->
  length a' = length a
  /\ char_get a' i = Some v
  /\ (j <> i -> char_get a' j = char_get a j).
Proof.
  unfold char_set, char_get.
  destruct ((0 <=? i) && (i <? Z.of_nat (length a))) eqn:Hi; [| discriminate].
  apply andb_true_iff in Hi as [Hlo Hhi].
  apply Z.leb_le in Hlo. apply Z.ltb_lt in Hhi.
  intros [= <-]. split; [apply length_insert |]. split.
  - replace (0 <=? i) with true by (symmetry; apply Z.leb_le; lia).
    apply list_lookup_insert_eq. lia.
  - intros Hj. destruct (0 <=? j) eqn:Hj0; [| reflexivity].
    apply Z.leb_le in Hj0. apply list_lookup_insert_ne. lia.
Qed.

Lemma copy_char_step (current previous : list Z) (k : nat) :
  (k < length current)%nat -> length previous = length current ->
  copy_char current (take k current ++ drop k previous) (Z.of_nat k)
  = Some (take (S k) current ++ drop (S k) previous).
Proof.
  intros Hk Hlen.
  destruct (lookup_lt_is_Some_2 current k Hk) as [v Hv].
  destruct (lookup_lt_is_Some_2 previous k ltac:(lia)) as [w Hw].
  unfold copy_char, char_get.
  replace (0 <=? Z.of_nat k) with true by (symmetry; apply Z.leb_le; lia).
  rewrite Nat2Z.id, Hv. cbn [mbind option_bind].
  unfold char_set. rewrite length_app, length_take, length_drop.
  replace ((0 <=? Z.of_nat k) && _) with true
    by (symmetry; apply andb_true_iff; split;
        [apply Z.leb_le | apply Z.ltb_lt]; lia).
  rewrite Nat2Z.id.
  rewrite insert_app_r_alt by (rewrite length_take; lia).
  rewrite length_take, (drop_S previous w k Hw).
  replace (k - k `min` length current)%nat with 0%nat by lia.
  cbn [insert list_insert].
  rewrite (take_S_r current k v Hv), <- app_assoc. reflexivity.
Qed.

(** The copy loop makes the previous state the current one. *)
Lemma copy_chars_loop (current previous : list Z) (m k : nat) :
  length current = (k + m)%nat -> length previous = (k + m)%nat ->
  for_loop (copy_char current)
    (take k current ++ drop k previous) (seqZ (Z.of_nat k) (Z.of_nat m))
  = Some current.
Proof.
  revert k. induction m as [|m IH]; intros k Hc Hp.
  - cbn. rewrite take_ge, drop_ge, app_nil_r by lia. reflexivity.
  - rewrite Nat2Z.inj_succ, seqZ_cons by lia. cbn [for_loop].
    rewrite copy_char_step by lia. cbn [mbind option_bind].
    replace (Z.succ (Z.of_nat k)) with (Z.of_nat (S k)) by lia.
    replace (Z.pred (Z.succ (Z.of_nat m))) with (Z.of_nat m) by lia.
    apply IH; lia.
Qed.

Lemma copy_chars_all (n : nat) (current previous : list Z) :
  length current = n -> length previous = n ->
  copy_chars (Z.of_nat n) current previous = Some current.
Proof.
  intros Hc Hp. unfold copy_chars, for_range. rewrite Z.sub_0_r.
  exact (copy_chars_loop current previous n 0 Hc Hp).
Qed.

(** The conversion to [char] keeps the low 8 bits. *)
Lemma char_of_int_small (v : Z) : - 128 <= v <= 127 -> char_of_int v = v.
Proof.
  intros Hv. unfold char_of_int. rewrite Z.mod_small by lia. lia.
Qed.

Lemma char_of_int_one (v : Z) : char_of_int v = 1 <-> v mod 256 = 1.
Proof.
  unfold char_of_int.
  pose proof (Z.mod_pos_bound (v + 128) 256 ltac:(lia)).
  pose proof (Z.mod_pos_bound v 256 ltac:(lia)).
  rewrite (Z.add_mod v 128 256) by lia. change (128 mod 256) with 128.
  split; intros Heq.
  - destruct (Z_lt_le_dec (v mod 256) 128) as [Hlow | Hhigh].
    + rewrite Z.mod_small in Heq by lia. lia.
    + replace (v mod 256 + 128) with ((v mod 256 - 128) + 1 * 256) in Heq by lia.
      rewrite Z.mod_add, Z.mod_small in Heq by lia. lia.
  - rewrite Heq. reflexivity.
Qed.

Section InputProperties.

Variables GLFW_KEY_ESCAPE GLFW_PRESS : Z.

Local Abbreviation KeyCallback' := (KeyCallback GLFW_KEY_ESCAPE GLFW_PRESS).
Local Abbreviation glfwPollEvents' := (glfwPollEvents GLFW_KEY_ESCAPE GLFW_PRESS).
Local Abbreviation PollInputEvents' := (PollInputEvents GLFW_KEY_ESCAPE GLFW_PRESS).
Local Abbreviation poll_frames' := (poll_frames GLFW_KEY_ESCAPE GLFW_PRESS).

(** The two copy loops of [PollInputEvents]. *)
Lemma PollInputEvents_copies (events : list InputEvent) (s : InputState) :
  input_arrays s ->
  PollInputEvents' events s
  = glfwPollEvents' events
      (mkInputState (currentKeyState s) (currentKeyState s)
         (currentMouseState s) (currentMouseState s) (windowShouldClose s)).
Proof.
  intros (HpK & HcK & HpM & HcM). unfold PollInputEvents.
  change 512 with (Z.of_nat 512). change 3 with (Z.of_nat 3).
  rewrite (copy_chars_all 512) by assumption. cbn [mbind option_bind].
  rewrite (copy_chars_all 3) by assumption. reflexivity.
Qed.

(** A key other than escape, or an action other than a press, is recorded
    in the array of the current states. *)
Lemma KeyCallback_records (key action : Z) (s s' : InputState) :
  KeyCallback' key action s = Some s' ->
  (key = GLFW_KEY_ESCAPE /\ action = GLFW_PRESS
   /\ currentKeyState s' = currentKeyState s /\ windowShouldClose s' = true)
  \/ (~ (key = GLFW_KEY_ESCAPE /\ action = GLFW_PRESS)
      /\ char_set (currentKeyState s) key (char_of_int action)
         = Some (currentKeyState s')
      /\ windowShouldClose s' = windowShouldClose s).
Proof.
  unfold KeyCallback.
  destruct ((key =? GLFW_KEY_ESCAPE) && (action =? GLFW_PRESS)) eqn:Hesc.
  - intros [= <-]. left.
    apply andb_true_iff in Hesc as [Hk Ha].
    apply Z.eqb_eq in Hk, Ha. repeat split; assumption.
  - intros Hset. bind_inv Hset. injection Hset as <-. right.
    apply andb_false_iff in Hesc. rewrite !Z.eqb_neq in Hesc.
    split; [tauto | split; reflexivity].
Qed.

(** X23.  A press is reported for one turn of the main loop.  For a key of
    the array other than escape that was not registered as pressed, after
    the call of [PollInputEvents] during which its press arrives
    [IsKeyPressed] answers [true], and after the next call, during which
    nothing arrives, it answers [false]; this relies on GLFW_PRESS being
    the 1 that [IsKeyPressed] compares with.  The state of a key is kept
    in a [char], so that only the low 8 bits of the action count: an event
    whose action is not 1 modulo 256 (a release, a repeat) is not reported
    as a press, and one whose action is 1 modulo 256, as 257, is. *)
Theorem key_press_reported_once (key : Z) (s : InputState) :
  GLFW_PRESS = 1 ->
  input_arrays s ->
  0 <= key < 512 -> key <> GLFW_KEY_ESCAPE ->
  (char_get (currentKeyState s) key <> Some 1 ->
   exists s1 s2,
     PollInputEvents' [KeyEvent key GLFW_PRESS] s = Some s1
     /\ IsKeyPressed key s1 = Some true
     /\ PollInputEvents' [] s1 = Some s2
     /\ IsKeyPressed key s2 = Some false)
  /\ (forall action,
        action mod 256 <> 1 ->
        exists s1,
          PollInputEvents' [KeyEvent key action] s = Some s1
          /\ IsKeyPressed key s1 = Some false)
  /\ (forall action,
        action mod 256 = 1 ->
        char_get (currentKeyState s) key <> Some 1 ->
        exists s1,
          PollInputEvents' [KeyEvent key action] s = Some s1
          /\ IsKeyPressed key s1 = Some true).
Proof.
  intros Hpress Harr Hkey Hesc.
  pose proof Harr as (HpK & HcK & HpM & HcM).
  assert (Hset : forall v,
             exists keys,
               char_set (currentKeyState s) key v = Some keys
               /\ length keys = 512%nat
               /\ char_get keys key = Some v).
  { intros v. unfold char_set. rewrite HcK.
    replace ((0 <=? key) && (key <? Z.of_nat 512)) with true
      by (symmetry; apply andb_true_iff; split;
          [apply Z.leb_le | apply Z.ltb_lt]; lia).
    eexists. split; [reflexivity |]. split; [rewrite length_insert; exact HcK |].
    unfold char_get.
    replace (0 <=? key) with true by (symmetry; apply Z.leb_le; lia).
    apply list_lookup_insert_eq. lia. }
  destruct (char_get_inside (currentKeyState s) key ltac:(lia)) as [old Hold].
  assert (Hrun : forall action,
             exists keys,
               PollInputEvents' [KeyEvent key action] s
               = Some (mkInputState (currentKeyState s) keys
                         (currentMouseState s) (currentMouseState s)
                         (windowShouldClose s))
               /\ length keys = 512%nat
               /\ char_get keys key = Some (char_of_int action)).
  { intros action.
    destruct (Hset (char_of_int action)) as (keys & Hkeys & Hlen & Hget).
    exists keys. split; [| split; assumption].
    rewrite PollInputEvents_copies by exact Harr.
    cbn [glfwPollEvents]. unfold KeyCallback.
    replace (key =? GLFW_KEY_ESCAPE) with false
      by (symmetry; apply Z.eqb_neq; exact Hesc).
    cbn [andb currentKeyState]. rewrite Hkeys. reflexivity. }
  assert (Hone : forall action old',
             action mod 256 = 1 -> old' <> 1 ->
             (char_of_int action =? old') = false
             /\ (char_of_int action =? 1) = true).
  { intros action old' Haction Hold'.
    apply char_of_int_one in Haction. rewrite Haction.
    split; [apply Z.eqb_neq; congruence | reflexivity]. }
  split; [| split].
  - intros Hup. destruct (Hrun GLFW_PRESS) as (keys & Hs1 & Hlen & Hget).
    rewrite Hpress in Hget. change (char_of_int 1) with 1 in Hget.
    eexists _, _. split; [exact Hs1 |]. split; [| split].
    + unfold IsKeyPressed. cbn [currentKeyState previousKeyState].
      rewrite Hget, Hold. cbn [mbind option_bind].
      replace (1 =? old) with false
        by (symmetry; apply Z.eqb_neq; congruence).
      reflexivity.
    + rewrite PollInputEvents_copies by (repeat split; assumption).
      reflexivity.
    + unfold IsKeyPressed. cbn [currentKeyState previousKeyState].
      rewrite Hget. cbn [mbind option_bind]. rewrite Z.eqb_refl. reflexivity.
  - intros action Haction. destruct (Hrun action) as (keys & Hs1 & Hlen & Hget).
    eexists. split; [exact Hs1 |].
    unfold IsKeyPressed. cbn [currentKeyState previousKeyState].
    rewrite Hget, Hold. cbn [mbind option_bind].
    replace (char_of_int action =? 1) with false.
    + rewrite andb_false_r. reflexivity.
    + symmetry. apply Z.eqb_neq. rewrite char_of_int_one. exact Haction.
  - intros action Haction Hup.
    destruct (Hrun action) as (keys & Hs1 & Hlen & Hget).
    eexists. split; [exact Hs1 |].
    unfold IsKeyPressed. cbn [currentKeyState previousKeyState].
    rewrite Hget, Hold. cbn [mbind option_bind].
    destruct (Hone action old Haction ltac:(congruence)) as [-> ->].
    reflexivity.
Qed.

Lemma KeyCallback_escape_up (key action : Z) (s s' : InputState) :
  GLFW_PRESS = 1 ->
  0 <= action <= 127 ->
  escape_up GLFW_KEY_ESCAPE s ->
  KeyCallback' key action s = Some s' ->
  escape_up GLFW_KEY_ESCAPE s'
  /\ windowShouldClose s'
     = windowShouldClose s
       || is_escape_press GLFW_KEY_ESCAPE GLFW_PRESS (KeyEvent key action).
Proof.
  intros Hpress Hsmall [(HpK & HcK & HpM & HcM) Hup] Hcall.
  pose proof Hcall as Hrec. apply KeyCallback_records in Hrec.
  cbn [is_escape_press].
  destruct Hrec as [(Hk & Ha & Hcur & Hflag) | (Hother & Hset & Hflag)].
  - split.
    + unfold KeyCallback in Hcall. rewrite Hk, Ha, !Z.eqb_refl in Hcall.
      injection Hcall as <-. repeat split; assumption.
    + rewrite Hflag, Hk, Ha, !Z.eqb_refl, orb_true_r. reflexivity.
  - unfold KeyCallback in Hcall.
    destruct ((key =? GLFW_KEY_ESCAPE) && (action =? GLFW_PRESS)) eqn:Hesc.
    { apply andb_true_iff in Hesc as [Hk Ha]. apply Z.eqb_eq in Hk, Ha. tauto. }
    rewrite orb_false_r. split; [| exact Hflag].
    bind_inv Hcall. injection Hcall as <-. clear Hset.
    destruct (char_set_get _ _ _ GLFW_KEY_ESCAPE _ E) as (Hlen & Hsame & Hdiff).
    split; [repeat split; cbn; congruence |].
    cbn [currentKeyState].
    destruct (Z.eq_dec GLFW_KEY_ESCAPE key) as [Heq | Hne].
    + subst key. rewrite Hsame, char_of_int_small by lia. intros [= Hone].
      apply Hother. split; [reflexivity | congruence].
    + rewrite (Hdiff Hne). exact Hup.
Qed.

Lemma glfwPollEvents_escape_up (events : list InputEvent) (s s' : InputState) :
  GLFW_PRESS = 1 ->
  Forall small_action events ->
  escape_up GLFW_KEY_ESCAPE s ->
  glfwPollEvents' events s = Some s' ->
  escape_up GLFW_KEY_ESCAPE s'
  /\ windowShouldClose s'
     = windowShouldClose s
       || existsb (is_escape_press GLFW_KEY_ESCAPE GLFW_PRESS) events.
Proof.
  intros Hpress Hsmall. revert s.
  induction Hsmall as [|e events He Hsmall IH]; intros s Hup Hrun.
  - injection Hrun as <-. rewrite orb_false_r. split; [exact Hup | reflexivity].
  - cbn [glfwPollEvents existsb] in *. destruct e as [key action | button action | x y].
    + bind_inv Hrun.
      destruct (KeyCallback_escape_up _ _ _ _ Hpress He Hup E) as [Hup' Hflag].
      destruct (IH _ Hup' Hrun) as [Hup'' Hflag'].
      split; [exact Hup'' |]. rewrite Hflag', Hflag, orb_assoc. reflexivity.
    + bind_inv Hrun. unfold MouseButtonCallback in E. bind_inv E.
      injection E as <-.
      match type of Hrun with
      | glfwPollEvents _ _ _ ?t = _ => assert (Hup' : escape_up GLFW_KEY_ESCAPE t)
      end.
      { destruct Hup as [(HpK & HcK & HpM & HcM) Hup].
        split; [| exact Hup]. repeat split; try assumption.
        cbn [currentMouseState].
        destruct (char_set_get _ _ _ 0 _ E0) as (Hlen & _). congruence. }
      destruct (IH _ Hup' Hrun) as [Hup'' Hflag'].
      split; [exact Hup'' |]. rewrite Hflag'. reflexivity.
    + cbn [MouseCursorPosCallback mbind option_bind] in Hrun.
      destruct (IH _ Hup Hrun) as [Hup'' Hflag'].
      split; [exact Hup'' |]. rewrite Hflag'. reflexivity.
Qed.

Lemma poll_frames_escape_up (frames : list (list InputEvent)) (s s' : InputState) :
  GLFW_PRESS = 1 ->
  Forall (Forall small_action) frames ->
  escape_up GLFW_KEY_ESCAPE s ->
  poll_frames' frames s = Some s' ->
  escape_up GLFW_KEY_ESCAPE s'
  /\ windowShouldClose s'
     = windowShouldClose s
       || existsb (existsb (is_escape_press GLFW_KEY_ESCAPE GLFW_PRESS)) frames.
Proof.
  intros Hpress Hsmall. revert s.
  induction Hsmall as [|events frames He Hsmall IH]; intros s Hup Hrun.
  - injection Hrun as <-. rewrite orb_false_r. split; [exact Hup | reflexivity].
  - cbn [poll_frames existsb] in *. bind_inv Hrun.
    rewrite PollInputEvents_copies in E by apply Hup.
    apply glfwPollEvents_escape_up in E as [Hup' Hflag];
      [| exact Hpress | exact He |].
    + destruct (IH _ Hup' Hrun) as [Hup'' Hflag'].
      split; [exact Hup'' |]. rewrite Hflag', Hflag, orb_assoc. reflexivity.
    + destruct Hup as [(HpK & HcK & HpM & HcM) Hup].
      split; [repeat split; assumption | exact Hup].
Qed.

(** X24.  The escape key closes the window unseen.  Through any sequence
    of turns of the main loop, started with the arrays as declared, in
    which every action reported fits a [char] (the window library reports
    0, 1 and 2), the press of escape is never written into the array of
    the key states: [IsKeyPressed] answers [false] for escape, and the
    close flag of the window is set exactly when a press of escape
    arrived.  The bound on the actions is needed: an escape event with the
    action 257 is not a press for [KeyCallback], which stores it as the 1
    that [IsKeyPressed] reads as a press. *)
Theorem escape_closes_unseen (frames : list (list InputEvent)) (s : InputState) :
  GLFW_PRESS = 1 ->
  0 <= GLFW_KEY_ESCAPE < 512 ->
  (Forall (Forall small_action) frames ->
   poll_frames' frames initial_input = Some s ->
   IsKeyPressed GLFW_KEY_ESCAPE s = Some false
   /\ windowShouldClose s
      = existsb (existsb (is_escape_press GLFW_KEY_ESCAPE GLFW_PRESS)) frames)
  /\ (exists s',
        poll_frames' [[KeyEvent GLFW_KEY_ESCAPE 257]] initial_input = Some s'
        /\ IsKeyPressed GLFW_KEY_ESCAPE s' = Some true
        /\ windowShouldClose s' = false).
Proof.
  intros Hpress Hesc. split.
  - intros Hsmall Hrun.
    apply poll_frames_escape_up in Hrun as [[Harr Hup] Hflag];
      [| exact Hpress | exact Hsmall |].
    + split; [| exact Hflag].
      destruct Harr as (HpK & HcK & _ & _).
      destruct (char_get_inside (currentKeyState s) GLFW_KEY_ESCAPE ltac:(lia))
        as [c Hc].
      destruct (char_get_inside (previousKeyState s) GLFW_KEY_ESCAPE ltac:(lia))
        as [p Hp].
      unfold IsKeyPressed. rewrite Hc, Hp. cbn [mbind option_bind].
      replace (c =? 1) with false by (symmetry; apply Z.eqb_neq; congruence).
      rewrite andb_false_r. reflexivity.
    + split; [repeat split; reflexivity |].
      unfold char_get, initial_input. cbn [currentKeyState].
      replace (0 <=? GLFW_KEY_ESCAPE) with true by (symmetry; apply Z.leb_le; lia).
      intros Hone. apply lookup_replicate in Hone as [Hone _]. discriminate.
  - cbn [poll_frames].
    rewrite PollInputEvents_copies by (repeat split; reflexivity).
    cbn [glfwPollEvents]. unfold KeyCallback.
    rewrite Hpress. change (257 =? 1) with false. rewrite andb_false_r.
    change (char_of_int 257) with 1.
    cbn [initial_input currentKeyState currentMouseState windowShouldClose].
    unfold char_set. rewrite length_replicate.
    replace ((0 <=? GLFW_KEY_ESCAPE) && (GLFW_KEY_ESCAPE <? Z.of_nat 512)) with true
      by (symmetry; apply andb_true_iff; split;
          [apply Z.leb_le | apply Z.ltb_lt]; lia).
    cbn [mbind option_bind mret option_ret].
    eexists. split; [reflexivity |]. split; [| reflexivity].
    unfold IsKeyPressed, char_get. cbn [currentKeyState previousKeyState].
    replace (0 <=? GLFW_KEY_ESCAPE) with true by (symmetry; apply Z.leb_le; lia).
    rewrite list_lookup_insert_eq by (rewrite length_replicate; lia).
    rewrite lookup_replicate_2 by lia.
    reflexivity.
Qed.

(** X25.  Events outside the arrays.  A key event whose key is not an
    index of the array of 512 key states (as the -1 of an unknown key) and
    a button event whose button is not one of the 3 registered (as the
    buttons 4 to 8 of a mouse) are written outside the arrays: the
    callbacks have no defined result on them, except for a press of escape,
    which writes nothing. *)
Theorem input_event_outside_arrays (index action : Z) (s : InputState) :
  input_arrays s ->
  (~ 0 <= index < 512 ->
   ~ (index = GLFW_KEY_ESCAPE /\ action = GLFW_PRESS) ->
   KeyCallback' index action s = None)
  /\ (~ 0 <= index < 3 -> MouseButtonCallback index action s = None)
  /\ (0 <= index < 512 -> exists s', KeyCallback' index action s = Some s')
  /\ (0 <= index < 3 -> exists s', MouseButtonCallback index action s = Some s').
Proof.
  intros (HpK & HcK & HpM & HcM).
  assert (Hset : forall (a : list Z) (n : nat),
             length a = n ->
             (~ 0 <= index < Z.of_nat n ->
              char_set a index (char_of_int action) = None)
             /\ (0 <= index < Z.of_nat n ->
                 exists a', char_set a index (char_of_int action) = Some a')).
  { intros a n Hlen. unfold char_set. rewrite Hlen. split; intros Hi.
    - replace ((0 <=? index) && (index <? Z.of_nat n)) with false; [reflexivity |].
      symmetry. apply andb_false_iff. rewrite Z.leb_gt, Z.ltb_ge. lia.
    - replace ((0 <=? index) && (index <? Z.of_nat n)) with true;
        [eexists; reflexivity |].
      symmetry. apply andb_true_iff. rewrite Z.leb_le, Z.ltb_lt. lia. }
  destruct (Hset _ _ HcK) as [HoutK HinK].
  destruct (Hset _ _ HcM) as [HoutM HinM].
  split; [| split; [| split]].
  - intros Hout Hesc. unfold KeyCallback.
    replace ((index =? GLFW_KEY_ESCAPE) && (action =? GLFW_PRESS)) with false.
    + rewrite HoutK by exact Hout. reflexivity.
    + symmetry. apply andb_false_iff. rewrite !Z.eqb_neq.
      destruct (Z.eq_dec index GLFW_KEY_ESCAPE) as [Hk | Hk]; [right | left; exact Hk].
      intros Ha. apply Hesc. split; assumption.
  - intros Hout. unfold MouseButtonCallback.
    rewrite HoutM by exact Hout. reflexivity.
  - intros Hin. unfold KeyCallback.
    destruct ((index =? GLFW_KEY_ESCAPE) && (action =? GLFW_PRESS));
      [eexists; reflexivity |].
    destruct (HinK Hin) as [a' ->]. eexists. reflexivity.
  - intros Hin. unfold MouseButtonCallback.
    destruct (HinM Hin) as [a' ->]. eexists. reflexivity.
Qed.

End InputProperties.

Lemma key_press_reported_once_witness :
  (exists s1 s2,
     PollInputEvents 256 1 [KeyEvent 32 1] initial_input = Some s1
     /\ IsKeyPressed 32 s1 = Some true
     /\ PollInputEvents 256 1 [] s1 = Some s2
     /\ IsKeyPressed 32 s2 = Some false)
  /\ (exists s1,
        PollInputEvents 256 1 [KeyEvent 32 257] initial_input = Some s1
        /\ IsKeyPressed 32 s1 = Some true).
Proof.
  assert (Harr : input_arrays initial_input) by (repeat split; reflexivity).
  assert (Hup : char_get (currentKeyState initial_input) 32 <> Some 1)
    by (vm_compute; discriminate).
  destruct (key_press_reported_once 256 1 32 initial_input eq_refl Harr
              ltac:(lia) ltac:(lia)) as (Hpress & _ & Hwide).
  split; [exact (Hpress Hup) | exact (Hwide 257 eq_refl Hup)].
Defined.

Lemma escape_closes_unseen_witness :
  exists s,
    poll_frames 256 1 [[KeyEvent 32 1]; [KeyEvent 256 1; KeyEvent 32 0]]
      initial_input = Some s
    /\ IsKeyPressed 256 s = Some false
    /\ windowShouldClose s = true.
Proof.
  destruct (poll_frames 256 1 [[KeyEvent 32 1]; [KeyEvent 256 1; KeyEvent 32 0]]
              initial_input) as [s|] eqn:Hrun.
  - exists s. split; [reflexivity |].
    refine (proj1 (escape_closes_unseen 256 1 _ s eq_refl ltac:(lia)) _ Hrun).
    repeat constructor; cbn; lia.
  - vm_compute in Hrun. discriminate Hrun.
Defined.

Lemma input_event_outside_arrays_witness :
  input_arrays initial_input
  /\ KeyCallback 256 1 (- 1) 1 initial_input = None
  /\ MouseButtonCallback 3 1 initial_input = None.
Proof.
  assert (Harr : input_arrays initial_input) by (repeat split; reflexivity).
  split; [exact Harr |].
  destruct (input_event_outside_arrays 256 1 (- 1) 1 initial_input Harr)
    as (Hkey & _).
  destruct (input_event_outside_arrays 256 1 3 1 initial_input Harr)
    as (_ & Hbutton & _).
  split; [apply Hkey | apply Hbutton]; lia.
Defined.

(** ** Frame timing *)

(** When the wait loop ends after at least one turn, the time it read last
    is a reading of the clock at which the wait is over. *)
Lemma busy_wait_ends (clock : nat -> Q) (fuel : nat) (prevTime wait start : Q)
    (calls calls' : nat) (nextTime : Q) :
  busy_wait clock fuel prevTime wait start calls = Some (nextTime, calls') ->
  (wait <= nextTime - prevTime)%Q
  /\ ((start - prevTime < wait)%Q ->
      (calls < calls')%nat /\ nextTime = clock (calls' - 1)%nat).
Proof.
  revert start calls. induction fuel as [|fuel IH]; intros start calls; cbn [busy_wait].
  - destruct (Qltb (start - prevTime) wait) eqn:Hwait; [discriminate |].
    intros [= <- <-]. apply Qltb_false in Hwait. split; [exact Hwait |].
    intros Hlt. apply Qlt_not_le in Hlt. contradiction.
  - destruct (Qltb (start - prevTime) wait) eqn:Hwait.
    + intros Hrun. destruct (IH _ _ Hrun) as [Hend Hread]. split; [exact Hend |].
      intros _.
      destruct (Qlt_le_dec (clock calls - prevTime) wait) as [Hmore | Hdone].
      * destruct (Hread Hmore) as [Hlt ->]. split; [lia | reflexivity].
      * destruct fuel as [|fuel']; cbn [busy_wait] in Hrun;
          apply Qltb_false in Hdone; rewrite Hdone in Hrun;
          injection Hrun as <- <-;
          (split; [lia | f_equal; lia]).
    + intros [= <- <-]. apply Qltb_false in Hwait. split; [exact Hwait |].
      intros Hlt. apply Qlt_not_le in Hlt. contradiction.
Qed.

(** The wait loop ends when the clock gets to the end of the wait. *)
Lemma busy_wait_returns (clock : nat -> Q) (prevTime wait : Q) (k : nat) :
  forall (fuel : nat) (start : Q) (calls : nat),
    (wait <= clock (calls + k)%nat - prevTime)%Q ->
    (k < fuel)%nat ->
    exists nextTime calls',
      busy_wait clock fuel prevTime wait start calls = Some (nextTime, calls').
Proof.
  induction k as [|k IH]; intros fuel start calls Hreach Hfuel.
  - destruct fuel as [|fuel]; [lia |]. cbn [busy_wait].
    destruct (Qltb (start - prevTime) wait); [| eexists _, _; reflexivity].
    rewrite Nat.add_0_r in Hreach. apply Qltb_false in Hreach.
    destruct fuel; cbn [busy_wait]; rewrite Hreach; eexists _, _; reflexivity.
  - destruct fuel as [|fuel]; [lia |]. cbn [busy_wait].
    destruct (Qltb (start - prevTime) wait); [| eexists _, _; reflexivity].
    apply IH; [| lia].
    replace (S calls + k)%nat with (calls + S k)%nat by lia. exact Hreach.
Qed.

Lemma clock_monotone (clock : nat -> Q) (i j : nat) :
  (forall k, (clock k <= clock (S k))%Q) -> (i <= j)%nat ->
  (clock i <= clock j)%Q.
Proof.
  intros Hstep Hij. induction Hij as [|j Hij IH]; [apply Qle_refl |].
  eapply Qle_trans; [exact IH | apply Hstep].
Qed.

(** What [SyncFrame] leaves when it returns. *)
Lemma SyncFrame_result (clock : nat -> Q) (fuel calls calls' : nat)
    (t t' : Timing) :
  (forall k, (0 <= clock k)%Q) ->
  (forall k, (clock k <= clock (S k))%Q) ->
  SyncFrame clock fuel calls t = Some (t', calls') ->
  (targetTime t <= frameTime t')%Q
  /\ previousTime t' = currentTime t'
  /\ currentTime t' = clock (calls' - 1)%nat
  /\ targetTime t' = targetTime t
  /\ (calls < calls')%nat.
Proof.
  intros Hpos Hstep. unfold SyncFrame.
  destruct (Qltb (clock calls - previousTime t) (targetTime t)) eqn:Hshort.
  - apply Qltb_true in Hshort.
    destruct (busy_wait _ _ _ _ _ _) as [[nextTime c1]|] eqn:Hwait;
      cbn [mbind option_bind]; [| discriminate].
    intros [= <- <-]. cbn [frameTime previousTime currentTime targetTime].
    apply busy_wait_ends in Hwait as [Hend Hread].
    destruct Hread as [Hlt Hnext].
    { pose proof (Hpos (S calls)). lra. }
    subst nextTime.
    pose proof (clock_monotone clock (c1 - 1) c1 Hstep ltac:(lia)).
    pose proof (Hstep calls).
    repeat split; try lia; [lra |].
    f_equal. lia.
  - apply Qltb_false in Hshort. intros [= <- <-].
    cbn [frameTime previousTime currentTime targetTime].
    repeat split; try lia; [exact Hshort |]. f_equal. lia.
Qed.

(** X26.  Frame rate.  After [SetTargetFPS fps], a call of [SyncFrame] that
    returns leaves a frame time of at least 1/fps when [fps] is 1 or more
    (of at least 0 otherwise), and it leaves the time of its last reading
    of the clock as the current and the previous time; this holds for a
    clock that is not negative and does not run backwards. *)
Theorem SyncFrame_frame_time (clock : nat -> Q) (fps : Z) (fuel calls calls' : nat)
    (t t' : Timing) :
  (forall k, (0 <= clock k)%Q) ->
  (forall k, (clock k <= clock (S k))%Q) ->
  SyncFrame clock fuel calls (SetTargetFPS fps t) = Some (t', calls') ->
  ((if fps <? 1 then 0 else 1 / inject_Z fps) <= frameTime t')%Q
  /\ previousTime t' = currentTime t'
  /\ currentTime t' = clock (calls' - 1)%nat
  /\ (calls < calls')%nat.
Proof.
  intros Hpos Hstep Hrun.
  destruct (SyncFrame_result clock fuel calls calls' _ t' Hpos Hstep Hrun)
    as (Htime & Hprev & Hcur & _ & Hcalls).
  repeat split; assumption.
Qed.

Lemma SyncFrame_frame_time_witness :
  exists t' calls',
    SyncFrame (fun i => inject_Z (Z.of_nat i) / 240)%Q 10 0
      (SetTargetFPS 60 (mkTiming 0 0 0 0)) = Some (t', calls')
    /\ (1 / inject_Z 60 <= frameTime t')%Q.
Proof.
  destruct (SyncFrame (fun i => inject_Z (Z.of_nat i) / 240)%Q 10 0
              (SetTargetFPS 60 (mkTiming 0 0 0 0))) as [[t' calls']|] eqn:Hrun.
  - exists t', calls'. split; [reflexivity |].
    refine (proj1 (SyncFrame_frame_time _ 60 10 0 calls' (mkTiming 0 0 0 0) t'
                     _ _ Hrun)).
    + intros k. apply Qle_shift_div_l; [reflexivity |].
      rewrite Qmult_0_l. change 0%Q with (inject_Z 0).
      rewrite <- Zle_Qle. lia.
    + intros k. apply Qmult_le_compat_r; [| discriminate].
      rewrite <- Zle_Qle. lia.
  - vm_compute in Hrun. discriminate Hrun.
Defined.

(** X27.  The wait.  A call of [SyncFrame] returns as soon as the clock
    reaches the end of the wait: when reading number [k] after the start of
    the loop is late enough, [k + 1] turns of the loop suffice.  On a clock
    that stands still the call never returns, whatever the number of
    turns, when the frame was shorter than the target time. *)
Theorem SyncFrame_wait (clock : nat -> Q) (calls : nat) (t : Timing) :
  (forall k fuel,
      (targetTime t - (clock calls - previousTime t)
       <= clock (S (S calls) + k)%nat - clock (S calls))%Q ->
      (k < fuel)%nat ->
      exists t' calls', SyncFrame clock fuel calls t = Some (t', calls'))
  /\ ((forall i, clock i = clock calls) ->
      (0 <= clock calls)%Q ->
      (clock calls - previousTime t < targetTime t)%Q ->
      forall fuel, SyncFrame clock fuel calls t = None).
Proof.
  split.
  - intros k fuel Hreach Hfuel. unfold SyncFrame.
    destruct (Qltb (clock calls - previousTime t) (targetTime t));
      [| eexists _, _; reflexivity].
    destruct (busy_wait_returns clock (clock (S calls))
                (targetTime t - (clock calls - previousTime t)) k fuel 0
                (S (S calls)) Hreach Hfuel) as (nextTime & c1 & ->).
    eexists _, _. reflexivity.
  - intros Hstill Hpos Hshort fuel. unfold SyncFrame.
    replace (Qltb _ _) with true by (symmetry; apply Qltb_true; exact Hshort).
    replace (busy_wait _ _ _ _ _ _) with (@None (Q * nat)); [reflexivity |].
    symmetry. rewrite (Hstill (S calls)).
    assert (Hloop : forall (n : nat) (start : Q) (c : nat),
               (start - clock calls
                < targetTime t - (clock calls - previousTime t))%Q ->
               busy_wait clock n (clock calls)
                 (targetTime t - (clock calls - previousTime t)) start c = None).
    { induction n as [|n IH]; intros start c Hstart; cbn [busy_wait];
        (replace (Qltb _ _) with true by (symmetry; apply Qltb_true; exact Hstart));
        [reflexivity |].
      apply IH. rewrite (Hstill c). lra. }
    apply Hloop. lra.
Qed.

Lemma SyncFrame_wait_witness :
  (exists t' calls',
      SyncFrame (fun i => inject_Z (Z.of_nat i) / 240)%Q 4 0
        (mkTiming 0 0 0 (1 # 60)) = Some (t', calls'))
  /\ SyncFrame (fun _ => 1%Q) 100 0 (mkTiming 0 1 0 (1 # 60)) = None.
Proof.
  split.
  - apply (proj1 (SyncFrame_wait (fun i => inject_Z (Z.of_nat i) / 240)%Q 0
                    (mkTiming 0 0 0 (1 # 60))) 3%nat 4%nat);
      [vm_compute; discriminate | lia].
  - apply (proj2 (SyncFrame_wait (fun _ => 1%Q) 0 (mkTiming 0 1 0 (1 # 60))));
      [reflexivity | vm_compute; discriminate | reflexivity].
Defined.

(** ** Loading an image *)

Lemma strrchr_suffix (s t : string) (c : Ascii.ascii) :
  strrchr s c = Some t -> exists stem, s = (stem +:+ t)%string.
Proof.
  revert t. induction s as [|a s IH]; intros t; cbn [strrchr]; [discriminate |].
  destruct (strrchr s c) as [u|] eqn:Hu.
  - intros [= <-]. destruct (IH u eq_refl) as [stem ->].
    exists (String a stem). reflexivity.
  - destruct (Ascii.eqb a c); [| discriminate].
    intros [= <-]. exists EmptyString. reflexivity.
Qed.

Lemma strrchr_append (stem t : string) (c : Ascii.ascii) :
  strrchr (stem +:+ t) c
  = match strrchr t c with
    | Some u => Some u
    | None => (fun u => (u +:+ t)%string) <$> strrchr stem c
    end.
Proof.
  induction stem as [|a stem IH].
  - change (EmptyString +:+ t)%string with t. destruct (strrchr t c); reflexivity.
  - change (String a stem +:+ t)%string with (String a (stem +:+ t)).
    cbn [strrchr]. rewrite IH. destruct (strrchr t c) as [u|]; [reflexivity |].
    destruct (strrchr stem c) as [u|]; cbn; [reflexivity |].
    destruct (Ascii.eqb a c); reflexivity.
Qed.

Lemma supported_extension_last_dot (ext : string) :
  ext ∈ supported_extensions ->
  strrchr ext dot = Some ext /\ is_supported_extension ext = true.
Proof.
  intros Hin. apply list_elem_of_In in Hin. cbn in Hin.
  repeat destruct Hin as [<- | Hin]; try (split; reflexivity). destruct Hin.
Qed.

Lemma is_supported_extension_elem (fileExt : string) :
  is_supported_extension fileExt = true -> fileExt ∈ supported_extensions.
Proof.
  unfold is_supported_extension. intros Hex.
  apply existsb_exists in Hex as (ext & Hin & Heq).
  apply String.eqb_eq in Heq. subst ext. apply list_elem_of_In, Hin.
Qed.

Section FilesProperties.

Variable read_file : string -> option (list Z * Z * Z).

(** The two ways in which [LoadImage] fails leave the image without
    pixels. *)
Lemma LoadImage_fails (fileName : string) :
  read_file fileName = None
  \/ (forall stem ext,
         ext ∈ supported_extensions -> fileName <> (stem +:+ ext)%string) ->
  LoadImage read_file fileName = no_image.
Proof.
  intros Hfail. unfold LoadImage.
  destruct (strrchr fileName dot) as [fileExt|] eqn:Hext; [| reflexivity].
  destruct (is_supported_extension fileExt) eqn:Hsup; [| reflexivity].
  destruct Hfail as [-> | Hname]; [reflexivity |].
  exfalso. apply strrchr_suffix in Hext as [stem ->].
  apply (Hname stem fileExt); [| reflexivity].
  apply is_supported_extension_elem, Hsup.
Qed.

(** X28.  [LoadImage] decides on the part of the name from its last dot
    on: it reads the file exactly when the name ends in one of the six
    extensions, written in lower case; the image then has the dimensions
    that the decoder reports and the format R8G8B8A8, whatever the file
    holds.  For every other name, and for a file that cannot be opened, it
    returns the image with no pixel and the format 0. *)
Theorem LoadImage_extension (fileName : string) :
  ((exists stem ext,
       ext ∈ supported_extensions /\ fileName = (stem +:+ ext)%string) ->
   LoadImage read_file fileName
   = match read_file fileName with
     | Some (data, imgWidth, imgHeight) =>
         mkImage (u32 imgWidth) (u32 imgHeight) UNCOMPRESSED_R8G8B8A8 data
     | None => no_image
     end)
  /\ ((forall stem ext,
          ext ∈ supported_extensions -> fileName <> (stem +:+ ext)%string) ->
      LoadImage read_file fileName = no_image).
Proof.
  split.
  - intros (stem & ext & Hin & ->). unfold LoadImage.
    destruct (supported_extension_last_dot ext Hin) as [Hdot Hsup].
    rewrite strrchr_append, Hdot, Hsup. reflexivity.
  - intros Hname. apply LoadImage_fails. right. exact Hname.
Qed.

(** X29.  A map that cannot be loaded makes an empty world: when the file
    of the map cannot be opened or its name has none of the six
    extensions, the generator returns the mesh without vertices, the pixel
    array has no cell, and every turn of the main loop ends with the camera
    as the controller left it: no move is undone. *)
Theorem unloaded_map_is_empty (fileName : string) (cubeSize : Q)
    (sinf cosf : Q -> Q) (DEG2RAD : Q) (mapPosition : Vector3)
    (input : Input) (st : Camera * CameraStatics) :
  read_file fileName = None
  \/ (forall stem ext,
         ext ∈ supported_extensions -> fileName <> (stem +:+ ext)%string) ->
  let imMap := LoadImage read_file fileName in
  GenMeshCubicmap imMap cubeSize = Some (mkMesh 0 [] [] [])
  /\ GetImageData imMap = Some []
  /\ frame sinf cosf DEG2RAD imMap [] mapPosition input st
     = Some (UpdateCamera sinf cosf DEG2RAD input (snd st) (fst st)).
Proof.
  intros Hfail. cbv zeta. rewrite (LoadImage_fails fileName Hfail).
  split; [reflexivity | split; [reflexivity |]].
  unfold frame.
  destruct (UpdateCamera sinf cosf DEG2RAD input (snd st) (fst st))
    as [camera statics].
  reflexivity.
Qed.

(** X30.  A map that loads satisfies what the theorems on the generator
    assume: when the name has one of the six extensions, the file opens and
    the decoder returns 4 bytes for each of the pixels of the dimensions it
    reports, dimensions such that 108 times their product fits the range
    of [int], then [GetImageData] extracts a grid of
    [width*height] written pixels from the loaded image. *)
Theorem LoadImage_grid (fileName stem ext : string) (data : list Z)
    (imgWidth imgHeight : Z) :
  ext ∈ supported_extensions -> fileName = (stem +:+ ext)%string ->
  read_file fileName = Some (data, imgWidth, imgHeight) ->
  0 <= imgWidth <= INT_MAX -> 0 <= imgHeight <= INT_MAX ->
  imgWidth * imgHeight * 108 <= INT_MAX ->
  Z.of_nat (length data) = 4 * (imgWidth * imgHeight) ->
  exists pixels,
    grid_of (LoadImage read_file fileName) pixels
    /\ Image_width (LoadImage read_file fileName) = imgWidth
    /\ Image_height (LoadImage read_file fileName) = imgHeight
    /\ Z.of_nat (length pixels) = imgWidth * imgHeight.
Proof.
  intros Hin Hname Hread HW HH Hsize Hdata.
  assert (Hload : LoadImage read_file fileName
                  = mkImage imgWidth imgHeight UNCOMPRESSED_R8G8B8A8 data).
  { unfold LoadImage. subst fileName.
    destruct (supported_extension_last_dot ext Hin) as [Hdot Hsup].
    rewrite strrchr_append, Hdot, Hsup, Hread.
    rewrite !u32_small by (unfold INT_MAX in *; lia). reflexivity. }
  rewrite Hload. cbn [Image_width Image_height].
  assert (Harea : 0 <= imgWidth * imgHeight) by nia.
  pose proof (GetImageData_loop_reads
                (mkImage imgWidth imgHeight UNCOMPRESSED_R8G8B8A8 data)
                (Z.to_nat (imgWidth * imgHeight)) [] eq_refl) as Hloop.
  cbn [length Image_format Image_data app] in Hloop.
  change (Z.of_nat 0) with 0 in Hloop.
  rewrite Z.mul_0_r, Z2Nat.id in Hloop by exact Harea.
  destruct Hloop as (pixels & Hlen & Hloop).
  { change (bytes_per_pixel UNCOMPRESSED_R8G8B8A8) with 4. lia. }
  exists pixels. split; [| repeat split; lia].
  split.
  - unfold well_sized. cbn [Image_width Image_height]. lia.
  - unfold GetImageData, for_range. cbn [Image_width Image_height].
    rewrite u32_small by (unfold INT_MAX in *; lia).
    rewrite Z.sub_0_r, malloc_filled, Hloop. reflexivity.
Qed.

End FilesProperties.

Lemma LoadImage_extension_witness :
  LoadImage (fun _ => Some (white_px, 1, 1)) "resources/map04.png"
  = mkImage 1 1 UNCOMPRESSED_R8G8B8A8 white_px
  /\ LoadImage (fun _ => Some (white_px, 1, 1)) "resources/map04.PNG" = no_image.
Proof.
  split.
  - apply (proj1 (LoadImage_extension (fun _ => Some (white_px, 1, 1))
                    "resources/map04.png")).
    exists "resources/map04"%string, ".png"%string.
    split; [| reflexivity]. apply list_elem_of_In. cbn. tauto.
  - apply (proj2 (LoadImage_extension (fun _ => Some (white_px, 1, 1))
                    "resources/map04.PNG")).
    intros stem ext Hin Hname.
    assert (Hdot : strrchr "resources/map04.PNG" dot = Some ".PNG"%string)
      by reflexivity.
    rewrite Hname, strrchr_append in Hdot.
    destruct (supported_extension_last_dot ext Hin) as [Hext _].
    rewrite Hext in Hdot. injection Hdot as ->.
    apply list_elem_of_In in Hin. cbn in Hin.
    repeat destruct Hin as [Hin | Hin]; try discriminate Hin. destruct Hin.
Defined.

Lemma unloaded_map_is_empty_witness :
  GenMeshCubicmap (LoadImage (fun _ => None) "resources/map04.png") 1
  = Some (mkMesh 0 [] [] []).
Proof.
  apply (unloaded_map_is_empty (fun _ => None) "resources/map04.png" 1
           (fun _ => 0%Q) (fun _ => 1%Q) (1 # 57) Vector3Zero only_up
           (camera_at Vector3One, statics0)).
  left. reflexivity.
Defined.

Lemma LoadImage_grid_witness :
  exists pixels,
    grid_of (LoadImage (fun _ => Some (white_px ++ black_px, 2, 1))
               "resources/map04.png") pixels
    /\ Z.of_nat (length pixels) = 2 * 1.
Proof.
  destruct (LoadImage_grid (fun _ => Some (white_px ++ black_px, 2, 1))
              "resources/map04.png" "resources/map04" ".png"
              (white_px ++ black_px) 2 1)
    as (pixels & Hgrid & _ & _ & Hlen);
    [apply list_elem_of_In; cbn; tauto | reflexivity | reflexivity
     | unfold INT_MAX; lia | unfold INT_MAX; lia | unfold INT_MAX; lia
     | reflexivity |].
  exists pixels. split; [exact Hgrid | exact Hlen].
Defined.
